(** * Trusted Advisor data providers: pagination, enrichment, envelope, chunked streaming

    Shallow embedding of the three Lambda handlers

    - cost recommendations      (unnamed/part_001),
    - security recommendations  (lambdas/trusted_advisor_security/index.js),
    - recommendation resources  (lambdas/trusted_advisor_list_recommendation_resources/index.js),

    and of the [streamFunctionResponse] routine they share.

    An invocation is a computation in a small state-and-exception monad:
    the state holds the remote service, the log of the commands sent to
    it and what the response stream has received.  The [while] loops
    that follow continuation tokens take a bound on their number of
    rounds.  Console output is left out: the handlers never read it
    back. *)

From Stdlib Require Import String Ascii List NArith ZArith QArith Qabs Qround Bool Lia.
From Stdlib Require Import Permutation Sorted.
Import ListNotations.

Local Open Scope N_scope.

(* ===================================================================== *)
(** ** JavaScript strings *)
(* ===================================================================== *)

(** A JavaScript string is a sequence of UTF-16 code units; [s.length]
    counts code units, and [s.slice] cuts between code units. *)
Definition code_unit := N.
Definition jsstring := list code_unit.

(** ASCII literals of the source, as code units. *)
Fixpoint lit (s : string) : jsstring :=
  match s with
  | EmptyString => []
  | String a r => N_of_ascii a :: lit r
  end.

Definition strlen (s : jsstring) : N := N.of_nat (List.length s).

(** [s.slice(i, j)] for [0 <= i <= j]: the code units from position [i]
    up to (not including) [j], clamped to the end of the string. *)
Definition slice (s : jsstring) (i j : N) : jsstring :=
  firstn (N.to_nat (j - i)) (skipn (N.to_nat i) s).

Definition jsstring_eqb (a b : jsstring) : bool :=
  if list_eq_dec N.eq_dec a b then true else false.

(** ToBoolean on a string: only the empty string is falsy. *)
Definition str_truthy (s : jsstring) : bool :=
  match s with [] => false | _ :: _ => true end.

(** ToBoolean on a possibly-undefined string. *)
Definition truthy (o : option jsstring) : bool :=
  match o with Some s => str_truthy s | None => false end.

(** [x || ''] on a possibly-undefined string. *)
Definition or_empty (o : option jsstring) : jsstring :=
  match o with Some s => if str_truthy s then s else [] | None => [] end.

Definition is_high_surrogate (c : code_unit) : bool := (0xD800 <=? c) && (c <=? 0xDBFF).
Definition is_low_surrogate (c : code_unit) : bool := (0xDC00 <=? c) && (c <=? 0xDFFF).

(** [Buffer.byteLength(s)]: the length of the UTF-8 encoding that a
    string gets when it is written to a byte stream.  A surrogate pair
    is one 4-byte sequence; a lone surrogate is replaced by U+FFFD
    (3 bytes). *)
Fixpoint byteLength (s : jsstring) : N :=
  match s with
  | [] => 0
  | c :: r =>
      if c <? 0x80 then 1 + byteLength r
      else if c <? 0x800 then 2 + byteLength r
      else if is_high_surrogate c then
        match r with
        | d :: r' => if is_low_surrogate d then 4 + byteLength r' else 3 + byteLength r
        | [] => 3
        end
      else 3 + byteLength r
  end.

Definition is_ascii (s : jsstring) : bool := forallb (fun c => c <? 0x80) s.

(* ===================================================================== *)
(** ** JSON.stringify on strings and on the response envelope *)
(* ===================================================================== *)

Definition hex_digit (n : N) : code_unit :=
  if n <? 10 then 48 + n else 87 + n.

(** The escape [\uXXXX] with four lowercase hexadecimal digits. *)
Definition unicode_escape (c : code_unit) : jsstring :=
  [92; 117; hex_digit (c / 4096 mod 16); hex_digit (c / 256 mod 16);
   hex_digit (c / 16 mod 16); hex_digit (c mod 16)].

(** QuoteJSONString, without the surrounding quotes: the short escapes,
    [\u00XX] for the other control characters, [\uDXXX] for a lone
    surrogate, everything else verbatim. *)
Fixpoint json_escape (s : jsstring) : jsstring :=
  match s with
  | [] => []
  | c :: r =>
      if c =? 8 then 92 :: 98 :: json_escape r
      else if c =? 9 then 92 :: 116 :: json_escape r
      else if c =? 10 then 92 :: 110 :: json_escape r
      else if c =? 12 then 92 :: 102 :: json_escape r
      else if c =? 13 then 92 :: 114 :: json_escape r
      else if c =? 34 then 92 :: 34 :: json_escape r
      else if c =? 92 then 92 :: 92 :: json_escape r
      else if c <? 32 then unicode_escape c ++ json_escape r
      else if is_high_surrogate c then
        match r with
        | d :: r' =>
            if is_low_surrogate d then c :: d :: json_escape r'
            else unicode_escape c ++ json_escape r
        | [] => unicode_escape c
        end
      else if is_low_surrogate c then unicode_escape c ++ json_escape r
      else c :: json_escape r
  end.

Definition json_string (s : jsstring) : jsstring := 34 :: json_escape s ++ [34].

(** One [key:value] member of an object; [value] is already serialized. *)
Definition json_member (key : string) (value : jsstring) : jsstring :=
  json_string (lit key) ++ 58 :: value.

(** A member whose value is [undefined] is left out by JSON.stringify. *)
Definition json_opt_member (key : string) (value : option jsstring) : list jsstring :=
  match value with
  | Some v => [json_member key (json_string v)]
  | None => []
  end.

Fixpoint json_join (members : list jsstring) : jsstring :=
  match members with
  | [] => []
  | [m] => m
  | m :: rest => m ++ 44 :: json_join rest
  end.

Definition json_object (members : list jsstring) : jsstring :=
  123 :: json_join members ++ [125].

(** The response envelope handed to [streamFunctionResponse]:
    [{messageVersion, response: {actionGroup, function, responseState?,
      functionResponse: {responseBody: {TEXT: {body}}}}}]. *)
Record Envelope := {
  messageVersion : jsstring;
  actionGroup : jsstring;
  function : option jsstring;
  responseState : option jsstring;
  body : jsstring
}.

Definition JSON_stringify (r : Envelope) : jsstring :=
  json_object
    [ json_member "messageVersion" (json_string (messageVersion r));
      json_member "response"
        (json_object
           ([json_member "actionGroup" (json_string (actionGroup r))]
            ++ json_opt_member "function" (function r)
            ++ json_opt_member "responseState" (responseState r)
            ++ [json_member "functionResponse"
                  (json_object
                     [json_member "responseBody"
                        (json_object
                           [json_member "TEXT"
                              (json_object
                                 [json_member "body" (json_string (body r))])])])])) ].

(** [JSON.stringify({error: e.message})]. *)
Definition stringify_error (message : jsstring) : jsstring :=
  json_object [json_member "error" (json_string message)].

(* ===================================================================== *)
(** ** JavaScript numbers *)
(* ===================================================================== *)

(** Numbers are IEEE-754 doubles in the source.  They are modelled by
    their exact values: [NaN], the two infinities, and the finite values
    as rationals.  Addition and subtraction are exact here (the rounding
    of a double operation is not modelled); the sign of a difference and
    the truthiness of a number, which is all the control flow of the
    handlers looks at, agree with the double operations. *)
Inductive number := NaN | NegInf | Fin (q : Q) | PosInf.

Definition num_add (a b : number) : number :=
  match a, b with
  | NaN, _ | _, NaN => NaN
  | PosInf, NegInf | NegInf, PosInf => NaN
  | PosInf, _ | _, PosInf => PosInf
  | NegInf, _ | _, NegInf => NegInf
  | Fin x, Fin y => Fin (x + y)
  end.

Definition num_neg (a : number) : number :=
  match a with
  | NaN => NaN
  | NegInf => PosInf
  | PosInf => NegInf
  | Fin x => Fin (- x)
  end.

Definition num_sub (a b : number) : number := num_add a (num_neg b).

Definition is_nan (a : number) : bool :=
  match a with NaN => true | _ => false end.

(** ToBoolean on a number: [0] and [NaN] are falsy. *)
Definition num_truthy (a : number) : bool :=
  match a with
  | NaN => false
  | Fin q => negb (Qeq_bool q 0)
  | NegInf | PosInf => true
  end.

(** [v > 0] on a number ([NaN > 0] is false). *)
Definition num_pos (a : number) : bool :=
  match a with
  | PosInf => true
  | Fin q => match q ?= 0 with Gt => true | _ => false end
  | NaN | NegInf => false
  end%Q.

(** [a + b] where either operand may be [undefined]: ToNumber(undefined)
    is [NaN]. *)
Definition js_add (a b : option number) : number :=
  match a, b with
  | Some x, Some y => num_add x y
  | _, _ => NaN
  end.

(** [x || 0] on a possibly-undefined number. *)
Definition or_zero (o : option number) : number :=
  match o with
  | Some n => if num_truthy n then n else Fin 0
  | None => Fin 0
  end.

(** [Number(x.toFixed(2))]: the nearest multiple of 1/100, a tie going
    away from zero; values of magnitude 1e21 and more, the infinities and
    [NaN] are printed in full and read back unchanged. *)
Definition toFixed2 (a : number) : number :=
  match a with
  | Fin q =>
      if Qle_bool (1000000000000000000000 # 1) (Qabs q) then Fin q
      else
        let n := Qfloor (Qabs q * (100 # 1) + (1 # 2)) in
        Fin (if Qle_bool 0 q then n # 100 else - (n # 100))
  | _ => a
  end%Q.

(* ===================================================================== *)
(** ** Shapes of the remote API and of the handlers' records *)
(* ===================================================================== *)

(** Every member of a remote output shape is optional; an absent member
    reads as [undefined], here [None]. *)

Definition metadata_map := list (jsstring * jsstring).

(** [m.key] on a string-to-string object. *)
Fixpoint get_property (m : metadata_map) (key : jsstring) : option jsstring :=
  match m with
  | [] => None
  | (k, v) :: r => if jsstring_eqb k key then Some v else get_property r key
  end.

Module CostAggregates.
Record t := { estimatedMonthlySavings : option number }.
End CostAggregates.

Module PillarAggregates.
Record t := { costOptimizing : option CostAggregates.t }.
End PillarAggregates.

Module ResourcesAggregates.
Record t := { errorCount : option number; warningCount : option number }.
End ResourcesAggregates.

(** One element of [response.recommendationSummaries]. *)
Module Summary.
Record t := {
  arn : option jsstring;
  name : option jsstring;
  id : option jsstring;
  status : option jsstring;
  pillarSpecificAggregates : option PillarAggregates.t;
  resourcesAggregates : option ResourcesAggregates.t
}.
End Summary.

Module DetailResource.
Record t := {
  resourceId : option jsstring;
  metadata : option metadata_map;
  status : option jsstring
}.
End DetailResource.

Module Action.
Record t := { description : option jsstring }.
End Action.

Module Recommendation.
Record t := {
  description : option jsstring;
  recommendedActions : option (list Action.t);
  resources : option (list DetailResource.t)
}.
End Recommendation.

(** The output of GetRecommendationCommand. *)
Module Detail.
Record t := { recommendation : option Recommendation.t }.
End Detail.

Module ListInput.
Record t := {
  maxResults : N;
  pillar : jsstring;
  status : jsstring;
  nextToken : option jsstring
}.
Definition with_nextToken (input : t) (tok : option jsstring) : t :=
  {| maxResults := maxResults input; pillar := pillar input;
     status := status input; nextToken := tok |}.
End ListInput.

Module ListOutput.
Record t := {
  recommendationSummaries : option (list Summary.t);
  nextToken : option jsstring
}.
End ListOutput.

(** One element of [response.recommendationResourceSummaries]. *)
Module ResourceSummary.
Record t := {
  id : option jsstring;
  arn : option jsstring;
  awsResourceId : option jsstring;
  regionCode : option jsstring;
  status : option jsstring;
  metadata : option metadata_map;
  lastUpdatedAt : option jsstring;
  exclusionStatus : option jsstring;
  recommendationArn : option jsstring
}.
End ResourceSummary.

Module ResourcesInput.
Record t := {
  maxResults : N;
  recommendationIdentifier : jsstring;
  nextToken : option jsstring
}.
Definition with_nextToken (input : t) (tok : option jsstring) : t :=
  {| maxResults := maxResults input;
     recommendationIdentifier := recommendationIdentifier input;
     nextToken := tok |}.
End ResourcesInput.

Module ResourcesOutput.
Record t := {
  recommendationResourceSummaries : option (list ResourceSummary.t);
  nextToken : option jsstring
}.
End ResourcesOutput.

Module FindingResource.
Record t := {
  resourceId : jsstring;
  region : jsstring;
  status : option jsstring;
  metadata : metadata_map
}.
End FindingResource.

(** A Finding; [estimatedMonthlySavings] is a property of the cost
    provider's findings only ([None]: the property is absent). *)
Module Finding.
Record t := {
  recommendationIdentifier : option jsstring;
  checkName : option jsstring;
  checkId : option jsstring;
  status : option jsstring;
  description : jsstring;
  recommendedAction : jsstring;
  resourceCount : number;
  estimatedMonthlySavings : option number;
  resources : list FindingResource.t
}.
End Finding.

Module ResourceRecord.
Record t := {
  id : option jsstring;
  taResourceArn : option jsstring;
  awsResourceId : option jsstring;
  regionCode : option jsstring;
  status : option jsstring;
  metadata : option metadata_map;
  lastUpdatedAt : option jsstring;
  exclusionStatus : option jsstring;
  recommendationArn : option jsstring
}.
End ResourceRecord.

Module Param.
Record t := { name : option jsstring; value : option jsstring }.
End Param.

(** The inbound event [{actionGroup, function, parameters}]. *)
Module Event.
Record t := {
  actionGroup : option jsstring;
  function : option jsstring;
  parameters : option (list Param.t)
}.
End Event.

(** The payloads that go, serialized, into the envelope's body. *)
Module Checks.
Record t := {
  totalFindings : N;
  totalPotentialSavings : option number;
  lastUpdated : jsstring;
  findings : list Finding.t
}.
End Checks.

Module ResourcesData.
Record t := {
  totalResources : N;
  lastUpdated : jsstring;
  resources : list ResourceRecord.t
}.
End ResourcesData.

(** A thrown error; the handlers read its [message] only. *)
Record Error := { message : jsstring }.

(** The commands sent through [client.send]. *)
Inductive Command :=
| ListRecommendationsCommand (input : ListInput.t)
| GetRecommendationCommand (recommendationIdentifier : option jsstring)
| ListRecommendationResourcesCommand (input : ResourcesInput.t).

(** What a remote call does: it returns an output or throws. *)
Inductive Reply (A : Type) :=
| Returns (a : A)
| Fails (e : Error).
Arguments Returns {A} a.
Arguments Fails {A} e.

(** The remote service, as the client sees it: each call takes the
    service from one state to the next and replies.  Nothing is assumed
    about the service. *)
Record Client (W : Type) := {
  listRecommendations : ListInput.t -> W -> Reply ListOutput.t * W;
  getRecommendation : option jsstring -> W -> Reply Detail.t * W;
  listRecommendationResources : ResourcesInput.t -> W -> Reply ResourcesOutput.t * W
}.
Arguments listRecommendations {W}.
Arguments getRecommendation {W}.
Arguments listRecommendationResources {W}.

(** What the response stream receives, in order. *)
Inductive SinkEvent :=
| SetContentType (contentType : jsstring)
| Write (chunk : jsstring)
| End_.

(* ===================================================================== *)
(** ** Effects: remote calls, the response stream, exceptions *)
(* ===================================================================== *)

(** One invocation runs against the remote service ([world]), and leaves
    behind the commands it sent ([calls]) and what it wrote to the
    response stream ([sink]), both oldest first. *)
Record State (W : Type) := {
  world : W;
  calls : list Command;
  sink : list SinkEvent
}.
Arguments world {W}.
Arguments calls {W}.
Arguments sink {W}.

(** A computation returns, throws, or is cut off because the bound on
    the number of loop rounds was too small. *)
Inductive Result (A : Type) :=
| Ok (a : A)
| Throw (e : Error)
| OutOfFuel.
Arguments Ok {A} a.
Arguments Throw {A} e.
Arguments OutOfFuel {A}.

Definition M (W A : Type) : Type := State W -> Result A * State W.

Definition ret {W A} (a : A) : M W A := fun st => (Ok a, st).

Definition bind {W A B} (m : M W A) (k : A -> M W B) : M W B :=
  fun st =>
    match m st with
    | (Ok a, st') => k a st'
    | (Throw e, st') => (Throw e, st')
    | (OutOfFuel, st') => (OutOfFuel, st')
    end.

Definition throw {W A} (e : Error) : M W A := fun st => (Throw e, st).

Definition out_of_fuel {W A} : M W A := fun st => (OutOfFuel, st).

(** [try { m } catch (e) { handler e }]. *)
Definition try_catch {W A} (m : M W A) (handler : Error -> M W A) : M W A :=
  fun st =>
    match m st with
    | (Throw e, st') => handler e st'
    | r => r
    end.

Declare Scope js_scope.
Delimit Scope js_scope with js.
Notation "x <- c ;; k" := (bind c (fun x => k))
  (at level 61, c at next level, right associativity) : js_scope.
Notation "c ;; k" := (bind c (fun _ => k))
  (at level 61, right associativity) : js_scope.
Local Open Scope js_scope.

(** [await client.send(cmd)]: the command is recorded, the service moves
    on, and the reply is returned or thrown. *)
Definition send {W A} (cmd : Command) (call : W -> Reply A * W) : M W A :=
  fun st =>
    let (r, w') := call (world st) in
    let st' := {| world := w'; calls := calls st ++ [cmd]; sink := sink st |} in
    match r with
    | Returns a => (Ok a, st')
    | Fails e => (Throw e, st')
    end.

Definition emit {W} (ev : SinkEvent) : M W unit :=
  fun st => (Ok tt, {| world := world st; calls := calls st; sink := sink st ++ [ev] |}).

(* ===================================================================== *)
(** ** The chunked streamer *)
(* ===================================================================== *)

Definition CHUNK_SIZE : N := 25 * 1024.

(** [for (let i = ...; i < chunk.length; i += CHUNK_SIZE)
       await responseStream.write(chunk.slice(i, i + CHUNK_SIZE))]. *)
Fixpoint write_slices {W} (fuel : nat) (chunk : jsstring) (i : N) : M W unit :=
  match fuel with
  | O => out_of_fuel
  | S fuel' =>
      if i <? strlen chunk then
        emit (Write (slice chunk i (i + CHUNK_SIZE))) ;;
        write_slices fuel' chunk (i + CHUNK_SIZE)
      else ret tt
  end.

(** [streamFunctionResponse(function_response, responseStream)].
    [Readable.from] of a string yields that string as its only chunk, so
    the [for await] body runs once, on the whole serialization.  The
    inner loop advances [i] by [CHUNK_SIZE] each round and so makes at
    most [chunk.length] rounds, which is the bound given to it. *)
Definition streamFunctionResponse {W} (function_response : Envelope) : M W unit :=
  let jsonResponse := JSON_stringify function_response in
  let chunk := jsonResponse in
  (if CHUNK_SIZE <? strlen chunk then
     write_slices (S (List.length chunk)) chunk 0
   else
     emit (Write chunk)) ;;
  emit End_.

(* ===================================================================== *)
(** ** Array.prototype.sort *)
(* ===================================================================== *)

(** [list.sort(comparefn)] is stable, and a comparator result that is
    [NaN] counts as [+0].  For a comparator that is a consistent ordering
    every stable sort returns the same array; the one used here is
    insertion sort, which moves [x] behind [y] exactly when
    [comparefn(x, y) > 0]. *)
Section ArraySort.
Context {A : Type} (comparefn : A -> A -> number).

Fixpoint sort_insert (x : A) (l : list A) : list A :=
  match l with
  | [] => [x]
  | y :: r => if num_pos (comparefn x y) then y :: sort_insert x r else x :: y :: r
  end.

Fixpoint Array_sort (l : list A) : list A :=
  match l with
  | [] => []
  | x :: r => sort_insert x (Array_sort r)
  end.

End ArraySort.

(* ===================================================================== *)
(** ** The three handlers *)
(* ===================================================================== *)

(** [detailResponse.recommendation?.description || '']. *)
Definition detail_description (detailResponse : Detail.t) : jsstring :=
  or_empty match Detail.recommendation detailResponse with
           | Some r => Recommendation.description r
           | None => None
           end.

(** [detailResponse.recommendation?.recommendedActions?.[0]?.description || '']. *)
Definition detail_recommendedAction (detailResponse : Detail.t) : jsstring :=
  or_empty match Detail.recommendation detailResponse with
           | Some r =>
               match Recommendation.recommendedActions r with
               | Some (a :: _) => Action.description a
               | _ => None
               end
           | None => None
           end.

(** [detailResponse.recommendation?.resources?.map(resource => ({...})) || []]. *)
Definition detail_resources (detailResponse : Detail.t) : list FindingResource.t :=
  match Detail.recommendation detailResponse with
  | Some r =>
      match Recommendation.resources r with
      | Some rs =>
          map (fun resource =>
                 {| FindingResource.resourceId := or_empty (DetailResource.resourceId resource);
                    FindingResource.region :=
                      or_empty match DetailResource.metadata resource with
                               | Some m => get_property m (lit "region")
                               | None => None
                               end;
                    FindingResource.status := DetailResource.status resource;
                    FindingResource.metadata :=
                      match DetailResource.metadata resource with
                      | Some m => m
                      | None => []
                      end |}) rs
      | None => []
      end
  | None => []
  end.

(** [resourceAggregates.errorCount + resourceAggregates.warningCount]
    with [resourceAggregates = recommendation.resourcesAggregates || {}]. *)
Definition resource_count (recommendation : Summary.t) : number :=
  match Summary.resourcesAggregates recommendation with
  | Some resourceAggregates =>
      js_add (ResourcesAggregates.errorCount resourceAggregates)
             (ResourcesAggregates.warningCount resourceAggregates)
  | None => js_add None None
  end.

(** [costAggregates.estimatedMonthlySavings || 0] with
    [costAggregates = recommendation.pillarSpecificAggregates?.costOptimizing || {}]. *)
Definition cost_savings (recommendation : Summary.t) : number :=
  or_zero match Summary.pillarSpecificAggregates recommendation with
          | Some p =>
              match PillarAggregates.costOptimizing p with
              | Some costAggregates => CostAggregates.estimatedMonthlySavings costAggregates
              | None => None
              end
          | None => None
          end.

(** The object pushed onto [findings] by the cost provider. *)
Definition cost_finding (recommendation : Summary.t) (detailResponse : Detail.t) : Finding.t :=
  {| Finding.recommendationIdentifier := Summary.arn recommendation;
     Finding.checkName := Summary.name recommendation;
     Finding.checkId := Summary.id recommendation;
     Finding.status := Summary.status recommendation;
     Finding.description := detail_description detailResponse;
     Finding.recommendedAction := detail_recommendedAction detailResponse;
     Finding.resourceCount := resource_count recommendation;
     Finding.estimatedMonthlySavings := Some (cost_savings recommendation);
     Finding.resources := detail_resources detailResponse |}.

(** The object pushed onto [findings] by the security provider. *)
Definition security_finding (rec : Summary.t) (detail : Detail.t) : Finding.t :=
  {| Finding.recommendationIdentifier := Summary.arn rec;
     Finding.checkName := Summary.name rec;
     Finding.checkId := Summary.id rec;
     Finding.status := Summary.status rec;
     Finding.description := detail_description detail;
     Finding.recommendedAction := detail_recommendedAction detail;
     Finding.resourceCount := resource_count rec;
     Finding.estimatedMonthlySavings := None;
     Finding.resources := detail_resources detail |}.

(** The object built from one resource summary by the resource provider. *)
Definition resource_record (resource : ResourceSummary.t) : ResourceRecord.t :=
  {| ResourceRecord.id := ResourceSummary.id resource;
     ResourceRecord.taResourceArn := ResourceSummary.arn resource;
     ResourceRecord.awsResourceId := ResourceSummary.awsResourceId resource;
     ResourceRecord.regionCode := ResourceSummary.regionCode resource;
     ResourceRecord.status := ResourceSummary.status resource;
     ResourceRecord.metadata := ResourceSummary.metadata resource;
     ResourceRecord.lastUpdatedAt := ResourceSummary.lastUpdatedAt resource;
     ResourceRecord.exclusionStatus := ResourceSummary.exclusionStatus resource;
     ResourceRecord.recommendationArn := ResourceSummary.recommendationArn resource |}.

(** [(a, b) => (b.estimatedMonthlySavings || 0) - (a.estimatedMonthlySavings || 0)]. *)
Definition by_savings (a b : Finding.t) : number :=
  num_sub (or_zero (Finding.estimatedMonthlySavings b))
          (or_zero (Finding.estimatedMonthlySavings a)).

(** [findings.reduce((sum, finding) => sum + (finding.estimatedMonthlySavings || 0), 0)]. *)
Definition total_savings (findings : list Finding.t) : number :=
  fold_left (fun sum finding => num_add sum (or_zero (Finding.estimatedMonthlySavings finding)))
            findings (Fin 0).

(** The success envelope of all three handlers. *)
Definition function_response (event : Event.t) (response_body : jsstring) : Envelope :=
  {| messageVersion := lit "1.0";
     actionGroup := or_empty (Event.actionGroup event);
     function := Event.function event;
     responseState := None;
     body := response_body |}.

(** The error envelope of all three handlers. *)
Definition error_function_response (event : Event.t) (e : Error) : Envelope :=
  {| messageVersion := lit "1.0";
     actionGroup := or_empty (Event.actionGroup event);
     function := Event.function event;
     responseState := Some (lit "REPROMPT");
     body := stringify_error (message e) |}.

Section Providers.

Context {W : Type}.

(** The module-level [client]. *)
Variable client : Client W.

(** [new Date().toISOString().replace('T', ' ').substr(0, 19)] at the
    time of the invocation. *)
Variable now : jsstring.

(** [JSON.stringify({checks})] and [JSON.stringify({resourcesData})]:
    the serialization of the payloads is not looked into. *)
Variable stringify_checks : Checks.t -> jsstring.
Variable stringify_resourcesData : ResourcesData.t -> jsstring.

Definition setContentType : M W unit := emit (SetContentType (lit "application/json")).

(** *** Cost recommendations (unnamed/part_001) *)

(** The [for (const recommendation of response.recommendationSummaries)]
    loop with its [try]/[catch]: a detail fetch that throws is caught
    (and logged), and nothing is pushed for its item.  The cost and the
    security provider have the same loop; they differ in the object
    [make_finding] that is pushed. *)
Fixpoint enrich (make_finding : Summary.t -> Detail.t -> Finding.t)
  (items : list Summary.t) (findings : list Finding.t) : M W (list Finding.t) :=
  match items with
  | [] => ret findings
  | recommendation :: rest =>
      findings' <-
        try_catch
          (detailResponse <-
             send (GetRecommendationCommand (Summary.arn recommendation))
                  (getRecommendation client (Summary.arn recommendation)) ;;
           ret (findings ++ [make_finding recommendation detailResponse]))
          (fun _ => ret findings) ;;
      enrich make_finding rest findings'
  end.

Definition enrich_cost := enrich cost_finding.

(** The [while (hasMoreResults)] loop; [input] is one object, updated in
    place when there is a token to carry forward. *)
Fixpoint cost_pages (fuel : nat) (input : ListInput.t) (nextToken : option jsstring)
  (findings : list Finding.t) : M W (list Finding.t) :=
  match fuel with
  | O => out_of_fuel
  | S fuel' =>
      let input := if truthy nextToken then ListInput.with_nextToken input nextToken
                   else input in
      response <- send (ListRecommendationsCommand input) (listRecommendations client input) ;;
      match ListOutput.recommendationSummaries response with
      | None => throw {| message := lit "response.recommendationSummaries is not iterable" |}
      | Some items =>
          findings <- enrich_cost items findings ;;
          let nextToken := ListOutput.nextToken response in
          if truthy nextToken then cost_pages fuel' input nextToken findings
          else ret findings
      end
  end.

Definition get_trusted_advisor_findings (fuel : nat) : M W (list Finding.t) :=
  try_catch
    (let input := {| ListInput.maxResults := 200;
                     ListInput.pillar := lit "cost_optimizing";
                     ListInput.status := lit "warning";
                     ListInput.nextToken := None |} in
     findings <- cost_pages fuel input None [] ;;
     ret (Array_sort by_savings findings))
    (fun e => throw e).

Definition cost_handler (fuel : nat) (event : Event.t) : M W unit :=
  try_catch
    (setContentType ;;
     findings <- get_trusted_advisor_findings fuel ;;
     let totalSavings := total_savings findings in
     let checks := {| Checks.totalFindings := N.of_nat (List.length findings);
                      Checks.totalPotentialSavings := Some (toFixed2 totalSavings);
                      Checks.lastUpdated := now;
                      Checks.findings := findings |} in
     streamFunctionResponse (function_response event (stringify_checks checks)))
    (fun e => streamFunctionResponse (error_function_response event e)).

(** *** Security recommendations (lambdas/trusted_advisor_security) *)

Definition enrich_security := enrich security_finding.

(** The [do { ... } while (nextToken)] loop; [input] is a new object in
    every round. *)
Fixpoint security_pages (fuel : nat) (nextToken : option jsstring)
  (findings : list Finding.t) : M W (list Finding.t) :=
  match fuel with
  | O => out_of_fuel
  | S fuel' =>
      let input := {| ListInput.maxResults := 200;
                      ListInput.pillar := lit "security";
                      ListInput.status := lit "warning";
                      ListInput.nextToken := if truthy nextToken then nextToken else None |} in
      response <- send (ListRecommendationsCommand input) (listRecommendations client input) ;;
      findings <- enrich_security
                    match ListOutput.recommendationSummaries response with
                    | Some items => items
                    | None => []
                    end findings ;;
      let nextToken := ListOutput.nextToken response in
      if truthy nextToken then security_pages fuel' nextToken findings
      else ret findings
  end.

Definition get_security_findings (fuel : nat) : M W (list Finding.t) :=
  security_pages fuel None [].

Definition security_handler (fuel : nat) (event : Event.t) : M W unit :=
  try_catch
    (setContentType ;;
     findings <- get_security_findings fuel ;;
     let checks := {| Checks.totalFindings := N.of_nat (List.length findings);
                      Checks.totalPotentialSavings := None;
                      Checks.lastUpdated := now;
                      Checks.findings := findings |} in
     streamFunctionResponse (function_response event (stringify_checks checks)))
    (fun e => streamFunctionResponse (error_function_response event e)).

(** *** Resources of one recommendation
        (lambdas/trusted_advisor_list_recommendation_resources) *)

(** [event.parameters?.find(param => param.name === "recommendationIdentifier")?.value]. *)
Definition find_recommendationIdentifier (event : Event.t) : option jsstring :=
  match Event.parameters event with
  | Some parameters =>
      match find (fun param =>
                    match Param.name param with
                    | Some n => jsstring_eqb n (lit "recommendationIdentifier")
                    | None => false
                    end) parameters with
      | Some param => Param.value param
      | None => None
      end
  | None => None
  end.

Fixpoint resource_pages (fuel : nat) (input : ResourcesInput.t) (nextToken : option jsstring)
  (resources : list ResourceRecord.t) : M W (list ResourceRecord.t) :=
  match fuel with
  | O => out_of_fuel
  | S fuel' =>
      let input := if truthy nextToken then ResourcesInput.with_nextToken input nextToken
                   else input in
      response <- send (ListRecommendationResourcesCommand input)
                       (listRecommendationResources client input) ;;
      let resources :=
        match ResourcesOutput.recommendationResourceSummaries response with
        | Some summaries => resources ++ map resource_record summaries
        | None => resources
        end in
      let nextToken := ResourcesOutput.nextToken response in
      if truthy nextToken then resource_pages fuel' input nextToken resources
      else ret resources
  end.

Definition get_resource_list (fuel : nat) (recommendationIdentifier : jsstring)
  : M W (list ResourceRecord.t) :=
  try_catch
    (let input := {| ResourcesInput.maxResults := 200;
                     ResourcesInput.recommendationIdentifier := recommendationIdentifier;
                     ResourcesInput.nextToken := None |} in
     resource_pages fuel input None [])
    (fun e => throw e).

(** Past the check [if (!recommendationIdentifier) throw ...] the
    identifier is a non-empty string, which [or_empty] hands over as it
    is. *)
Definition resources_handler (fuel : nat) (event : Event.t) : M W unit :=
  try_catch
    (setContentType ;;
     let recommendationIdentifier := find_recommendationIdentifier event in
     (if negb (truthy recommendationIdentifier) then
        throw {| message := lit "recommendationIdentifier is required" |}
      else ret tt) ;;
     resources <- get_resource_list fuel (or_empty recommendationIdentifier) ;;
     let resourcesData := {| ResourcesData.totalResources := N.of_nat (List.length resources);
                             ResourcesData.lastUpdated := now;
                             ResourcesData.resources := resources |} in
     streamFunctionResponse (function_response event (stringify_resourcesData resourcesData)))
    (fun e => streamFunctionResponse (error_function_response event e)).

End Providers.

(** The state in which an invocation starts. *)
Definition start {W} (w : W) : State W := {| world := w; calls := []; sink := [] |}.

(* ===================================================================== *)
(** ** Vocabulary of the statements *)
(* ===================================================================== *)

(** The state after the sink has received [evs], in order. *)
Definition written {W} (st : State W) (evs : list SinkEvent) : State W :=
  {| world := world st; calls := calls st; sink := sink st ++ evs |}.

(** The slices that the inner loop of [streamFunctionResponse] cuts from
    [chunk], from position [i] on. *)
Fixpoint slices (fuel : nat) (chunk : jsstring) (i : N) : list jsstring :=
  match fuel with
  | O => []
  | S fuel' =>
      if i <? strlen chunk then
        slice chunk i (i + CHUNK_SIZE) :: slices fuel' chunk (i + CHUNK_SIZE)
      else []
  end.

(** The chunks in which a serialization is written. *)
Definition chunks_of (json : jsstring) : list jsstring :=
  if CHUNK_SIZE <? strlen json then slices (S (List.length json)) json 0 else [json].

(** What the sink receives when [function_response] is streamed. *)
Definition streamed (function_response : Envelope) : list SinkEvent :=
  map Write (chunks_of (JSON_stringify function_response)) ++ [End_].

(** What the sink has received at the end of an invocation that answers
    with [function_response]. *)
Definition answered (function_response : Envelope) : list SinkEvent :=
  SetContentType (lit "application/json") :: streamed function_response.

(** The sizes of the chunks written to a sink, oldest first: for each,
    its length in code units and in bytes. *)
Definition chunk_sizes (evs : list SinkEvent) : list (N * N) :=
  flat_map (fun ev => match ev with
                      | Write c => [(strlen c, byteLength c)]
                      | _ => []
                      end) evs.

(** An error whose message is 30,000 times the letter U+00E9. *)
Definition long_message_error : Error := {| message := repeat 233 (N.to_nat 30000) |}.

Definition plain_event : Event.t :=
  {| Event.actionGroup := Some (lit "X");
     Event.function := Some (lit "Y");
     Event.parameters := None |}.

(** *** What the remote service serves during one invocation *)

(** [response.recommendationSummaries || []]. *)
Definition page_items (page : ListOutput.t) : list Summary.t :=
  match ListOutput.recommendationSummaries page with
  | Some items => items
  | None => []
  end.

Definition has_items (page : ListOutput.t) : Prop :=
  ListOutput.recommendationSummaries page <> None.

Definition page_resources (page : ResourcesOutput.t) : list ResourceSummary.t :=
  match ResourcesOutput.recommendationResourceSummaries page with
  | Some summaries => summaries
  | None => []
  end.

Definition is_returned {A} (r : Reply A) : bool :=
  match r with Returns _ => true | Fails _ => false end.

(** The findings made from a page's items, given the reply to each
    item's detail fetch: one finding for each item whose fetch returned,
    in the order of the items, and none for an item whose fetch threw. *)
Fixpoint kept_findings (make_finding : Summary.t -> Detail.t -> Finding.t)
  (items : list Summary.t) (replies : list (Reply Detail.t)) : list Finding.t :=
  match items, replies with
  | item :: items', Returns detail :: replies' =>
      make_finding item detail :: kept_findings make_finding items' replies'
  | _ :: items', Fails _ :: replies' => kept_findings make_finding items' replies'
  | _, _ => []
  end.

(** [f] is an object pushed by the provider that pushes [make_finding]. *)
Definition made_by (make_finding : Summary.t -> Detail.t -> Finding.t) (f : Finding.t) : Prop :=
  exists item detail, f = make_finding item detail.

(** The envelope repeats the request's identity: [actionGroup] is the
    event's, or the empty string when the event has none, and [function]
    is the event's, absent when the event has none. *)
Definition echoes_request (event : Event.t) (env : Envelope) : Prop :=
  (forall s, Event.actionGroup event = Some s -> actionGroup env = s)
  /\ (Event.actionGroup event = None -> actionGroup env = [])
  /\ function env = Event.function event.

(** The error thrown by the resource provider's validation. *)
Definition identifier_required : Error :=
  {| message := lit "recommendationIdentifier is required" |}.

Definition named_recommendationIdentifier (param : Param.t) : Prop :=
  Param.name param = Some (lit "recommendationIdentifier").

(** All findings kept from the pages served, in the order served. *)
Definition all_kept (make_finding : Summary.t -> Detail.t -> Finding.t)
  (pages : list (ListOutput.t * list (Reply Detail.t))) : list Finding.t :=
  flat_map (fun p => kept_findings make_finding (page_items (fst p)) (snd p)) pages.

(** How an invocation's listing ends: with a page that carries no token,
    or with a list call that throws. *)
Inductive ListingEnd :=
| LastPage
| ListFails (e : Error).

Definition first_cost_input : ListInput.t :=
  {| ListInput.maxResults := 200;
     ListInput.pillar := lit "cost_optimizing";
     ListInput.status := lit "warning";
     ListInput.nextToken := None |}.

Definition first_security_input : ListInput.t :=
  {| ListInput.maxResults := 200;
     ListInput.pillar := lit "security";
     ListInput.status := lit "warning";
     ListInput.nextToken := None |}.

Definition first_resources_input (recommendationIdentifier : jsstring) : ResourcesInput.t :=
  {| ResourcesInput.maxResults := 200;
     ResourcesInput.recommendationIdentifier := recommendationIdentifier;
     ResourcesInput.nextToken := None |}.

Section Served.

Context {W : Type} (client : Client W).

(** The replies of the service to the detail fetches for [items], asked
    one after the other from state [w], and the state it is left in. *)
Fixpoint detail_replies (items : list Summary.t) (w : W) : list (Reply Detail.t) * W :=
  match items with
  | [] => ([], w)
  | item :: rest =>
      let (reply, w1) := getRecommendation client (Summary.arn item) w in
      let (replies, w2) := detail_replies rest w1 in
      (reply :: replies, w2)
  end.

(** [RecommendationsServed w input pages ending w']: from state [w], a
    client that starts with [input], fetches the detail of every item of
    a page before it asks for the next page, and repeats the request
    with the token of the page just received, is served [pages] (each
    with the replies to its items' detail fetches), one per list call;
    every page but the last carries a token; after them the listing ends
    as [ending] says and the service is in state [w']. *)
Inductive RecommendationsServed :
  W -> ListInput.t -> list (ListOutput.t * list (Reply Detail.t)) -> ListingEnd -> W -> Prop :=
| served_last w input page w1 replies w2 :
    listRecommendations client input w = (Returns page, w1) ->
    detail_replies (page_items page) w1 = (replies, w2) ->
    truthy (ListOutput.nextToken page) = false ->
    RecommendationsServed w input [(page, replies)] LastPage w2
| served_fails w input e w1 :
    listRecommendations client input w = (Fails e, w1) ->
    RecommendationsServed w input [] (ListFails e) w1
| served_next w input page w1 replies w2 pages ending w3 :
    listRecommendations client input w = (Returns page, w1) ->
    detail_replies (page_items page) w1 = (replies, w2) ->
    truthy (ListOutput.nextToken page) = true ->
    RecommendationsServed w2 (ListInput.with_nextToken input (ListOutput.nextToken page))
                          pages ending w3 ->
    RecommendationsServed w input ((page, replies) :: pages) ending w3.

(** The same for the resource listing, which has no detail fetches. *)
Inductive ResourcesServed :
  W -> ResourcesInput.t -> list ResourcesOutput.t -> ListingEnd -> W -> Prop :=
| resources_last w input page w1 :
    listRecommendationResources client input w = (Returns page, w1) ->
    truthy (ResourcesOutput.nextToken page) = false ->
    ResourcesServed w input [page] LastPage w1
| resources_fails w input e w1 :
    listRecommendationResources client input w = (Fails e, w1) ->
    ResourcesServed w input [] (ListFails e) w1
| resources_next w input page w1 pages ending w2 :
    listRecommendationResources client input w = (Returns page, w1) ->
    truthy (ResourcesOutput.nextToken page) = true ->
    ResourcesServed w1 (ResourcesInput.with_nextToken input (ResourcesOutput.nextToken page))
                    pages ending w2 ->
    ResourcesServed w input (page :: pages) ending w2.

End Served.

(** The list requests that a client following the tokens sends for
    [pages]: [input] first, then [input] with the token of each page
    received. *)
Fixpoint list_requests (input : ListInput.t) (pages : list ListOutput.t) : list ListInput.t :=
  match pages with
  | [] => []
  | page :: rest =>
      input :: list_requests (ListInput.with_nextToken input (ListOutput.nextToken page)) rest
  end.

Fixpoint resource_requests (input : ResourcesInput.t) (pages : list ResourcesOutput.t)
  : list ResourcesInput.t :=
  match pages with
  | [] => []
  | page :: rest =>
      input :: resource_requests
                 (ResourcesInput.with_nextToken input (ResourcesOutput.nextToken page)) rest
  end.

(** The request that follows [pages]. *)
Definition request_after (input : ListInput.t) (pages : list ListOutput.t) : ListInput.t :=
  fold_left (fun i page => ListInput.with_nextToken i (ListOutput.nextToken page)) pages input.

Definition resource_request_after (input : ResourcesInput.t) (pages : list ResourcesOutput.t)
  : ResourcesInput.t :=
  fold_left (fun i page => ResourcesInput.with_nextToken i (ResourcesOutput.nextToken page))
            pages input.

(** The commands sent while [pages] are served: for each page its list
    request, then one detail fetch for each of its items, by [arn]. *)
Fixpoint page_calls (input : ListInput.t) (pages : list ListOutput.t) : list Command :=
  match pages with
  | [] => []
  | page :: rest =>
      ListRecommendationsCommand input
        :: map (fun item => GetRecommendationCommand (Summary.arn item)) (page_items page)
        ++ page_calls (ListInput.with_nextToken input (ListOutput.nextToken page)) rest
  end.

(** The list call that throws, when the listing ends that way. *)
Definition failing_call (ending : ListingEnd) (cmd : Command) : list Command :=
  match ending with
  | LastPage => []
  | ListFails _ => [cmd]
  end.

Definition list_commands (cs : list Command) : list ListInput.t :=
  flat_map (fun c => match c with ListRecommendationsCommand i => [i] | _ => [] end) cs.

(** What a paginator returns at the end of the listing. *)
Definition listing_result {A} (ending : ListingEnd) (a : A) : Result A :=
  match ending with
  | LastPage => Ok a
  | ListFails e => Throw e
  end.

(** *** A remote service that plays back recorded replies *)

Module Scripted.

Record t := {
  lists : list (Reply ListOutput.t);
  details : list (Reply Detail.t);
  resources : list (Reply ResourcesOutput.t)
}.

Definition no_reply : Error := {| message := lit "no reply recorded" |}.

Definition client : Client t :=
  {| listRecommendations := fun _ w =>
       match lists w with
       | r :: rest => (r, {| lists := rest; details := details w; resources := resources w |})
       | [] => (Fails no_reply, w)
       end;
     getRecommendation := fun _ w =>
       match details w with
       | r :: rest => (r, {| lists := lists w; details := rest; resources := resources w |})
       | [] => (Fails no_reply, w)
       end;
     listRecommendationResources := fun _ w =>
       match resources w with
       | r :: rest => (r, {| lists := lists w; details := details w; resources := rest |})
       | [] => (Fails no_reply, w)
       end |}.

End Scripted.

(* ===================================================================== *)
(** ** Envelope identity *)
(* ===================================================================== *)

(** What C4 (as amended) says of one handler's run. *)
Definition echoes_or_unfinished {W} (event : Event.t) (out : Result unit * State W) : Prop :=
  fst out = OutOfFuel
  \/ (fst out = Ok tt
      /\ exists env,
           sink (snd out) = answered env
           /\ ((exists response_body, env = function_response event response_body)
               \/ (exists e, env = error_function_response event e))
           /\ echoes_request event env).

(** *** The payloads and the answer of an invocation *)

Definition cost_checks (now : jsstring) (findings : list Finding.t) : Checks.t :=
  {| Checks.totalFindings := N.of_nat (List.length findings);
     Checks.totalPotentialSavings := Some (toFixed2 (total_savings findings));
     Checks.lastUpdated := now;
     Checks.findings := findings |}.

Definition security_checks (now : jsstring) (findings : list Finding.t) : Checks.t :=
  {| Checks.totalFindings := N.of_nat (List.length findings);
     Checks.totalPotentialSavings := None;
     Checks.lastUpdated := now;
     Checks.findings := findings |}.

Definition resources_data (now : jsstring) (resources : list ResourceRecord.t)
  : ResourcesData.t :=
  {| ResourcesData.totalResources := N.of_nat (List.length resources);
     ResourcesData.lastUpdated := now;
     ResourcesData.resources := resources |}.

(** The envelope an invocation answers with: the success envelope around
    [response_body] when the listing reached its last page, the error
    envelope for [e] when a list call threw [e]. *)
Definition answer_for (ending : ListingEnd) (event : Event.t) (response_body : jsstring)
  : Envelope :=
  match ending with
  | LastPage => function_response event response_body
  | ListFails e => error_function_response event e
  end.

(** *** Order of savings *)

(** [a <= b] on numbers; nothing compares with [NaN]. *)
Definition num_le (a b : number) : Prop :=
  match a, b with
  | NaN, _ | _, NaN => False
  | NegInf, _ => True
  | _, PosInf => True
  | Fin x, Fin y => (x <= y)%Q
  | _, _ => False
  end.

(** [a === b] on numbers ([NaN] equals nothing). *)
Definition num_eqb (a b : number) : bool :=
  match a, b with
  | NegInf, NegInf | PosInf, PosInf => true
  | Fin x, Fin y => Qeq_bool x y
  | _, _ => false
  end.

(** The savings the comparator and the sum read off a finding:
    [finding.estimatedMonthlySavings || 0]. *)
Definition savings_key (finding : Finding.t) : number :=
  or_zero (Finding.estimatedMonthlySavings finding).

(** [a] does not save less than [b]. *)
Definition saves_at_least (a b : Finding.t) : Prop :=
  num_le (savings_key b) (savings_key a).

(** The findings that save exactly [v], in the order of the list. *)
Definition saving (v : number) (findings : list Finding.t) : list Finding.t :=
  filter (fun f => num_eqb (savings_key f) v) findings.

(** The number that arithmetic on [finding.estimatedMonthlySavings]
    uses when the property is read without a guard: an absent property
    is [undefined], which counts as [NaN]. *)
Definition savings_value (finding : Finding.t) : number :=
  match Finding.estimatedMonthlySavings finding with
  | Some n => n
  | None => NaN
  end.

(** The summary carries no savings figure: some link of
    [pillarSpecificAggregates.costOptimizing.estimatedMonthlySavings] is
    absent. *)
Definition savings_omitted (recommendation : Summary.t) : Prop :=
  match Summary.pillarSpecificAggregates recommendation with
  | Some p =>
      match PillarAggregates.costOptimizing p with
      | Some costAggregates => CostAggregates.estimatedMonthlySavings costAggregates = None
      | None => True
      end
  | None => True
  end.

(** The summary lacks an aggregate count: [resourcesAggregates] is
    absent, or one of its two counts is. *)
Definition counts_omitted (recommendation : Summary.t) : Prop :=
  match Summary.resourcesAggregates recommendation with
  | Some resourceAggregates =>
      ResourcesAggregates.errorCount resourceAggregates = None
      \/ ResourcesAggregates.warningCount resourceAggregates = None
  | None => True
  end.

(** Pages whose items' detail fetches all returned, as served pages. *)
Definition all_returned (pages : list (ListOutput.t * list Detail.t))
  : list (ListOutput.t * list (Reply Detail.t)) :=
  map (fun p => (fst p, map Returns (snd p))) pages.

(** One finding for each item of each page, made from the item and its
    detail, in the order served. *)
Definition findings_of_items (make_finding : Summary.t -> Detail.t -> Finding.t)
  (pages : list (ListOutput.t * list Detail.t)) : list Finding.t :=
  flat_map (fun p => map (fun x => make_finding (fst x) (snd x))
                         (combine (page_items (fst p)) (snd p))) pages.

(** *** Sample inputs *)

Definition sample_now : jsstring := lit "2025-01-01 00:00:00".

(** Stand-ins for the payload serializers, which the statements leave
    arbitrary: they print the names of the findings, or the identifiers
    of the resources, in order, and nothing else. *)
Definition sample_stringify_checks (checks : Checks.t) : jsstring :=
  json_object
    [json_member "findings"
       (91 :: json_join (map (fun f => json_string (or_empty (Finding.checkName f)))
                             (Checks.findings checks)) ++ [93])].

Definition sample_stringify_resourcesData (data : ResourcesData.t) : jsstring :=
  json_object
    [json_member "resources"
       (91 :: json_join (map (fun r => json_string (or_empty (ResourceRecord.id r)))
                             (ResourcesData.resources data)) ++ [93])].

(** A service with nothing recorded: every call throws. *)
Definition nothing_recorded : Scripted.t :=
  {| Scripted.lists := []; Scripted.details := []; Scripted.resources := [] |}.

(** [{actionGroup: "X", parameters: []}]: no [function]. *)
Definition event_without_function : Event.t :=
  {| Event.actionGroup := Some (lit "X");
     Event.function := None;
     Event.parameters := Some [] |}.

(** [{actionGroup: "X", function: "Y", parameters: [{name: "region", value: "eu-west-1"}]}]. *)
Definition event_without_identifier : Event.t :=
  {| Event.actionGroup := Some (lit "X");
     Event.function := Some (lit "Y");
     Event.parameters :=
       Some [ {| Param.name := Some (lit "region"); Param.value := Some (lit "eu-west-1") |} ] |}.

(** [{actionGroup: "X", function: "Y",
      parameters: [{name: "recommendationIdentifier", value: ""}]}]. *)
Definition event_with_empty_identifier : Event.t :=
  {| Event.actionGroup := Some (lit "X");
     Event.function := Some (lit "Y");
     Event.parameters :=
       Some [ {| Param.name := Some (lit "recommendationIdentifier");
                 Param.value := Some [] |} ] |}.

(** [{actionGroup: "X", function: "Y",
      parameters: [{name: "recommendationIdentifier", value: "arn:rec/1"}]}]. *)
Definition event_with_identifier : Event.t :=
  {| Event.actionGroup := Some (lit "X");
     Event.function := Some (lit "Y");
     Event.parameters :=
       Some [ {| Param.name := Some (lit "recommendationIdentifier");
                 Param.value := Some (lit "arn:rec/1") |} ] |}.

(** C4 as it is stated: both fields defaulted to the empty string. *)
Definition echoes_with_defaults (event : Event.t) (env : Envelope) : Prop :=
  actionGroup env = or_empty (Event.actionGroup event)
  /\ function env = Some (or_empty (Event.function event)).

Definition with_function (f : option jsstring) (env : Envelope) : Envelope :=
  {| messageVersion := messageVersion env;
     actionGroup := actionGroup env;
     function := f;
     responseState := responseState env;
     body := body env |}.

Definition throttled : Error := {| message := lit "Rate exceeded" |}.

(** A recommendation summary named [name] with the given savings and
    aggregate counts. *)
Definition sample_summary (name : string) (savings : option number)
  (counts : option ResourcesAggregates.t) : Summary.t :=
  {| Summary.arn := Some (lit "arn:rec/" ++ lit name);
     Summary.name := Some (lit name);
     Summary.id := Some (lit name);
     Summary.status := Some (lit "warning");
     Summary.pillarSpecificAggregates :=
       Some {| PillarAggregates.costOptimizing :=
                 Some {| CostAggregates.estimatedMonthlySavings := savings |} |};
     Summary.resourcesAggregates := counts |}.

Definition two_errors_one_warning : ResourcesAggregates.t :=
  {| ResourcesAggregates.errorCount := Some (Fin 2);
     ResourcesAggregates.warningCount := Some (Fin 1) |}.

(** The summaries of the stable-sort example: savings 10, 30, 30, 5. *)
Definition item_a := sample_summary "a" (Some (Fin 10)) (Some two_errors_one_warning).
Definition item_b := sample_summary "b" (Some (Fin 30)) (Some two_errors_one_warning).
Definition item_c := sample_summary "c" (Some (Fin 30)) None.
Definition item_d := sample_summary "d" (Some (Fin 5)) None.

Definition sample_detail : Detail.t :=
  {| Detail.recommendation :=
       Some {| Recommendation.description := Some (lit "Low utilization");
               Recommendation.recommendedActions := None;
               Recommendation.resources := None |} |}.

Definition sample_resource (id : string) : ResourceSummary.t :=
  {| ResourceSummary.id := Some (lit id);
     ResourceSummary.arn := Some (lit "arn:res/" ++ lit id);
     ResourceSummary.awsResourceId := Some (lit id);
     ResourceSummary.regionCode := Some (lit "eu-west-1");
     ResourceSummary.status := Some (lit "warning");
     ResourceSummary.metadata := None;
     ResourceSummary.lastUpdatedAt := None;
     ResourceSummary.exclusionStatus := Some (lit "included");
     ResourceSummary.recommendationArn := Some (lit "arn:rec/1") |}.

(** Two pages of recommendations: [a, b] with token ["t1"], then [c, d]
    without a token. *)
Definition page_ab : ListOutput.t :=
  {| ListOutput.recommendationSummaries := Some [item_a; item_b];
     ListOutput.nextToken := Some (lit "t1") |}.
Definition page_cd : ListOutput.t :=
  {| ListOutput.recommendationSummaries := Some [item_c; item_d];
     ListOutput.nextToken := None |}.

(** One page [a, b, c] without a token. *)
Definition page_abc : ListOutput.t :=
  {| ListOutput.recommendationSummaries := Some [item_a; item_b; item_c];
     ListOutput.nextToken := None |}.

(** Two pages of resources: [r1, r2] with token ["t1"], then [r3] with
    an empty token. *)
Definition resources_12 : ResourcesOutput.t :=
  {| ResourcesOutput.recommendationResourceSummaries :=
       Some [sample_resource "r1"; sample_resource "r2"];
     ResourcesOutput.nextToken := Some (lit "t1") |}.
Definition resources_3 : ResourcesOutput.t :=
  {| ResourcesOutput.recommendationResourceSummaries := Some [sample_resource "r3"];
     ResourcesOutput.nextToken := Some [] |}.

(** A service that serves both pages of both listings and every detail. *)
Definition serves_all : Scripted.t :=
  {| Scripted.lists := [Returns page_ab; Returns page_cd];
     Scripted.details := [Returns sample_detail; Returns sample_detail;
                          Returns sample_detail; Returns sample_detail];
     Scripted.resources := [Returns resources_12; Returns resources_3] |}.

(** A service whose second list call throws, for both listings. *)
Definition second_list_throttled : Scripted.t :=
  {| Scripted.lists := [Returns page_ab; Fails throttled];
     Scripted.details := [Returns sample_detail; Returns sample_detail];
     Scripted.resources := [Returns resources_12; Fails throttled] |}.

(** A service that serves the page [a, b, c] and throws on the detail
    fetch for [b]. *)
Definition detail_of_b_throttled : Scripted.t :=
  {| Scripted.lists := [Returns page_abc];
     Scripted.details := [Returns sample_detail; Fails throttled; Returns sample_detail];
     Scripted.resources := [] |}.

(** An error whose message is 25,438 letters [a] followed by U+1F600,
    which JavaScript holds as the surrogate pair D83D DE00. *)
Definition emoji_message_error : Error :=
  {| message := repeat 97 (N.to_nat 25438) ++ [0xD83D; 0xDE00] |}.

(** An error whose message is 59,830 letters [a]: its error envelope for
    [plain_event] serializes to 60,000 ASCII characters. *)
Definition sixty_thousand_error : Error := {| message := repeat 97 (N.to_nat 59830) |}.

(** The states in which the sample services are left. *)
Definition lists_consumed (w : Scripted.t) : Scripted.t :=
  {| Scripted.lists := []; Scripted.details := []; Scripted.resources := Scripted.resources w |}.

Definition resources_consumed (w : Scripted.t) : Scripted.t :=
  {| Scripted.lists := Scripted.lists w; Scripted.details := Scripted.details w;
     Scripted.resources := [] |}.

(** A summary that carries neither savings nor counts. *)
Definition bare_summary : Summary.t :=
  {| Summary.arn := Some (lit "arn:rec/bare");
     Summary.name := Some (lit "bare");
     Summary.id := Some (lit "bare");
     Summary.status := Some (lit "warning");
     Summary.pillarSpecificAggregates := None;
     Summary.resourcesAggregates := None |}.

Definition lists_consumed_only (w : Scripted.t) : Scripted.t :=
  {| Scripted.lists := []; Scripted.details := Scripted.details w;
     Scripted.resources := Scripted.resources w |}.

(** *** Vocabulary of the further statements *)

(** A command the cost or the security provider may send: a list request
    for at most 200 recommendations of [pillar] with status ["warning"],
    or a detail fetch. *)
Definition recommendations_command (pillar : jsstring) (c : Command) : Prop :=
  match c with
  | ListRecommendationsCommand input =>
      ListInput.maxResults input = 200
      /\ ListInput.pillar input = pillar
      /\ ListInput.status input = lit "warning"
  | GetRecommendationCommand _ => True
  | ListRecommendationResourcesCommand _ => False
  end.

(** A command the resource provider may send: a list request for at most
    200 resources of the recommendation [id]. *)
Definition resources_command (id : jsstring) (c : Command) : Prop :=
  match c with
  | ListRecommendationResourcesCommand input =>
      ResourcesInput.maxResults input = 200
      /\ ResourcesInput.recommendationIdentifier input = id
  | _ => False
  end.

(** The commands start with [c], if any was sent. *)
Definition starts_with (c : Command) (cs : list Command) : Prop :=
  cs = [] \/ exists rest, cs = c :: rest.

(** A service whose recommendation listing never ends: every list call
    returns a page that has its item list and carries a token. *)
Definition recommendations_never_end {W} (client : Client W) : Prop :=
  forall input w, exists page w',
    listRecommendations client input w = (Returns page, w')
    /\ has_items page
    /\ truthy (ListOutput.nextToken page) = true.

(** A service whose resource listing never ends. *)
Definition resources_never_end {W} (client : Client W) : Prop :=
  forall input w, exists page w',
    listRecommendationResources client input w = (Returns page, w')
    /\ truthy (ResourcesOutput.nextToken page) = true.

(** A service without state that answers every list call with the same
    page and the same token, and every detail fetch with the same
    detail. *)
Definition endless_client : Client unit :=
  {| listRecommendations := fun _ w => (Returns page_ab, w);
     getRecommendation := fun _ w => (Returns sample_detail, w);
     listRecommendationResources := fun _ w => (Returns resources_12, w) |}.

(** What iterating [response.recommendationSummaries] throws when the
    response has no such member. *)
Definition summaries_not_iterable : Error :=
  {| message := lit "response.recommendationSummaries is not iterable" |}.

Section ServedThenBare.

Context {W : Type} (client : Client W).

(** [ServedThenBare w input pages bare w']: the service serves [pages]
    as in [RecommendationsServed], each with a token, and answers the
    next list call with the page [bare], which has no
    [recommendationSummaries]. *)
Inductive ServedThenBare :
  W -> ListInput.t -> list (ListOutput.t * list (Reply Detail.t)) -> ListOutput.t -> W -> Prop :=
| bare_now w input bare w1 :
    listRecommendations client input w = (Returns bare, w1) ->
    ListOutput.recommendationSummaries bare = None ->
    ServedThenBare w input [] bare w1
| bare_later w input page w1 replies w2 pages bare w3 :
    listRecommendations client input w = (Returns page, w1) ->
    detail_replies client (page_items page) w1 = (replies, w2) ->
    truthy (ListOutput.nextToken page) = true ->
    ServedThenBare w2 (ListInput.with_nextToken input (ListOutput.nextToken page))
                   pages bare w3 ->
    ServedThenBare w input ((page, replies) :: pages) bare w3.

End ServedThenBare.

(** A page without [recommendationSummaries] and without a token. *)
Definition bare_page : ListOutput.t :=
  {| ListOutput.recommendationSummaries := None; ListOutput.nextToken := None |}.

(** A service that serves the page [a, b] with its details and then a
    page without [recommendationSummaries]. *)
Definition bare_second_page : Scripted.t :=
  {| Scripted.lists := [Returns page_ab; Returns bare_page];
     Scripted.details := [Returns sample_detail; Returns sample_detail];
     Scripted.resources := [] |}.

(** *** The ways an invocation can end *)

Section Outcomes.

Context {W : Type} (client : Client W) (now : jsstring).
Context (stringify_checks : Checks.t -> jsstring).
Context (stringify_resourcesData : ResourcesData.t -> jsstring).
Context (event : Event.t) (w : W).

(** The resource handler ended in state [st']: after the validation
    error with nothing sent; or after a listing served from [w], with
    the answer that goes with the way the listing ended. *)
Definition resources_outcome (st' : State W) : Prop :=
  (truthy (find_recommendationIdentifier event) = false
   /\ calls st' = []
   /\ sink st' = answered (error_function_response event identifier_required))
  \/ (exists id pages ending,
        find_recommendationIdentifier event = Some id
        /\ id <> []
        /\ ResourcesServed client w (first_resources_input id) pages ending (world st')
        /\ sink st'
           = answered
               (answer_for ending event
                  (stringify_resourcesData
                     (resources_data now
                        (flat_map (fun page => map resource_record (page_resources page))
                                  pages))))).

(** The security handler ended in state [st']. *)
Definition security_outcome (st' : State W) : Prop :=
  exists pages ending,
    RecommendationsServed client w first_security_input pages ending (world st')
    /\ sink st'
       = answered
           (answer_for ending event
              (stringify_checks (security_checks now (all_kept security_finding pages)))).

(** The cost handler ended in state [st']: after a listing served from
    [w], or after a response without [recommendationSummaries]. *)
Definition cost_outcome (st' : State W) : Prop :=
  exists pages,
    Forall has_items (map fst pages)
    /\ ((exists ending,
           RecommendationsServed client w first_cost_input pages ending (world st')
           /\ sink st'
              = answered
                  (answer_for ending event
                     (stringify_checks
                        (cost_checks now
                           (Array_sort by_savings (all_kept cost_finding pages))))))
        \/ (exists bare,
              ServedThenBare client w first_cost_input pages bare (world st')
              /\ sink st'
                 = answered (error_function_response event summaries_not_iterable))).

End Outcomes.

(** [{actionGroup: "X", function: "Y", parameters: [
      {name: "region", value: "eu-west-1"},
      {name: "recommendationIdentifier", value: "arn:rec/1"},
      {name: "recommendationIdentifier", value: "arn:rec/2"}]}]. *)
Definition event_with_two_identifiers : Event.t :=
  {| Event.actionGroup := Some (lit "X");
     Event.function := Some (lit "Y");
     Event.parameters :=
       Some [ {| Param.name := Some (lit "region"); Param.value := Some (lit "eu-west-1") |};
              {| Param.name := Some (lit "recommendationIdentifier");
                 Param.value := Some (lit "arn:rec/1") |};
              {| Param.name := Some (lit "recommendationIdentifier");
                 Param.value := Some (lit "arn:rec/2") |} ] |}.

(** All the strings of an envelope are ASCII. *)
Definition ascii_envelope (r : Envelope) : bool :=
  is_ascii (messageVersion r)
  && is_ascii (actionGroup r)
  && match function r with Some f => is_ascii f | None => true end
  && match responseState r with Some s => is_ascii s | None => true end
  && is_ascii (body r).

(** *** Vocabulary of the texts and of the items kept *)

(** The text [s] with every apostrophe read as a double quote, so that a
    JSON text can be written down legibly: [quoted "{'error':'x'}"] is
    the text [{"error":"x"}]. *)
Definition quoted (s : string) : jsstring :=
  map (fun c => if c =? 39 then 34 else c) (lit s).

(** A text that JSON.stringify copies as it is: no control character, no
    double quote, no backslash and no surrogate. *)
Definition plain_text (s : jsstring) : bool :=
  forallb (fun c => (32 <=? c) && negb (c =? 34) && negb (c =? 92)
                    && negb (is_high_surrogate c) && negb (is_low_surrogate c)) s.

(** The items of the pages served whose detail fetch returned, in the
    order served. *)
Definition items_kept (pages : list (ListOutput.t * list (Reply Detail.t))) : list Summary.t :=
  flat_map (fun p => map fst (filter (fun x => is_returned (snd x))
                                     (combine (page_items (fst p)) (snd p))))
           pages.

(** Every detail fetch of the pages served returned. *)
Definition every_fetch_returned (pages : list (ListOutput.t * list (Reply Detail.t))) : Prop :=
  Forall (fun p => forallb is_returned (snd p) = true) pages.

(* ===================================================================== *)
(** ** The chunked streamer *)
(* ===================================================================== *)

Lemma CHUNK_SIZE_pos : 0 < CHUNK_SIZE.
Proof. reflexivity. Qed.

Lemma strlen_le_byteLength (s : jsstring) : strlen s <= byteLength s.
Proof.
  unfold strlen.
  assert (H : forall n (t : jsstring), (List.length t <= n)%nat -> N.of_nat (List.length t) <= byteLength t).
  { induction n as [|n IH]; intros t Hn.
    - destruct t; simpl in *; lia.
    - destruct t as [|c r]; [simpl; lia|].
      simpl in Hn.
      assert (Hr : N.of_nat (List.length r) <= byteLength r) by (apply IH; lia).
      cbn [byteLength List.length].
      destruct (c <? 128); [lia|].
      destruct (c <? 2048); [lia|].
      destruct (is_high_surrogate c); [|lia].
      destruct r as [|d r']; [simpl; lia|].
      destruct (is_low_surrogate d); [|lia].
      assert (N.of_nat (List.length r') <= byteLength r') by (apply IH; simpl in *; lia).
      cbn [List.length]. lia. }
  apply (H (List.length s)). lia.
Qed.

Lemma byteLength_ascii (s : jsstring) : is_ascii s = true -> byteLength s = strlen s.
Proof.
  unfold strlen. induction s as [|c r IH]; intros H; [reflexivity|].
  cbn [is_ascii forallb] in H. apply andb_true_iff in H as [Hc Hr].
  cbn [byteLength List.length]. change (c <? 128) with (c <? 0x80). rewrite Hc.
  rewrite IH by exact Hr. lia.
Qed.

Lemma is_ascii_app (a b : jsstring) : is_ascii (a ++ b) = is_ascii a && is_ascii b.
Proof. unfold is_ascii. apply forallb_app. Qed.

Lemma is_ascii_firstn n (s : jsstring) : is_ascii s = true -> is_ascii (firstn n s) = true.
Proof.
  intros H. rewrite <- (firstn_skipn n s), is_ascii_app in H.
  apply andb_true_iff in H. tauto.
Qed.

Lemma is_ascii_skipn n (s : jsstring) : is_ascii s = true -> is_ascii (skipn n s) = true.
Proof.
  intros H. rewrite <- (firstn_skipn n s), is_ascii_app in H.
  apply andb_true_iff in H. tauto.
Qed.

Lemma strlen_slice (s : jsstring) (i : N) : strlen (slice s i (i + CHUNK_SIZE)) <= CHUNK_SIZE.
Proof.
  unfold slice, strlen. replace (i + CHUNK_SIZE - i) with CHUNK_SIZE by lia.
  rewrite length_firstn. lia.
Qed.


Lemma write_slices_spec {W} (fuel : nat) (chunk : jsstring) :
  forall (i : N) (st : State W),
    strlen chunk <= i + N.of_nat fuel * CHUNK_SIZE ->
    write_slices (S fuel) chunk i st
    = (Ok tt, written st (map Write (slices (S fuel) chunk i))).
Proof.
  pose proof CHUNK_SIZE_pos as Hpos.
  assert (Hnil : forall st : State W, (Ok tt, st) = (Ok tt, written st (map Write []))).
  { intros [w c s]. unfold written; cbn. now rewrite app_nil_r. }
  induction fuel as [|fuel IH]; intros i st Hfuel.
  - cbn [write_slices slices].
    destruct (N.ltb_spec i (strlen chunk)) as [Hlt|Hge]; [cbn in Hfuel; lia|].
    apply Hnil.
  - change (write_slices (S (S fuel)) chunk i st) with
      ((if i <? strlen chunk then
          bind (emit (Write (slice chunk i (i + CHUNK_SIZE))))
               (fun _ => write_slices (S fuel) chunk (i + CHUNK_SIZE))
        else ret tt) st).
    change (slices (S (S fuel)) chunk i) with
      (if i <? strlen chunk then
         slice chunk i (i + CHUNK_SIZE) :: slices (S fuel) chunk (i + CHUNK_SIZE)
       else []).
    destruct (N.ltb_spec i (strlen chunk)) as [Hlt|Hge]; [|apply Hnil].
    unfold bind, emit. fold (written st [Write (slice chunk i (i + CHUNK_SIZE))]).
    rewrite IH by lia. unfold written; cbn. now rewrite <- app_assoc.
Qed.

Lemma slices_spec (fuel : nat) (chunk : jsstring) :
  forall i : N,
    strlen chunk <= i + N.of_nat fuel * CHUNK_SIZE ->
    concat (slices (S fuel) chunk i) = skipn (N.to_nat i) chunk
    /\ Forall (fun c => strlen c <= CHUNK_SIZE) (slices (S fuel) chunk i)
    /\ (is_ascii chunk = true ->
        Forall (fun c => is_ascii c = true) (slices (S fuel) chunk i)).
Proof.
  pose proof CHUNK_SIZE_pos as Hpos.
  assert (Hend : forall i, strlen chunk <= i -> [] = skipn (N.to_nat i) chunk).
  { intros i Hge. symmetry. apply skipn_all2. unfold strlen in Hge. lia. }
  induction fuel as [|fuel IH]; intros i Hfuel.
  - cbn [slices].
    destruct (N.ltb_spec i (strlen chunk)) as [Hlt|Hge]; [cbn in Hfuel; lia|].
    cbn [concat]. auto.
  - change (slices (S (S fuel)) chunk i) with
      (if i <? strlen chunk then
         slice chunk i (i + CHUNK_SIZE) :: slices (S fuel) chunk (i + CHUNK_SIZE)
       else []).
    destruct (N.ltb_spec i (strlen chunk)) as [Hlt|Hge]; [|cbn [concat]; auto].
    destruct (IH (i + CHUNK_SIZE)) as (Hcat & Hlen & Hasc); [lia|].
    repeat split.
    + cbn [concat]. rewrite Hcat. unfold slice.
      replace (i + CHUNK_SIZE - i) with CHUNK_SIZE by lia.
      replace (N.to_nat (i + CHUNK_SIZE)) with (N.to_nat CHUNK_SIZE + N.to_nat i)%nat by lia.
      rewrite <- skipn_skipn. apply firstn_skipn.
    + constructor; [apply strlen_slice | exact Hlen].
    + intros Ha. constructor; [|auto].
      unfold slice. now apply is_ascii_firstn, is_ascii_skipn.
Qed.

(** Streaming never throws and does not depend on the state it starts
    in: it appends [streamed function_response] to the sink. *)
Lemma streamFunctionResponse_streamed {W} (function_response : Envelope) (st : State W) :
  streamFunctionResponse function_response st
  = (Ok tt, written st (streamed function_response)).
Proof.
  pose proof CHUNK_SIZE_pos as Hpos.
  unfold streamFunctionResponse, streamed, chunks_of.
  set (json := JSON_stringify function_response). clearbody json.
  destruct (CHUNK_SIZE <? strlen json).
  - unfold bind. rewrite write_slices_spec by (unfold strlen; nia).
    unfold emit, written; cbn. now rewrite <- app_assoc.
  - unfold bind, emit, written; cbn. now rewrite <- app_assoc.
Qed.

(** X13, the round trip of the streamer: [streamFunctionResponse] always
    returns; what it writes is a non-empty sequence of chunks followed by
    exactly one end signal; the chunks, concatenated as strings in
    emission order, are the JSON serialization of the response object; no
    chunk is longer than [CHUNK_SIZE] = 25,600 UTF-16 code units, the
    unit in which the code measures and cuts (that is 25,600 bytes when
    the serialization is ASCII, and only then); and a serialization of at
    most [CHUNK_SIZE] code units, hence any of at most 25,600 bytes, is
    written as one chunk. *)
Theorem streamFunctionResponse_chunks {W} (function_response : Envelope) (st : State W) :
  exists chunks,
    streamFunctionResponse function_response st
      = (Ok tt, written st (map Write chunks ++ [End_]))
    /\ chunks <> []
    /\ concat chunks = JSON_stringify function_response
    /\ Forall (fun c => strlen c <= CHUNK_SIZE) chunks
    /\ (is_ascii (JSON_stringify function_response) = true ->
        Forall (fun c => byteLength c <= CHUNK_SIZE) chunks)
    /\ (strlen (JSON_stringify function_response) <= CHUNK_SIZE ->
        chunks = [JSON_stringify function_response])
    /\ (byteLength (JSON_stringify function_response) <= CHUNK_SIZE ->
        chunks = [JSON_stringify function_response]).
Proof.
  exists (chunks_of (JSON_stringify function_response)).
  split; [apply streamFunctionResponse_streamed|].
  unfold chunks_of.
  set (json := JSON_stringify function_response). clearbody json.
  pose proof CHUNK_SIZE_pos as Hpos.
  pose proof (strlen_le_byteLength json) as Hbytes.
  destruct (N.ltb_spec CHUNK_SIZE (strlen json)) as [Hbig|Hsmall].
  - destruct (slices_spec (List.length json) json 0) as (Hcat & Hlen & Hasc).
    { unfold strlen. nia. }
    cbn [N.to_nat skipn] in Hcat.
    repeat split; auto; try lia.
    + intros Hnil. rewrite Hnil in Hcat. cbn in Hcat. rewrite <- Hcat in Hbig. cbn in Hbig. lia.
    + intros Ha. specialize (Hasc Ha).
      rewrite Forall_forall in *. intros c Hc.
      rewrite byteLength_ascii by auto. auto.
  - repeat split; auto.
    + discriminate.
    + cbn [concat]. apply app_nil_r.
    + intros Ha. constructor; [|constructor]. rewrite byteLength_ascii by exact Ha. exact Hsmall.
Qed.

(** C1, the code at the failing input: the error envelope for
    [{actionGroup: "X", function: "Y"}] and a message of 30,000 letters
    U+00E9 is written as two chunks, and the first, of 25,600 code units,
    is 51,039 bytes of UTF-8: more than the 25,600 bytes that the chunk
    size stands for.  The code measures ([chunk.length]) and cuts
    ([chunk.slice]) in UTF-16 code units, while it declares [CHUNK_SIZE]
    in kilobytes and takes the size of the text with
    [Buffer.byteLength]. *)
Lemma streamFunctionResponse_chunk_exceeds_bytes :
  chunk_sizes (sink (snd (streamFunctionResponse
                            (error_function_response plain_event long_message_error)
                            (start tt))))
  = [(25600, 51039); (4570, 9131)]
  /\ CHUNK_SIZE < 51039.
Proof.
  split; vm_compute; reflexivity.
Qed.

(** Slicing is by code unit, so a surrogate pair can be cut in two: here
    the first chunk ends with the high surrogate and the second starts
    with the low one.  Written as UTF-8, each half becomes a 3-byte
    replacement character, so the sink receives two bytes more than the
    serialization has. *)
Example surrogate_pair_cut :
  chunk_sizes (sink (snd (streamFunctionResponse
                            (error_function_response plain_event emoji_message_error)
                            (start tt))))
  = [(25600, 25602); (10, 12)]
  /\ byteLength (JSON_stringify (error_function_response plain_event emoji_message_error))
     = 25612.
Proof. split; vm_compute; reflexivity. Qed.

(** A serialization of 60,000 bytes is written as three chunks of
    25,600, 25,600 and 8,800 bytes. *)
Example sixty_thousand_bytes :
  chunk_sizes (sink (snd (streamFunctionResponse
                            (error_function_response plain_event sixty_thousand_error)
                            (start tt))))
  = [(25600, 25600); (25600, 25600); (8800, 8800)].
Proof. vm_compute. reflexivity. Qed.

(* ===================================================================== *)
(** ** Enrichment and pagination *)
(* ===================================================================== *)

Lemma bind_ok {W A B} (m : M W A) (k : A -> M W B) st a st' :
  m st = (Ok a, st') -> bind m k st = k a st'.
Proof. unfold bind. now intros ->. Qed.

Lemma bind_throw {W A B} (m : M W A) (k : A -> M W B) st e st' :
  m st = (Throw e, st') -> bind m k st = (Throw e, st').
Proof. unfold bind. now intros ->. Qed.

Lemma send_returns {W A} (cmd : Command) (call : W -> Reply A * W) st a w' :
  call (world st) = (Returns a, w') ->
  send cmd call st = (Ok a, {| world := w'; calls := calls st ++ [cmd]; sink := sink st |}).
Proof. unfold send. now intros ->. Qed.

Lemma send_fails {W A} (cmd : Command) (call : W -> Reply A * W) st e w' :
  call (world st) = (Fails e, w') ->
  send cmd call st = (Throw e, {| world := w'; calls := calls st ++ [cmd]; sink := sink st |}).
Proof. unfold send. now intros ->. Qed.

(** One awaited [client.send] whose reply is known. *)
Ltac sent H :=
  first [ erewrite bind_ok by (apply send_returns; exact H)
        | erewrite bind_throw by (apply send_fails; exact H) ].

Lemma kept_findings_length make_finding items replies :
  List.length items = List.length replies ->
  List.length (kept_findings make_finding items replies)
  = List.length (filter is_returned replies).
Proof.
  revert replies. induction items as [|item items IH]; intros [|[d|e] replies] H;
    cbn in *; try discriminate; auto.
Qed.

Lemma kept_findings_all_returned make_finding items details :
  List.length items = List.length details ->
  kept_findings make_finding items (map Returns details)
  = map (fun p => make_finding (fst p) (snd p)) (combine items details).
Proof.
  revert details. induction items as [|item items IH]; intros [|d details] H;
    cbn in *; try discriminate; auto.
  f_equal. apply IH. congruence.
Qed.

Section PagingFacts.

Context {W : Type} (client : Client W).

Lemma detail_replies_length items : forall w,
  List.length (fst (detail_replies client items w)) = List.length items.
Proof.
  induction items as [|item items IH]; intros w; cbn; [reflexivity|].
  destruct (getRecommendation client (Summary.arn item) w) as [reply w1].
  specialize (IH w1). destruct (detail_replies client items w1). cbn in *. now rewrite IH.
Qed.

(** The enrichment loop never throws: it returns the findings it was
    given followed by one finding for each item whose detail fetch
    returned, having sent one detail fetch for each item. *)
Lemma enrich_spec make_finding items : forall findings (st : State W) replies w',
  detail_replies client items (world st) = (replies, w') ->
  enrich client make_finding items findings st
  = (Ok (findings ++ kept_findings make_finding items replies),
     {| world := w';
        calls := calls st
                 ++ map (fun item => GetRecommendationCommand (Summary.arn item)) items;
        sink := sink st |}).
Proof.
  induction items as [|item items IH]; intros findings st replies w' Hd; cbn in Hd.
  - injection Hd as <- <-. cbn. unfold ret. rewrite !app_nil_r. now destruct st.
  - destruct (getRecommendation client (Summary.arn item) (world st)) as [reply w1] eqn:Hget.
    destruct (detail_replies client items w1) as [replies' w2] eqn:Hrest.
    injection Hd as <- <-.
    cbn [enrich]. unfold try_catch at 1.
    destruct reply as [detail|e].
    + erewrite bind_ok by (erewrite bind_ok by (apply send_returns; exact Hget); reflexivity).
      erewrite IH by exact Hrest. cbn. now rewrite <- !app_assoc.
    + erewrite bind_ok by (erewrite bind_throw by (apply send_fails; exact Hget); reflexivity).
      erewrite IH by exact Hrest. cbn. now rewrite <- !app_assoc.
Qed.

End PagingFacts.

Section PagingLoops.

Context {W : Type} (client : Client W).

Lemma cost_pages_spec w input pages ending w' :
  RecommendationsServed client w input pages ending w' ->
  Forall has_items (map fst pages) ->
  forall fuel input0 nextToken findings (st : State W),
    input = (if truthy nextToken then ListInput.with_nextToken input0 nextToken else input0) ->
    world st = w ->
    (List.length pages < fuel)%nat ->
    cost_pages client fuel input0 nextToken findings st
    = (listing_result ending
         (findings ++ flat_map (fun p => kept_findings cost_finding (page_items (fst p)) (snd p))
                               pages),
       {| world := w';
          calls := calls st
                   ++ page_calls input (map fst pages)
                   ++ failing_call ending
                        (ListRecommendationsCommand (request_after input (map fst pages)));
          sink := sink st |}).
Proof.
  induction 1 as [w input page w1 replies w2 Hlist Hdet Htok
                 |w input e w1 Hlist
                 |w input page w1 replies w2 pages ending w3 Hlist Hdet Htok Hrest IH];
    intros Hitems fuel input0 nextToken findings st Hinput Hw Hfuel;
    (destruct fuel as [|fuel]; [cbn in Hfuel; lia|]);
    cbn [cost_pages]; rewrite <- Hinput; subst w.
  - sent Hlist.
    inversion Hitems as [|? ? Hpage _]; subst. cbn [fst] in Hpage.
    unfold has_items in Hpage. unfold page_items in Hdet.
    destruct (ListOutput.recommendationSummaries page) as [items|] eqn:Hsum; [|congruence].
    unfold enrich_cost. erewrite bind_ok by (apply enrich_spec; exact Hdet).
    rewrite Htok. unfold ret. cbn. unfold page_items. rewrite ?Hsum.
    now rewrite ?app_nil_r, <- ?app_assoc.
  - sent Hlist.
    cbn. now rewrite ?app_nil_r.
  - sent Hlist.
    inversion Hitems as [|? ? Hpage Hitems']; subst. cbn [fst] in Hpage.
    unfold has_items in Hpage. unfold page_items in Hdet.
    destruct (ListOutput.recommendationSummaries page) as [items|] eqn:Hsum; [|congruence].
    unfold enrich_cost. erewrite bind_ok by (apply enrich_spec; exact Hdet).
    rewrite Htok.
    erewrite IH; [| exact Hitems' | now rewrite Htok | reflexivity | cbn in Hfuel; cbn; lia].
    cbn. unfold page_items. rewrite ?Hsum. cbn.
    now rewrite <- ?app_assoc.
Qed.

Lemma security_input_eq nextToken :
  {| ListInput.maxResults := 200;
     ListInput.pillar := lit "security";
     ListInput.status := lit "warning";
     ListInput.nextToken := if truthy nextToken then nextToken else None |}
  = if truthy nextToken then ListInput.with_nextToken first_security_input nextToken
    else first_security_input.
Proof. now destruct (truthy nextToken). Qed.

Lemma security_pages_spec w input pages ending w' :
  RecommendationsServed client w input pages ending w' ->
  forall fuel nextToken findings (st : State W),
    input = (if truthy nextToken then ListInput.with_nextToken first_security_input nextToken
             else first_security_input) ->
    world st = w ->
    (List.length pages < fuel)%nat ->
    security_pages client fuel nextToken findings st
    = (listing_result ending
         (findings ++ flat_map (fun p => kept_findings security_finding
                                           (page_items (fst p)) (snd p)) pages),
       {| world := w';
          calls := calls st
                   ++ page_calls input (map fst pages)
                   ++ failing_call ending
                        (ListRecommendationsCommand (request_after input (map fst pages)));
          sink := sink st |}).
Proof.
  induction 1 as [w input page w1 replies w2 Hlist Hdet Htok
                 |w input e w1 Hlist
                 |w input page w1 replies w2 pages ending w3 Hlist Hdet Htok Hrest IH];
    intros fuel nextToken findings st Hinput Hw Hfuel;
    (destruct fuel as [|fuel]; [cbn in Hfuel; lia|]);
    cbn [security_pages]; rewrite security_input_eq, <- Hinput; subst w.
  - sent Hlist.
    fold (page_items page).
    unfold enrich_security. erewrite bind_ok by (apply enrich_spec; exact Hdet).
    rewrite Htok. unfold ret. cbn.
    now rewrite ?app_nil_r, <- ?app_assoc.
  - sent Hlist.
    cbn. now rewrite ?app_nil_r.
  - sent Hlist.
    fold (page_items page).
    unfold enrich_security. erewrite bind_ok by (apply enrich_spec; exact Hdet).
    rewrite Htok.
    erewrite IH; [| | reflexivity | cbn in Hfuel; cbn; lia].
    + cbn. now rewrite <- ?app_assoc.
    + rewrite Htok. rewrite Hinput. now destruct (truthy nextToken).
Qed.

Lemma resource_pages_spec w input pages ending w' :
  ResourcesServed client w input pages ending w' ->
  forall fuel input0 nextToken resources (st : State W),
    input = (if truthy nextToken then ResourcesInput.with_nextToken input0 nextToken
             else input0) ->
    world st = w ->
    (List.length pages < fuel)%nat ->
    resource_pages client fuel input0 nextToken resources st
    = (listing_result ending
         (resources ++ flat_map (fun page => map resource_record (page_resources page)) pages),
       {| world := w';
          calls := calls st
                   ++ map ListRecommendationResourcesCommand (resource_requests input pages)
                   ++ failing_call ending
                        (ListRecommendationResourcesCommand
                           (resource_request_after input pages));
          sink := sink st |}).
Proof.
  induction 1 as [w input page w1 Hlist Htok
                 |w input e w1 Hlist
                 |w input page w1 pages ending w2 Hlist Htok Hrest IH];
    intros fuel input0 nextToken resources st Hinput Hw Hfuel;
    (destruct fuel as [|fuel]; [cbn in Hfuel; lia|]);
    cbn [resource_pages]; rewrite <- Hinput; subst w.
  - sent Hlist.
    rewrite Htok. unfold ret, page_resources. cbn.
    destruct (ResourcesOutput.recommendationResourceSummaries page);
      now rewrite ?app_nil_r.
  - sent Hlist.
    cbn. now rewrite ?app_nil_r.
  - sent Hlist.
    rewrite Htok.
    erewrite IH; [| now rewrite Htok | reflexivity | cbn in Hfuel; cbn; lia].
    cbn. unfold page_resources at 2.
    destruct (ResourcesOutput.recommendationResourceSummaries page);
      now rewrite <- ?app_assoc, ?app_nil_r.
Qed.

End PagingLoops.

(* ===================================================================== *)
(** ** What holds of every invocation, whatever the service does *)
(* ===================================================================== *)

Section Invariants.

Context {W : Type} (client : Client W).

Lemma kept_findings_made_by make_finding items replies :
  Forall (made_by make_finding) (kept_findings make_finding items replies).
Proof.
  revert replies. induction items as [|item items IH]; intros [|[d|e] replies]; cbn; auto.
  constructor; [now exists item, d | apply IH].
Qed.

Lemma enrich_any make_finding items findings (st : State W) :
  exists more st',
    enrich client make_finding items findings st = (Ok (findings ++ more), st')
    /\ sink st' = sink st
    /\ Forall (made_by make_finding) more.
Proof.
  destruct (detail_replies client items (world st)) as [replies w'] eqn:Hd.
  eexists _, _. split; [apply enrich_spec; exact Hd|].
  split; [reflexivity | apply kept_findings_made_by].
Qed.

Lemma send_any {A} (cmd : Command) (call : W -> Reply A * W) (st : State W) :
  exists r st', send cmd call st = (r, st') /\ sink st' = sink st /\ r <> OutOfFuel.
Proof.
  unfold send. destruct (call (world st)) as [[a|e] w'];
    eexists _, _; (split; [reflexivity|]); split; cbn; auto; discriminate.
Qed.

Lemma cost_pages_any fuel : forall input nextToken findings (st : State W),
  exists r st',
    cost_pages client fuel input nextToken findings st = (r, st')
    /\ sink st' = sink st
    /\ forall fs, r = Ok fs ->
         exists more, fs = findings ++ more /\ Forall (made_by cost_finding) more.
Proof.
  induction fuel as [|fuel IH]; intros input nextToken findings st.
  - eexists _, _. cbn. unfold out_of_fuel. split; [reflexivity|]. split; [reflexivity|].
    discriminate.
  - cbn [cost_pages].
    set (input' := if truthy nextToken then ListInput.with_nextToken input nextToken else input).
    destruct (send_any (ListRecommendationsCommand input') (listRecommendations client input') st)
      as (r & st1 & Hsend & Hsink1 & Hfuel).
    destruct r as [response|e|]; [| |congruence].
    + erewrite bind_ok by exact Hsend.
      destruct (ListOutput.recommendationSummaries response) as [items|].
      * destruct (enrich_any cost_finding items findings st1) as (more & st2 & Hen & Hsink2 & Hmade).
        unfold enrich_cost. erewrite bind_ok by exact Hen.
        destruct (truthy (ListOutput.nextToken response)).
        -- destruct (IH input' (ListOutput.nextToken response) (findings ++ more) st2)
             as (r & st3 & Hrun & Hsink3 & Hres).
           exists r, st3. split; [exact Hrun|]. split; [congruence|].
           intros fs Hfs. destruct (Hres fs Hfs) as (more' & -> & Hmade').
           exists (more ++ more'). split; [now rewrite app_assoc|]. now apply Forall_app.
        -- eexists _, _. split; [reflexivity|]. split; [congruence|].
           intros fs [= <-]. now exists more.
      * eexists _, _. split; [reflexivity|]. split; [exact Hsink1|]. discriminate.
    + erewrite bind_throw by exact Hsend.
      eexists _, _. split; [reflexivity|]. split; [exact Hsink1|]. discriminate.
Qed.

Lemma security_pages_any fuel : forall nextToken findings (st : State W),
  exists r st',
    security_pages client fuel nextToken findings st = (r, st')
    /\ sink st' = sink st.
Proof.
  induction fuel as [|fuel IH]; intros nextToken findings st.
  - eexists _, _. cbn. unfold out_of_fuel. split; reflexivity.
  - cbn [security_pages].
    match goal with |- context [bind (send ?c ?f)] =>
      destruct (send_any c f st) as (r & st1 & Hsend & Hsink1 & Hfuel) end.
    destruct r as [response|e|]; [| |congruence].
    + erewrite bind_ok by exact Hsend.
      match goal with |- context [enrich_security client ?items findings] =>
        destruct (enrich_any security_finding items findings st1)
          as (more & st2 & Hen & Hsink2 & Hmade) end.
      unfold enrich_security. erewrite bind_ok by exact Hen.
      destruct (truthy (ListOutput.nextToken response)).
      * destruct (IH (ListOutput.nextToken response) (findings ++ more) st2)
          as (r & st3 & Hrun & Hsink3).
        exists r, st3. split; [exact Hrun | congruence].
      * eexists _, _. split; [reflexivity | congruence].
    + erewrite bind_throw by exact Hsend.
      eexists _, _. split; [reflexivity | exact Hsink1].
Qed.

Lemma resource_pages_any fuel : forall input nextToken resources (st : State W),
  exists r st',
    resource_pages client fuel input nextToken resources st = (r, st')
    /\ sink st' = sink st.
Proof.
  induction fuel as [|fuel IH]; intros input nextToken resources st.
  - eexists _, _. cbn. unfold out_of_fuel. split; reflexivity.
  - cbn [resource_pages].
    match goal with |- context [bind (send ?c ?f)] =>
      destruct (send_any c f st) as (r & st1 & Hsend & Hsink1 & Hfuel) end.
    destruct r as [response|e|]; [| |congruence].
    + erewrite bind_ok by exact Hsend.
      destruct (truthy (ResourcesOutput.nextToken response)).
      * match goal with |- context [resource_pages client fuel ?i ?t ?rs] =>
          destruct (IH i t rs st1) as (r & st2 & Hrun & Hsink2) end.
        exists r, st2. split; [exact Hrun | congruence].
      * eexists _, _. split; [reflexivity | exact Hsink1].
    + erewrite bind_throw by exact Hsend.
      eexists _, _. split; [reflexivity | exact Hsink1].
Qed.

(** [try { ... } catch (e) { throw e; }] changes nothing. *)
Lemma rethrow_id {A} (m : M W A) (st : State W) :
  try_catch m (fun e => throw e) st = m st.
Proof. unfold try_catch, throw. now destruct (m st) as [[a|e|] st']. Qed.

End Invariants.

(* ===================================================================== *)
(** ** The envelope *)
(* ===================================================================== *)

Lemma or_empty_some (s : jsstring) : or_empty (Some s) = s.
Proof. now destruct s. Qed.

Lemma echoes_function_response event response_body :
  echoes_request event (function_response event response_body).
Proof.
  unfold echoes_request; cbn. repeat split; auto.
  - intros s ->. apply or_empty_some.
  - now intros ->.
Qed.

Lemma echoes_error_function_response event e :
  echoes_request event (error_function_response event e).
Proof.
  unfold echoes_request; cbn. repeat split; auto.
  - intros s ->. apply or_empty_some.
  - now intros ->.
Qed.

Lemma jsstring_eqb_eq (a b : jsstring) : jsstring_eqb a b = true <-> a = b.
Proof.
  unfold jsstring_eqb. destruct (list_eq_dec N.eq_dec a b); split; auto; discriminate.
Qed.

Section HandlerFacts.

Context {W : Type} (client : Client W) (now : jsstring).
Context (stringify_checks : Checks.t -> jsstring).
Context (stringify_resourcesData : ResourcesData.t -> jsstring).

(** The shape shared by the handlers: set the content type, compute,
    stream the success envelope; whatever is thrown on the way is
    answered with the error envelope. *)
Lemma handler_answers {A} (get : M W A) (response_body : A -> jsstring) event (st : State W) :
  try_catch
    (setContentType ;;
     x <- get ;;
     streamFunctionResponse (function_response event (response_body x)))
    (fun e => streamFunctionResponse (error_function_response event e)) st
  = match get (written st [SetContentType (lit "application/json")]) with
    | (Ok x, st') =>
        (Ok tt, written st' (streamed (function_response event (response_body x))))
    | (Throw e, st') => (Ok tt, written st' (streamed (error_function_response event e)))
    | (OutOfFuel, st') => (OutOfFuel, st')
    end.
Proof.
  unfold try_catch, bind at 1, setContentType, emit.
  fold (written st [SetContentType (lit "application/json")]).
  unfold bind.
  destruct (get (written st [SetContentType (lit "application/json")])) as [[x|e|] st'].
  - now rewrite streamFunctionResponse_streamed.
  - now rewrite streamFunctionResponse_streamed.
  - reflexivity.
Qed.

Lemma cost_handler_answers fuel event (st : State W) :
  cost_handler client now stringify_checks fuel event st
  = match get_trusted_advisor_findings client fuel
            (written st [SetContentType (lit "application/json")]) with
    | (Ok findings, st') =>
        (Ok tt,
         written st'
           (streamed
              (function_response event
                 (stringify_checks
                    {| Checks.totalFindings := N.of_nat (List.length findings);
                       Checks.totalPotentialSavings := Some (toFixed2 (total_savings findings));
                       Checks.lastUpdated := now;
                       Checks.findings := findings |}))))
    | (Throw e, st') => (Ok tt, written st' (streamed (error_function_response event e)))
    | (OutOfFuel, st') => (OutOfFuel, st')
    end.
Proof. unfold cost_handler. now rewrite handler_answers. Qed.

Lemma security_handler_answers fuel event (st : State W) :
  security_handler client now stringify_checks fuel event st
  = match get_security_findings client fuel
            (written st [SetContentType (lit "application/json")]) with
    | (Ok findings, st') =>
        (Ok tt,
         written st'
           (streamed
              (function_response event
                 (stringify_checks
                    {| Checks.totalFindings := N.of_nat (List.length findings);
                       Checks.totalPotentialSavings := None;
                       Checks.lastUpdated := now;
                       Checks.findings := findings |}))))
    | (Throw e, st') => (Ok tt, written st' (streamed (error_function_response event e)))
    | (OutOfFuel, st') => (OutOfFuel, st')
    end.
Proof. unfold security_handler. now rewrite handler_answers. Qed.

Lemma resources_handler_answers fuel event (st : State W) :
  resources_handler client now stringify_resourcesData fuel event st
  = if truthy (find_recommendationIdentifier event) then
      match get_resource_list client fuel (or_empty (find_recommendationIdentifier event))
              (written st [SetContentType (lit "application/json")]) with
      | (Ok resources, st') =>
          (Ok tt,
           written st'
             (streamed
                (function_response event
                   (stringify_resourcesData
                      {| ResourcesData.totalResources := N.of_nat (List.length resources);
                         ResourcesData.lastUpdated := now;
                         ResourcesData.resources := resources |}))))
      | (Throw e, st') => (Ok tt, written st' (streamed (error_function_response event e)))
      | (OutOfFuel, st') => (OutOfFuel, st')
      end
    else
      (Ok tt,
       written (written st [SetContentType (lit "application/json")])
               (streamed (error_function_response event identifier_required))).
Proof.
  unfold resources_handler.
  destruct (truthy (find_recommendationIdentifier event)); cbn [negb].
  - rewrite <- handler_answers. reflexivity.
  - unfold try_catch, bind, setContentType, emit, throw.
    fold (written st [SetContentType (lit "application/json")]).
    now rewrite streamFunctionResponse_streamed.
Qed.

End HandlerFacts.

(* ===================================================================== *)
(** ** The text of an error body *)
(* ===================================================================== *)

(** JSON.stringify copies a plain text as it is. *)
Lemma json_escape_plain s : plain_text s = true -> json_escape s = s.
Proof.
  unfold plain_text.
  induction s as [|c r IH]; [reflexivity|].
  cbn [forallb]. intros H.
  apply andb_prop in H as [Hc Hr].
  apply andb_prop in Hc as [Hc Hlow]. apply andb_prop in Hc as [Hc Hhigh].
  apply andb_prop in Hc as [Hc H92]. apply andb_prop in Hc as [H32 H34].
  apply negb_true_iff in Hlow, Hhigh, H92, H34.
  apply N.leb_le in H32.
  cbn [json_escape].
  replace (c =? 8) with false by (symmetry; apply N.eqb_neq; lia).
  replace (c =? 9) with false by (symmetry; apply N.eqb_neq; lia).
  replace (c =? 10) with false by (symmetry; apply N.eqb_neq; lia).
  replace (c =? 12) with false by (symmetry; apply N.eqb_neq; lia).
  replace (c =? 13) with false by (symmetry; apply N.eqb_neq; lia).
  replace (c <? 32) with false by (symmetry; apply N.ltb_ge; lia).
  rewrite H34, H92, Hhigh, Hlow.
  now rewrite IH.
Qed.

(** [JSON.stringify({error: message})] is the text [{"error":"..."}]
    around the escaped message. *)
Lemma stringify_error_text message :
  stringify_error message = quoted "{'error':'" ++ json_escape message ++ quoted "'}".
Proof.
  unfold stringify_error, json_object, json_member, json_string.
  cbn. now rewrite <- !app_assoc.
Qed.

(* ===================================================================== *)
(** ** Envelope identity *)
(* ===================================================================== *)

Lemma answered_sink {W} (w : W) (st' : State W) env :
  sink st' = sink (written (start w) [SetContentType (lit "application/json")]) ->
  sink (written st' (streamed env)) = answered env.
Proof. cbn. now intros ->. Qed.

(** C4 (as amended): whenever a handler finishes, on the success path
    and on the error path alike, it has answered with one envelope whose
    [actionGroup] is the event's [actionGroup], or the empty string when
    the event has none, and whose [function] is the event's [function]
    as it is: absent when the event has none, not defaulted. *)
Theorem envelope_echoes_request {W} (client : Client W) (now : jsstring)
  (stringify_checks : Checks.t -> jsstring)
  (stringify_resourcesData : ResourcesData.t -> jsstring)
  (fuel : nat) (event : Event.t) (w : W) :
  echoes_or_unfinished event (cost_handler client now stringify_checks fuel event (start w))
  /\ echoes_or_unfinished event
       (security_handler client now stringify_checks fuel event (start w))
  /\ echoes_or_unfinished event
       (resources_handler client now stringify_resourcesData fuel event (start w)).
Proof.
  assert (Hshape : forall A (out : Result A * State W) (response_body : A -> jsstring),
             sink (snd out)
             = sink (written (start w) [SetContentType (lit "application/json")]) ->
             echoes_or_unfinished event
               match out with
               | (Ok x, st') =>
                   (Ok tt, written st' (streamed (function_response event (response_body x))))
               | (Throw e, st') =>
                   (Ok tt, written st' (streamed (error_function_response event e)))
               | (OutOfFuel, st') => (OutOfFuel, st')
               end).
  { intros A [[x|e|] st'] response_body Hsink; cbn [snd] in Hsink.
    - right. split; [reflexivity|]. eexists. cbn [snd fst].
      split; [apply (answered_sink w); exact Hsink|].
      split; [left; eexists; reflexivity | apply echoes_function_response].
    - right. split; [reflexivity|]. eexists. cbn [snd fst].
      split; [apply (answered_sink w); exact Hsink|].
      split; [right; eexists; reflexivity | apply echoes_error_function_response].
    - now left. }
  split; [|split].
  - rewrite cost_handler_answers. apply Hshape.
    unfold get_trusted_advisor_findings. rewrite rethrow_id.
    match goal with |- context [cost_pages client fuel ?i ?t ?f] =>
      destruct (cost_pages_any client fuel i t f
                  (written (start w) [SetContentType (lit "application/json")]))
        as (r & st' & Hrun & Hsink & _) end.
    unfold bind. rewrite Hrun. now destruct r.
  - rewrite security_handler_answers. apply Hshape.
    unfold get_security_findings.
    destruct (security_pages_any client fuel None []
                (written (start w) [SetContentType (lit "application/json")]))
      as (r & st' & Hrun & Hsink).
    now rewrite Hrun.
  - rewrite resources_handler_answers.
    destruct (truthy (find_recommendationIdentifier event)).
    + apply Hshape.
      unfold get_resource_list. rewrite rethrow_id.
      match goal with |- context [resource_pages client fuel ?i ?t ?f] =>
        destruct (resource_pages_any client fuel i t f
                    (written (start w) [SetContentType (lit "application/json")]))
          as (r & st' & Hrun & Hsink) end.
      now rewrite Hrun.
    + right. split; [reflexivity|]. eexists. split; [reflexivity|].
      split; [right; eexists; reflexivity | apply echoes_error_function_response].
Qed.

(* ===================================================================== *)
(** ** Request validation *)
(* ===================================================================== *)

Lemma find_none_unnamed (parameters : list Param.t) :
  Forall (fun param => ~ named_recommendationIdentifier param) parameters ->
  find (fun param =>
          match Param.name param with
          | Some n => jsstring_eqb n (lit "recommendationIdentifier")
          | None => false
          end) parameters = None.
Proof.
  induction 1 as [|param rest Hname _ IH]; [reflexivity|].
  cbn [find]. unfold named_recommendationIdentifier in Hname.
  destruct (Param.name param) as [n|]; [|exact IH].
  destruct (jsstring_eqb n (lit "recommendationIdentifier")) eqn:Heq; [|exact IH].
  apply jsstring_eqb_eq in Heq. congruence.
Qed.

Lemma find_first_named (before after : list Param.t) (param : Param.t) :
  Forall (fun p => ~ named_recommendationIdentifier p) before ->
  named_recommendationIdentifier param ->
  find (fun param =>
          match Param.name param with
          | Some n => jsstring_eqb n (lit "recommendationIdentifier")
          | None => false
          end) (before ++ param :: after) = Some param.
Proof.
  intros Hbefore Hnamed.
  induction Hbefore as [|p rest Hname _ IH]; cbn [app find].
  - rewrite Hnamed.
    now replace (jsstring_eqb (lit "recommendationIdentifier") (lit "recommendationIdentifier"))
      with true by (symmetry; now apply jsstring_eqb_eq).
  - unfold named_recommendationIdentifier in Hname.
    destruct (Param.name p) as [n|]; [|exact IH].
    destruct (jsstring_eqb n (lit "recommendationIdentifier")) eqn:Heq; [|exact IH].
    apply jsstring_eqb_eq in Heq. congruence.
Qed.

(** C6: when the event's parameters contain no parameter named
    [recommendationIdentifier] (or the event has no parameters), the
    resource provider sends no command to the remote service and answers
    with the error envelope: [responseState] is ["REPROMPT"] and the body
    is [{"error":"recommendationIdentifier is required"}]. *)
Theorem missing_identifier_reprompts {W} (client : Client W) (now : jsstring)
  (stringify_resourcesData : ResourcesData.t -> jsstring)
  (fuel : nat) (event : Event.t) (w : W) :
  (forall parameters, Event.parameters event = Some parameters ->
     Forall (fun param => ~ named_recommendationIdentifier param) parameters) ->
  resources_handler client now stringify_resourcesData fuel event (start w)
  = (Ok tt,
     {| world := w;
        calls := [];
        sink := answered (error_function_response event identifier_required) |})
  /\ responseState (error_function_response event identifier_required)
     = Some (lit "REPROMPT")
  /\ body (error_function_response event identifier_required)
     = stringify_error (lit "recommendationIdentifier is required")
  /\ body (error_function_response event identifier_required)
     = quoted "{'error':'recommendationIdentifier is required'}".
Proof.
  intros Hnone.
  assert (Hfind : find_recommendationIdentifier event = None).
  { unfold find_recommendationIdentifier.
    destruct (Event.parameters event) as [parameters|]; [|reflexivity].
    now rewrite find_none_unnamed by auto. }
  rewrite resources_handler_answers, Hfind. cbn [truthy].
  repeat split.
Qed.

(** C10: when the first parameter named [recommendationIdentifier]
    carries the empty string, the resource provider does exactly what it
    does for an event without parameters: no command is sent, and the
    answer is the same ["REPROMPT"] error envelope. *)
Theorem empty_identifier_reprompts {W} (client : Client W) (now : jsstring)
  (stringify_resourcesData : ResourcesData.t -> jsstring)
  (fuel : nat) (event : Event.t) (w : W) (before after : list Param.t) (param : Param.t) :
  Event.parameters event = Some (before ++ param :: after) ->
  Forall (fun p => ~ named_recommendationIdentifier p) before ->
  named_recommendationIdentifier param ->
  Param.value param = Some [] ->
  resources_handler client now stringify_resourcesData fuel event (start w)
  = (Ok tt,
     {| world := w;
        calls := [];
        sink := answered (error_function_response event identifier_required) |})
  /\ responseState (error_function_response event identifier_required)
     = Some (lit "REPROMPT")
  /\ resources_handler client now stringify_resourcesData fuel event (start w)
     = resources_handler client now stringify_resourcesData fuel
         {| Event.actionGroup := Event.actionGroup event;
            Event.function := Event.function event;
            Event.parameters := None |} (start w).
Proof.
  intros Hparams Hbefore Hnamed Hvalue.
  assert (Hfind : find_recommendationIdentifier event = Some []).
  { unfold find_recommendationIdentifier. rewrite Hparams.
    rewrite find_first_named by assumption. exact Hvalue. }
  rewrite !resources_handler_answers, Hfind. cbn [truthy str_truthy].
  repeat split.
Qed.

(** C4 as stated fails: for an event without [function] the resource
    provider answers with an envelope that has no [function] member,
    which is not the envelope with [function] defaulted to the empty
    string. *)
Lemma function_is_not_defaulted :
  sink (snd (resources_handler Scripted.client sample_now sample_stringify_resourcesData 1
               event_without_function (start nothing_recorded)))
  = answered (error_function_response event_without_function identifier_required)
  /\ function (error_function_response event_without_function identifier_required) = None
  /\ ~ echoes_with_defaults event_without_function
         (error_function_response event_without_function identifier_required)
  /\ answered (error_function_response event_without_function identifier_required)
     <> answered (with_function (Some [])
                    (error_function_response event_without_function identifier_required)).
Proof.
  split; [vm_compute; reflexivity|].
  split; [reflexivity|].
  split.
  - intros [_ H]. discriminate H.
  - vm_compute. discriminate.
Qed.

Lemma missing_identifier_reprompts_witness :
  resources_handler Scripted.client sample_now sample_stringify_resourcesData 1
    event_without_identifier (start nothing_recorded)
  = (Ok tt,
     {| world := nothing_recorded;
        calls := [];
        sink := answered (error_function_response event_without_identifier
                            identifier_required) |})
  /\ responseState (error_function_response event_without_identifier identifier_required)
     = Some (lit "REPROMPT")
  /\ body (error_function_response event_without_identifier identifier_required)
     = stringify_error (lit "recommendationIdentifier is required")
  /\ body (error_function_response event_without_identifier identifier_required)
     = quoted "{'error':'recommendationIdentifier is required'}"
  /\ answered (error_function_response event_without_identifier identifier_required)
     = [SetContentType (lit "application/json");
        Write (quoted "{'messageVersion':'1.0','response':{'actionGroup':'X','function':'Y','responseState':'REPROMPT','functionResponse':{'responseBody':{'TEXT':{'body':'{\'error\':\'recommendationIdentifier is required\'}'}}}}}");
        End_].
Proof.
  assert (Hrun := missing_identifier_reprompts Scripted.client sample_now
                    sample_stringify_resourcesData 1 event_without_identifier
                    nothing_recorded).
  destruct Hrun as (Hrun & Hstate & Hbody & Htext).
  - intros parameters [= <-].
    constructor; [|constructor].
    unfold named_recommendationIdentifier. cbn. discriminate.
  - split; [exact Hrun|]. split; [exact Hstate|]. split; [exact Hbody|].
    split; [exact Htext | reflexivity].
Defined.

Lemma empty_identifier_reprompts_witness :
  resources_handler Scripted.client sample_now sample_stringify_resourcesData 1
    event_with_empty_identifier (start nothing_recorded)
  = (Ok tt,
     {| world := nothing_recorded;
        calls := [];
        sink := answered (error_function_response event_with_empty_identifier
                            identifier_required) |}).
Proof.
  apply (empty_identifier_reprompts Scripted.client sample_now
           sample_stringify_resourcesData 1 event_with_empty_identifier nothing_recorded
           [] []
           {| Param.name := Some (lit "recommendationIdentifier"); Param.value := Some [] |}).
  - reflexivity.
  - constructor.
  - reflexivity.
  - reflexivity.
Defined.

(* ===================================================================== *)
(** ** The providers, when the service serves a listing *)
(* ===================================================================== *)

Lemma list_commands_app (a b : list Command) :
  list_commands (a ++ b) = list_commands a ++ list_commands b.
Proof. unfold list_commands. apply flat_map_app. Qed.

Lemma list_commands_details (items : list Summary.t) :
  list_commands (map (fun item => GetRecommendationCommand (Summary.arn item)) items) = [].
Proof. induction items; cbn; auto. Qed.

(** Among the commands sent for [pages], the list calls are one per
    page. *)
Lemma list_commands_page_calls pages : forall input,
  list_commands (page_calls input pages) = list_requests input pages.
Proof.
  induction pages as [|page pages IH]; intros input; [reflexivity|].
  cbn [page_calls list_requests].
  change (list_commands (?c :: ?r)) with
    (match c with ListRecommendationsCommand i => [i] | _ => [] end ++ list_commands r).
  cbn [app]. now rewrite list_commands_app, list_commands_details, IH.
Qed.

Lemma list_requests_length pages : forall input,
  List.length (list_requests input pages) = List.length pages.
Proof. induction pages as [|p pages IH]; intros input; cbn; auto. Qed.

Lemma resource_requests_length pages : forall input,
  List.length (resource_requests input pages) = List.length pages.
Proof. induction pages as [|p pages IH]; intros input; cbn; auto. Qed.

(** The first request carries the token of [input]; every later one
    carries the token of the page before it. *)
Lemma list_requests_tokens pages : forall input,
  pages <> [] ->
  map ListInput.nextToken (list_requests input pages)
  = ListInput.nextToken input :: map ListOutput.nextToken (removelast pages).
Proof.
  induction pages as [|p pages IH]; intros input Hne; [congruence|].
  cbn [list_requests map]. f_equal.
  destruct pages as [|q pages]; [reflexivity|].
  rewrite IH by discriminate. reflexivity.
Qed.

Lemma resource_requests_tokens pages : forall input,
  pages <> [] ->
  map ResourcesInput.nextToken (resource_requests input pages)
  = ResourcesInput.nextToken input :: map ResourcesOutput.nextToken (removelast pages).
Proof.
  induction pages as [|p pages IH]; intros input Hne; [congruence|].
  cbn [resource_requests map]. f_equal.
  destruct pages as [|q pages]; [reflexivity|].
  rewrite IH by discriminate. reflexivity.
Qed.

Section ProvidersServed.

Context {W : Type} (client : Client W) (now : jsstring).
Context (stringify_checks : Checks.t -> jsstring).
Context (stringify_resourcesData : ResourcesData.t -> jsstring).

Lemma get_trusted_advisor_findings_served w pages ending w' fuel (st : State W) :
  RecommendationsServed client w first_cost_input pages ending w' ->
  Forall has_items (map fst pages) ->
  world st = w ->
  (List.length pages < fuel)%nat ->
  get_trusted_advisor_findings client fuel st
  = (listing_result ending (Array_sort by_savings (all_kept cost_finding pages)),
     {| world := w';
        calls := calls st
                 ++ page_calls first_cost_input (map fst pages)
                 ++ failing_call ending
                      (ListRecommendationsCommand
                         (request_after first_cost_input (map fst pages)));
        sink := sink st |}).
Proof.
  intros Hserved Hitems Hw Hfuel.
  unfold get_trusted_advisor_findings. rewrite rethrow_id.
  unfold bind.
  erewrite (cost_pages_spec client) by eauto.
  now destruct ending.
Qed.

Lemma get_security_findings_served w pages ending w' fuel (st : State W) :
  RecommendationsServed client w first_security_input pages ending w' ->
  world st = w ->
  (List.length pages < fuel)%nat ->
  get_security_findings client fuel st
  = (listing_result ending (all_kept security_finding pages),
     {| world := w';
        calls := calls st
                 ++ page_calls first_security_input (map fst pages)
                 ++ failing_call ending
                      (ListRecommendationsCommand
                         (request_after first_security_input (map fst pages)));
        sink := sink st |}).
Proof.
  intros Hserved Hw Hfuel.
  unfold get_security_findings.
  erewrite (security_pages_spec client) by eauto.
  reflexivity.
Qed.

Lemma get_resource_list_served id w pages ending w' fuel (st : State W) :
  ResourcesServed client w (first_resources_input id) pages ending w' ->
  world st = w ->
  (List.length pages < fuel)%nat ->
  get_resource_list client fuel id st
  = (listing_result ending
       (flat_map (fun page => map resource_record (page_resources page)) pages),
     {| world := w';
        calls := calls st
                 ++ map ListRecommendationResourcesCommand
                        (resource_requests (first_resources_input id) pages)
                 ++ failing_call ending
                      (ListRecommendationResourcesCommand
                         (resource_request_after (first_resources_input id) pages));
        sink := sink st |}).
Proof.
  intros Hserved Hw Hfuel.
  unfold get_resource_list. rewrite rethrow_id.
  erewrite (resource_pages_spec client) by eauto.
  reflexivity.
Qed.

End ProvidersServed.

(* ===================================================================== *)
(** ** The handlers, when the service serves a listing *)
(* ===================================================================== *)

Section HandlersServed.

Context {W : Type} (client : Client W) (now : jsstring).
Context (stringify_checks : Checks.t -> jsstring).
Context (stringify_resourcesData : ResourcesData.t -> jsstring).

Lemma cost_handler_served w pages ending w' fuel event :
  RecommendationsServed client w first_cost_input pages ending w' ->
  Forall has_items (map fst pages) ->
  (List.length pages < fuel)%nat ->
  cost_handler client now stringify_checks fuel event (start w)
  = (Ok tt,
     {| world := w';
        calls := page_calls first_cost_input (map fst pages)
                 ++ failing_call ending
                      (ListRecommendationsCommand
                         (request_after first_cost_input (map fst pages)));
        sink := answered
                  (answer_for ending event
                     (stringify_checks
                        (cost_checks now
                           (Array_sort by_savings (all_kept cost_finding pages))))) |}).
Proof.
  intros Hserved Hitems Hfuel.
  rewrite cost_handler_answers.
  erewrite get_trusted_advisor_findings_served by eauto.
  now destruct ending.
Qed.

Lemma security_handler_served w pages ending w' fuel event :
  RecommendationsServed client w first_security_input pages ending w' ->
  (List.length pages < fuel)%nat ->
  security_handler client now stringify_checks fuel event (start w)
  = (Ok tt,
     {| world := w';
        calls := page_calls first_security_input (map fst pages)
                 ++ failing_call ending
                      (ListRecommendationsCommand
                         (request_after first_security_input (map fst pages)));
        sink := answered
                  (answer_for ending event
                     (stringify_checks
                        (security_checks now (all_kept security_finding pages)))) |}).
Proof.
  intros Hserved Hfuel.
  rewrite security_handler_answers.
  erewrite get_security_findings_served by eauto.
  now destruct ending.
Qed.

Lemma resources_handler_served id w pages ending w' fuel event :
  find_recommendationIdentifier event = Some id ->
  id <> [] ->
  ResourcesServed client w (first_resources_input id) pages ending w' ->
  (List.length pages < fuel)%nat ->
  resources_handler client now stringify_resourcesData fuel event (start w)
  = (Ok tt,
     {| world := w';
        calls := map ListRecommendationResourcesCommand
                     (resource_requests (first_resources_input id) pages)
                 ++ failing_call ending
                      (ListRecommendationResourcesCommand
                         (resource_request_after (first_resources_input id) pages));
        sink := answered
                  (answer_for ending event
                     (stringify_resourcesData
                        (resources_data now
                           (flat_map (fun page => map resource_record (page_resources page))
                                     pages)))) |}).
Proof.
  intros Hfind Hid Hserved Hfuel.
  rewrite resources_handler_answers, Hfind.
  replace (truthy (Some id)) with true by (destruct id; [congruence | reflexivity]).
  rewrite or_empty_some.
  erewrite get_resource_list_served by eauto.
  now destruct ending.
Qed.

End HandlersServed.

(* ===================================================================== *)
(** ** Failure of a list call *)
(* ===================================================================== *)

(** C7: when a list call throws (after any number of pages served), the
    invocation returns no partial result: the handler answers with one
    envelope, the error envelope, whose [responseState] is ["REPROMPT"]
    and whose body is [{"error": <the message of what was thrown>}].
    This holds for the cost provider, the security provider and the
    resource provider.  The body is the text [{"error":"] followed by the
    message as JSON.stringify escapes it and by ["}]; a message of plain
    characters stands in it as it is. *)
Theorem listing_failure_reprompts {W} (client : Client W) (now : jsstring)
  (stringify_checks : Checks.t -> jsstring)
  (stringify_resourcesData : ResourcesData.t -> jsstring)
  (fuel : nat) (event : Event.t) (w w' : W) (e : Error) :
  (forall pages,
     RecommendationsServed client w first_cost_input pages (ListFails e) w' ->
     Forall has_items (map fst pages) ->
     (List.length pages < fuel)%nat ->
     cost_handler client now stringify_checks fuel event (start w)
     = (Ok tt,
        {| world := w';
           calls := page_calls first_cost_input (map fst pages)
                    ++ [ListRecommendationsCommand
                          (request_after first_cost_input (map fst pages))];
           sink := answered (error_function_response event e) |}))
  /\ (forall pages,
        RecommendationsServed client w first_security_input pages (ListFails e) w' ->
        (List.length pages < fuel)%nat ->
        security_handler client now stringify_checks fuel event (start w)
        = (Ok tt,
           {| world := w';
              calls := page_calls first_security_input (map fst pages)
                       ++ [ListRecommendationsCommand
                             (request_after first_security_input (map fst pages))];
              sink := answered (error_function_response event e) |}))
  /\ (forall id pages,
        find_recommendationIdentifier event = Some id ->
        id <> [] ->
        ResourcesServed client w (first_resources_input id) pages (ListFails e) w' ->
        (List.length pages < fuel)%nat ->
        resources_handler client now stringify_resourcesData fuel event (start w)
        = (Ok tt,
           {| world := w';
              calls := map ListRecommendationResourcesCommand
                           (resource_requests (first_resources_input id) pages)
                       ++ [ListRecommendationResourcesCommand
                             (resource_request_after (first_resources_input id) pages)];
              sink := answered (error_function_response event e) |}))
  /\ responseState (error_function_response event e) = Some (lit "REPROMPT")
  /\ body (error_function_response event e) = stringify_error (message e)
  /\ body (error_function_response event e)
     = quoted "{'error':'" ++ json_escape (message e) ++ quoted "'}"
  /\ (plain_text (message e) = true ->
      body (error_function_response event e)
      = quoted "{'error':'" ++ message e ++ quoted "'}").
Proof.
  split; [|split; [|split]].
  - intros pages Hserved Hitems Hfuel.
    now rewrite (cost_handler_served client now stringify_checks w pages (ListFails e) w').
  - intros pages Hserved Hfuel.
    now rewrite (security_handler_served client now stringify_checks w pages (ListFails e) w').
  - intros id pages Hfind Hid Hserved Hfuel.
    now rewrite (resources_handler_served client now stringify_resourcesData
                   id w pages (ListFails e) w').
  - split; [reflexivity|]. split; [reflexivity|].
    cbn [error_function_response body].
    split; [apply stringify_error_text|].
    intros Hplain. rewrite stringify_error_text. now rewrite json_escape_plain.
Qed.

Lemma listing_failure_reprompts_witness :
  cost_handler Scripted.client sample_now sample_stringify_checks 2
    event_with_identifier (start second_list_throttled)
  = (Ok tt,
     {| world := lists_consumed second_list_throttled;
        calls := page_calls first_cost_input [page_ab]
                 ++ [ListRecommendationsCommand (request_after first_cost_input [page_ab])];
        sink := answered (error_function_response event_with_identifier throttled) |})
  /\ security_handler Scripted.client sample_now sample_stringify_checks 2
       event_with_identifier (start second_list_throttled)
     = (Ok tt,
        {| world := lists_consumed second_list_throttled;
           calls := page_calls first_security_input [page_ab]
                    ++ [ListRecommendationsCommand
                          (request_after first_security_input [page_ab])];
           sink := answered (error_function_response event_with_identifier throttled) |})
  /\ resources_handler Scripted.client sample_now sample_stringify_resourcesData 2
       event_with_identifier (start second_list_throttled)
     = (Ok tt,
        {| world := resources_consumed second_list_throttled;
           calls := map ListRecommendationResourcesCommand
                        (resource_requests (first_resources_input (lit "arn:rec/1"))
                                           [resources_12])
                    ++ [ListRecommendationResourcesCommand
                          (resource_request_after (first_resources_input (lit "arn:rec/1"))
                                                  [resources_12])];
           sink := answered (error_function_response event_with_identifier throttled) |})
  /\ body (error_function_response event_with_identifier throttled)
     = quoted "{'error':'Rate exceeded'}"
  /\ answered (error_function_response event_with_identifier throttled)
     = [SetContentType (lit "application/json");
        Write (quoted "{'messageVersion':'1.0','response':{'actionGroup':'X','function':'Y','responseState':'REPROMPT','functionResponse':{'responseBody':{'TEXT':{'body':'{\'error\':\'Rate exceeded\'}'}}}}}");
        End_].
Proof.
  split; [|split; [|split; [|split]]].
  - apply (proj1 (listing_failure_reprompts Scripted.client sample_now
                    sample_stringify_checks sample_stringify_resourcesData 2
                    event_with_identifier second_list_throttled
                    (lists_consumed second_list_throttled) throttled)
             [(page_ab, [Returns sample_detail; Returns sample_detail])]).
    + eapply served_next; [reflexivity | reflexivity | reflexivity |].
      apply served_fails. reflexivity.
    + repeat constructor; discriminate.
    + cbn. lia.
  - apply (proj1 (proj2 (listing_failure_reprompts Scripted.client sample_now
                    sample_stringify_checks sample_stringify_resourcesData 2
                    event_with_identifier second_list_throttled
                    (lists_consumed second_list_throttled) throttled))
             [(page_ab, [Returns sample_detail; Returns sample_detail])]).
    + eapply served_next; [reflexivity | reflexivity | reflexivity |].
      apply served_fails. reflexivity.
    + cbn. lia.
  - apply (proj1 (proj2 (proj2 (listing_failure_reprompts Scripted.client sample_now
                    sample_stringify_checks sample_stringify_resourcesData 2
                    event_with_identifier second_list_throttled
                    (resources_consumed second_list_throttled) throttled)))
             (lit "arn:rec/1") [resources_12]).
    + reflexivity.
    + discriminate.
    + eapply resources_next; [reflexivity | reflexivity |].
      apply resources_fails. reflexivity.
    + cbn. lia.
  - apply (proj2 (proj2 (proj2 (proj2 (proj2 (proj2
             (listing_failure_reprompts Scripted.client sample_now
                sample_stringify_checks sample_stringify_resourcesData 2
                event_with_identifier second_list_throttled
                (lists_consumed second_list_throttled) throttled))))))).
    reflexivity.
  - reflexivity.
Defined.

(* ===================================================================== *)
(** ** The sort by savings *)
(* ===================================================================== *)

Lemma or_zero_not_nan (o : option number) : is_nan (or_zero o) = false.
Proof. destruct o as [[| |q|]|]; cbn; auto. now destruct (Qeq_bool q 0). Qed.

(** [x || 0] leaves a number that went through [|| 0] unchanged. *)
Lemma or_zero_idempotent (o : option number) : or_zero (Some (or_zero o)) = or_zero o.
Proof.
  destruct o as [[| |q|]|]; cbn; auto.
  destruct (Qeq_bool q 0) eqn:Hq; cbn; [reflexivity | now rewrite Hq].
Qed.

Lemma num_le_trans (a b c : number) : num_le a b -> num_le b c -> num_le a c.
Proof.
  destruct a, b, c; cbn; auto; try contradiction.
  apply Qle_trans.
Qed.

Lemma fin_pos_iff (x y : Q) : num_pos (num_sub (Fin y) (Fin x)) = true <-> (x < y)%Q.
Proof.
  cbn. rewrite (Qlt_minus_iff x y).
  destruct (y + - x ?= 0)%Q eqn:Hc.
  - apply Qeq_alt in Hc. split; [discriminate|]. intros H. rewrite Hc in H.
    now apply Qlt_irrefl in H.
  - apply Qlt_alt in Hc. split; [discriminate|]. intros H.
    exfalso. apply (Qlt_irrefl 0). now apply Qlt_trans with (y + - x)%Q.
  - apply Qgt_alt in Hc. split; auto.
Qed.

(** The comparator is positive exactly when its second argument saves
    strictly more. *)
Lemma num_pos_sub_true (a b : number) :
  is_nan a = false -> is_nan b = false ->
  num_pos (num_sub b a) = true -> num_le a b /\ ~ num_le b a.
Proof.
  destruct a as [| |x|], b as [| |y|]; cbn [is_nan]; try discriminate; intros _ _;
    try (cbn; intuition; discriminate).
  intros H. apply fin_pos_iff in H. cbn. split.
  - now apply Qlt_le_weak.
  - now apply Qlt_not_le.
Qed.

Lemma num_pos_sub_false (a b : number) :
  is_nan a = false -> is_nan b = false ->
  num_pos (num_sub b a) = false -> num_le b a.
Proof.
  destruct a as [| |x|], b as [| |y|]; cbn [is_nan]; try discriminate; intros _ _;
    try (cbn; intuition; discriminate).
  intros H. cbn. apply Qnot_lt_le. intros Hlt. apply fin_pos_iff in Hlt. congruence.
Qed.

Lemma num_eqb_le (a v : number) : num_eqb a v = true -> num_le a v /\ num_le v a.
Proof.
  destruct a as [| |x|], v as [| |y|]; cbn; try discriminate; auto.
  intros H. apply Qeq_bool_iff in H. rewrite H. split; apply Qle_refl.
Qed.

(** Two findings that the comparator orders strictly do not save the
    same. *)
Lemma by_savings_pos_saving (x y : Finding.t) (v : number) :
  num_pos (by_savings x y) = true ->
  num_eqb (savings_key x) v = true ->
  num_eqb (savings_key y) v = false.
Proof.
  unfold by_savings. fold (savings_key x) (savings_key y).
  intros Hpos Hx.
  apply num_pos_sub_true in Hpos as [_ Hnle];
    [| apply or_zero_not_nan | apply or_zero_not_nan].
  destruct (num_eqb (savings_key y) v) eqn:Hy; [|reflexivity].
  exfalso. apply Hnle.
  apply num_eqb_le in Hx as [_ Hvx]. apply num_eqb_le in Hy as [Hyv _].
  now apply num_le_trans with v.
Qed.

Lemma sort_insert_perm {A} (comparefn : A -> A -> number) (x : A) (l : list A) :
  Permutation (x :: l) (sort_insert comparefn x l).
Proof.
  induction l as [|y r IH]; cbn; [reflexivity|].
  destruct (num_pos (comparefn x y)); [|reflexivity].
  rewrite perm_swap. now apply perm_skip.
Qed.

Lemma Array_sort_perm {A} (comparefn : A -> A -> number) (l : list A) :
  Permutation l (Array_sort comparefn l).
Proof.
  induction l as [|x r IH]; cbn; [reflexivity|].
  rewrite <- sort_insert_perm. now apply perm_skip.
Qed.

Lemma sort_insert_sorted (x : Finding.t) (l : list Finding.t) :
  StronglySorted saves_at_least l ->
  StronglySorted saves_at_least (sort_insert by_savings x l).
Proof.
  induction 1 as [|y r Hsorted IH Hall]; cbn [sort_insert].
  - repeat constructor.
  - destruct (num_pos (by_savings x y)) eqn:Hpos.
    + constructor; [exact IH|].
      rewrite <- (sort_insert_perm by_savings x r). constructor; [|exact Hall].
      unfold saves_at_least. unfold by_savings in Hpos.
      now apply num_pos_sub_true in Hpos as [Hle _];
        [| apply or_zero_not_nan | apply or_zero_not_nan].
    + assert (Hyx : saves_at_least x y).
      { unfold saves_at_least. unfold by_savings in Hpos.
        apply num_pos_sub_false in Hpos; [exact Hpos | apply or_zero_not_nan ..]. }
      constructor; [now constructor|].
      constructor; [exact Hyx|].
      rewrite Forall_forall in *. intros z Hz. unfold saves_at_least in *.
      apply num_le_trans with (savings_key y); auto.
Qed.

Lemma Array_sort_sorted (l : list Finding.t) :
  StronglySorted saves_at_least (Array_sort by_savings l).
Proof.
  induction l as [|x r IH]; cbn; [constructor | now apply sort_insert_sorted].
Qed.

Lemma sort_insert_saving (v : number) (x : Finding.t) (l : list Finding.t) :
  saving v (sort_insert by_savings x l) = saving v (x :: l).
Proof.
  unfold saving. induction l as [|y r IH]; [reflexivity|].
  cbn [sort_insert]. destruct (num_pos (by_savings x y)) eqn:Hpos; [|reflexivity].
  cbn [filter] in *. rewrite IH.
  destruct (num_eqb (savings_key x) v) eqn:Hx; [|reflexivity].
  now rewrite (by_savings_pos_saving x y v Hpos Hx).
Qed.

Lemma Array_sort_saving (v : number) (l : list Finding.t) :
  saving v (Array_sort by_savings l) = saving v l.
Proof.
  induction l as [|x r IH]; [reflexivity|].
  cbn [Array_sort]. rewrite sort_insert_saving.
  unfold saving in *. cbn [filter]. now rewrite IH.
Qed.

(** C5: the array returned by [findings.sort(...)] in the cost provider
    is a permutation of the findings, is in non-increasing order of
    savings, and keeps findings of equal savings in their arrival order
    (for every amount, the findings saving that amount come in the same
    order before and after); for the provider's own findings the savings
    compared are the [estimatedMonthlySavings] property itself; and what
    the provider returns, when the service serves a full listing, is this
    sorted array of the findings it accumulated. *)
Theorem findings_sorted_by_savings (findings : list Finding.t) :
  Permutation findings (Array_sort by_savings findings)
  /\ StronglySorted saves_at_least (Array_sort by_savings findings)
  /\ (forall v, saving v (Array_sort by_savings findings) = saving v findings)
  /\ (Forall (made_by cost_finding) findings ->
      Forall (fun f => Finding.estimatedMonthlySavings f = Some (savings_key f))
             (Array_sort by_savings findings))
  /\ (forall (W : Type) (client : Client W) (fuel : nat) (st : State W) pages w',
        RecommendationsServed client (world st) first_cost_input pages LastPage w' ->
        Forall has_items (map fst pages) ->
        (List.length pages < fuel)%nat ->
        findings = all_kept cost_finding pages ->
        fst (get_trusted_advisor_findings client fuel st)
        = Ok (Array_sort by_savings findings)).
Proof.
  split; [apply Array_sort_perm|].
  split; [apply Array_sort_sorted|].
  split; [intros v; apply Array_sort_saving|].
  split.
  - intros Hmade. rewrite <- (Array_sort_perm by_savings findings).
    rewrite Forall_forall in *. intros f Hf.
    destruct (Hmade f Hf) as (item & detail & ->).
    unfold savings_key, cost_finding. cbn [Finding.estimatedMonthlySavings].
    unfold cost_savings. now rewrite or_zero_idempotent.
  - intros W client fuel st pages w' Hserved Hitems Hfuel ->.
    now erewrite get_trusted_advisor_findings_served by eauto.
Qed.

Lemma findings_sorted_by_savings_witness :
  fst (get_trusted_advisor_findings Scripted.client 3 (start serves_all))
  = Ok (Array_sort by_savings
          (all_kept cost_finding
             [(page_ab, [Returns sample_detail; Returns sample_detail]);
              (page_cd, [Returns sample_detail; Returns sample_detail])]))
  /\ Forall (fun f => Finding.estimatedMonthlySavings f = Some (savings_key f))
            (Array_sort by_savings
               [cost_finding item_a sample_detail; cost_finding item_b sample_detail]).
Proof.
  split.
  - apply (proj2 (proj2 (proj2 (proj2 (findings_sorted_by_savings _))))
             Scripted.t Scripted.client 3%nat (start serves_all)
             [(page_ab, [Returns sample_detail; Returns sample_detail]);
              (page_cd, [Returns sample_detail; Returns sample_detail])]
             (lists_consumed serves_all)).
    + eapply served_next; [reflexivity | reflexivity | reflexivity |].
      eapply served_last; reflexivity.
    + repeat constructor; discriminate.
    + cbn. lia.
    + reflexivity.
  - apply (proj1 (proj2 (proj2 (proj2 (findings_sorted_by_savings _))))).
    repeat constructor; eexists _, _; reflexivity.
Defined.

(** The example of the specification: savings 10, 30, 30, 5 arrive as
    [a, b, c, d] and are returned as [b, c, a, d]. *)
Example savings_10_30_30_5 :
  fst (get_trusted_advisor_findings Scripted.client 3 (start serves_all))
  = Ok [cost_finding item_b sample_detail; cost_finding item_c sample_detail;
        cost_finding item_a sample_detail; cost_finding item_d sample_detail].
Proof. vm_compute. reflexivity. Qed.

(* ===================================================================== *)
(** ** The fields of a finding *)
(* ===================================================================== *)

(** C8: a finding built by the cost or by the security provider from a
    summary whose [resourcesAggregates] carries both counts has
    [resourceCount = errorCount + warningCount]; when a count (or the
    whole of [resourcesAggregates]) is absent the sum is [NaN], and in
    either case the construction completes: the enrichment loop pushes
    the finding and goes on. *)
Theorem resourceCount_is_sum (recommendation : Summary.t) (detail : Detail.t) :
  (forall resourceAggregates errorCount warningCount,
     Summary.resourcesAggregates recommendation = Some resourceAggregates ->
     ResourcesAggregates.errorCount resourceAggregates = Some errorCount ->
     ResourcesAggregates.warningCount resourceAggregates = Some warningCount ->
     Finding.resourceCount (cost_finding recommendation detail)
     = num_add errorCount warningCount
     /\ Finding.resourceCount (security_finding recommendation detail)
        = num_add errorCount warningCount)
  /\ (counts_omitted recommendation ->
      Finding.resourceCount (cost_finding recommendation detail) = NaN
      /\ Finding.resourceCount (security_finding recommendation detail) = NaN)
  /\ (forall (W : Type) (client : Client W) (st : State W) w1 rest findings,
        getRecommendation client (Summary.arn recommendation) (world st)
        = (Returns detail, w1) ->
        exists more st',
          enrich_cost client (recommendation :: rest) findings st
          = (Ok ((findings ++ [cost_finding recommendation detail]) ++ more), st')
          /\ Forall (made_by cost_finding) more)
  /\ (forall (W : Type) (client : Client W) (st : State W) w1 rest findings,
        getRecommendation client (Summary.arn recommendation) (world st)
        = (Returns detail, w1) ->
        exists more st',
          enrich_security client (recommendation :: rest) findings st
          = (Ok ((findings ++ [security_finding recommendation detail]) ++ more), st')
          /\ Forall (made_by security_finding) more).
Proof.
  assert (Hpush : forall make_finding (W : Type) (client : Client W) (st : State W)
                    w1 rest findings,
             getRecommendation client (Summary.arn recommendation) (world st)
             = (Returns detail, w1) ->
             exists more st',
               enrich client make_finding (recommendation :: rest) findings st
               = (Ok ((findings ++ [make_finding recommendation detail]) ++ more), st')
               /\ Forall (made_by make_finding) more).
  { intros make_finding W client st w1 rest findings Hget.
    cbn [enrich]. unfold try_catch at 1.
    erewrite bind_ok by (erewrite bind_ok by (apply send_returns; exact Hget); reflexivity).
    match goal with |- context [enrich client make_finding rest ?fs ?s] =>
      destruct (enrich_any client make_finding rest fs s) as (more & st' & Hen & _ & Hmade) end.
    exists more, st'. split; assumption. }
  split; [|split; [|split]].
  - intros agg e w Hagg He Hw. unfold cost_finding, security_finding, resource_count; cbn.
    now rewrite Hagg, He, Hw.
  - unfold counts_omitted, cost_finding, security_finding, resource_count; cbn.
    destruct (Summary.resourcesAggregates recommendation) as [agg|]; [|auto].
    intros [-> | ->]; cbn; [auto|].
    now destruct (ResourcesAggregates.errorCount agg).
  - apply Hpush.
  - apply Hpush.
Qed.

Lemma resourceCount_is_sum_witness :
  (Finding.resourceCount (cost_finding item_a sample_detail) = Fin (2 + 1)
   /\ Finding.resourceCount (security_finding item_a sample_detail) = Fin (2 + 1))
  /\ (Finding.resourceCount (cost_finding bare_summary sample_detail) = NaN
      /\ Finding.resourceCount (security_finding bare_summary sample_detail) = NaN)
  /\ (exists more st',
        enrich_cost Scripted.client [bare_summary; item_d] [] (start serves_all)
        = (Ok (([] ++ [cost_finding bare_summary sample_detail]) ++ more), st')
        /\ Forall (made_by cost_finding) more).
Proof.
  split; [|split].
  - apply (proj1 (resourceCount_is_sum item_a sample_detail) two_errors_one_warning
             (Fin 2) (Fin 1)); reflexivity.
  - apply (proj1 (proj2 (resourceCount_is_sum bare_summary sample_detail))).
    exact I.
  - apply (proj1 (proj2 (proj2 (resourceCount_is_sum bare_summary sample_detail)))
             Scripted.t Scripted.client (start serves_all)
             {| Scripted.lists := Scripted.lists serves_all;
                Scripted.details := [Returns sample_detail; Returns sample_detail;
                                     Returns sample_detail];
                Scripted.resources := Scripted.resources serves_all |}).
    reflexivity.
Defined.

(** A summary without [resourcesAggregates] is enriched all the same:
    [c]'s finding is pushed, with [resourceCount] [NaN]. *)
Example missing_aggregates_tolerated :
  fst (enrich_cost Scripted.client [item_c; item_d] [] (start serves_all))
  = Ok [cost_finding item_c sample_detail; cost_finding item_d sample_detail]
  /\ Finding.resourceCount (cost_finding item_c sample_detail) = NaN.
Proof. split; reflexivity. Qed.

Lemma fold_savings_ext (findings : list Finding.t) : forall sum,
  Forall (fun f => savings_key f = savings_value f) findings ->
  fold_left (fun sum finding => num_add sum (or_zero (Finding.estimatedMonthlySavings finding)))
            findings sum
  = fold_left (fun sum finding => num_add sum (savings_value finding)) findings sum.
Proof.
  induction findings as [|f r IH]; intros sum Hall; [reflexivity|].
  inversion Hall as [|? ? Hf Hr]; subst. cbn [fold_left].
  fold (savings_key f). rewrite Hf. now apply IH.
Qed.

Lemma cost_finding_savings (recommendation : Summary.t) (detail : Detail.t) :
  Finding.estimatedMonthlySavings (cost_finding recommendation detail)
  = Some (cost_savings recommendation)
  /\ is_nan (cost_savings recommendation) = false
  /\ savings_key (cost_finding recommendation detail) = cost_savings recommendation
  /\ savings_value (cost_finding recommendation detail) = cost_savings recommendation.
Proof.
  unfold savings_key, savings_value, cost_finding. cbn [Finding.estimatedMonthlySavings].
  unfold cost_savings. rewrite or_zero_idempotent.
  repeat split. apply or_zero_not_nan.
Qed.

(** C9: every finding of the cost provider carries an
    [estimatedMonthlySavings] that is a number and not [NaN], and that is
    [0] when the summary carries no savings figure; so on the provider's
    findings the [|| 0] guards of the comparator and of the sum change
    nothing, and both compute on numbers only: the comparator is the
    difference of the two properties, and the sum is the sum of the
    properties. *)
Theorem cost_savings_numeric :
  (forall recommendation detail,
     exists n,
       Finding.estimatedMonthlySavings (cost_finding recommendation detail) = Some n
       /\ is_nan n = false
       /\ (savings_omitted recommendation -> n = Fin 0))
  /\ (forall (W : Type) (client : Client W) (fuel : nat) (st st' : State W) findings,
        get_trusted_advisor_findings client fuel st = (Ok findings, st') ->
        Forall (made_by cost_finding) findings)
  /\ (forall findings,
        Forall (made_by cost_finding) findings ->
        Forall (fun f => exists n, Finding.estimatedMonthlySavings f = Some n
                                   /\ is_nan n = false) findings
        /\ (forall a b, In a findings -> In b findings ->
              by_savings a b = num_sub (savings_value b) (savings_value a))
        /\ total_savings findings
           = fold_left (fun sum f => num_add sum (savings_value f)) findings (Fin 0)).
Proof.
  split; [|split].
  - intros recommendation detail.
    destruct (cost_finding_savings recommendation detail) as (Hfield & Hnan & _).
    exists (cost_savings recommendation). repeat split; auto.
    unfold savings_omitted, cost_savings.
    destruct (Summary.pillarSpecificAggregates recommendation) as [p|]; [|reflexivity].
    destruct (PillarAggregates.costOptimizing p) as [c|]; [|reflexivity].
    now intros ->.
  - intros W client fuel st st' findings.
    unfold get_trusted_advisor_findings. rewrite rethrow_id.
    match goal with |- context [cost_pages client fuel ?i ?t ?f] =>
      destruct (cost_pages_any client fuel i t f st) as (r & st1 & Hrun & _ & Hres) end.
    unfold bind. rewrite Hrun. destruct r as [fs|e|]; try discriminate.
    unfold ret. intros [= <- <-].
    destruct (Hres fs eq_refl) as (more & -> & Hmade).
    now rewrite <- (Array_sort_perm by_savings).
  - intros findings Hmade.
    assert (Hkey : Forall (fun f => savings_key f = savings_value f) findings).
    { rewrite Forall_forall in *. intros f Hf.
      destruct (Hmade f Hf) as (item & detail & ->).
      destruct (cost_finding_savings item detail) as (_ & _ & -> & ->). reflexivity. }
    split; [|split].
    + rewrite Forall_forall in *. intros f Hf.
      destruct (Hmade f Hf) as (item & detail & ->).
      destruct (cost_finding_savings item detail) as (Hfield & Hnan & _). eauto.
    + rewrite Forall_forall in Hkey. intros a b Ha Hb.
      unfold by_savings. fold (savings_key a) (savings_key b).
      now rewrite (Hkey a Ha), (Hkey b Hb).
    + now apply fold_savings_ext.
Qed.

Lemma cost_savings_numeric_witness :
  Forall (made_by cost_finding)
    [cost_finding item_b sample_detail; cost_finding item_c sample_detail;
     cost_finding item_a sample_detail; cost_finding item_d sample_detail]
  /\ total_savings [cost_finding item_b sample_detail; cost_finding bare_summary sample_detail]
     = fold_left (fun sum f => num_add sum (savings_value f))
                 [cost_finding item_b sample_detail; cost_finding bare_summary sample_detail]
                 (Fin 0).
Proof.
  split.
  - apply (proj1 (proj2 cost_savings_numeric) Scripted.t Scripted.client 3%nat
             (start serves_all)
             {| world := lists_consumed serves_all;
                calls := page_calls first_cost_input [page_ab; page_cd];
                sink := [] |}).
    vm_compute. reflexivity.
  - apply (proj2 (proj2 cost_savings_numeric)).
    repeat constructor; eexists _, _; reflexivity.
Defined.

(* ===================================================================== *)
(** ** Pagination *)
(* ===================================================================== *)

Section ServedFacts.

Context {W : Type} (client : Client W).

Lemma resources_served_nonempty w input pages w' :
  ResourcesServed client w input pages LastPage w' -> pages <> [].
Proof. inversion 1; discriminate. Qed.

Lemma recommendations_served_nonempty w input pages w' :
  RecommendationsServed client w input pages LastPage w' -> pages <> [].
Proof. inversion 1; discriminate. Qed.

(** Every item of a served page got a reply to its detail fetch. *)
Lemma recommendations_served_replies w input pages ending w' :
  RecommendationsServed client w input pages ending w' ->
  Forall (fun p => List.length (snd p) = List.length (page_items (fst p))) pages.
Proof.
  induction 1 as [w input page w1 replies w2 Hlist Hdet Htok
                 |w input e w1 Hlist
                 |w input page w1 replies w2 pages ending w3 Hlist Hdet Htok Hrest IH].
  - constructor; [|constructor]. cbn.
    pose proof (detail_replies_length client (page_items page) w1) as Hlen.
    now rewrite Hdet in Hlen.
  - constructor.
  - constructor; [|exact IH]. cbn.
    pose proof (detail_replies_length client (page_items page) w1) as Hlen.
    now rewrite Hdet in Hlen.
Qed.

End ServedFacts.

Lemma all_kept_all_returned make_finding (pages : list (ListOutput.t * list Detail.t)) :
  Forall (fun p => List.length (snd p) = List.length (page_items (fst p))) pages ->
  all_kept make_finding (all_returned pages) = findings_of_items make_finding pages.
Proof.
  unfold all_kept, all_returned, findings_of_items.
  induction 1 as [|p pages Hlen _ IH]; [reflexivity|].
  cbn [map flat_map fst snd]. rewrite IH. f_equal.
  apply kept_findings_all_returned. now symmetry.
Qed.

Lemma findings_of_items_length make_finding (pages : list (ListOutput.t * list Detail.t)) :
  Forall (fun p => List.length (snd p) = List.length (page_items (fst p))) pages ->
  List.length (findings_of_items make_finding pages)
  = List.length (flat_map page_items (map fst pages)).
Proof.
  unfold findings_of_items.
  induction 1 as [|p pages Hlen _ IH]; [reflexivity|].
  cbn [map flat_map]. rewrite !length_app, IH, length_map, length_combine, Hlen.
  now rewrite Nat.min_id.
Qed.

Lemma all_returned_fst (pages : list (ListOutput.t * list Detail.t)) :
  map fst (all_returned pages) = map fst pages.
Proof. unfold all_returned. rewrite map_map. reflexivity. Qed.

Lemma all_returned_lengths (pages : list (ListOutput.t * list Detail.t)) :
  Forall (fun p => List.length (snd p) = List.length (page_items (fst p)))
         (all_returned pages) ->
  Forall (fun p => List.length (snd p) = List.length (page_items (fst p))) pages.
Proof.
  unfold all_returned. rewrite Forall_map. apply Forall_impl.
  intros p. cbn. now rewrite length_map.
Qed.

(** A field that a finding takes from its item is, over the findings
    kept, that field of the items whose detail fetch returned. *)
Lemma kept_findings_fields {A} (f : Finding.t -> A) (g : Summary.t -> A) make_finding :
  (forall item detail, f (make_finding item detail) = g item) ->
  forall items replies,
    map f (kept_findings make_finding items replies)
    = map g (map fst (filter (fun x => is_returned (snd x)) (combine items replies))).
Proof.
  intros Hfg.
  induction items as [|item items IH]; intros [|[detail|e] replies]; cbn; try reflexivity.
  - now rewrite Hfg, IH.
  - apply IH.
Qed.

Lemma all_kept_fields {A} (f : Finding.t -> A) (g : Summary.t -> A) make_finding :
  (forall item detail, f (make_finding item detail) = g item) ->
  forall pages, map f (all_kept make_finding pages) = map g (items_kept pages).
Proof.
  intros Hfg. unfold all_kept, items_kept.
  induction pages as [|p pages IH]; [reflexivity|].
  cbn [flat_map]. rewrite !map_app, IH. f_equal.
  now apply kept_findings_fields.
Qed.

Lemma kept_all_returned (items : list Summary.t) : forall (replies : list (Reply Detail.t)),
  List.length replies = List.length items ->
  forallb is_returned replies = true ->
  map fst (filter (fun x => is_returned (snd x)) (combine items replies)) = items.
Proof.
  induction items as [|item items IH]; intros [|reply replies] Hlen Hall;
    cbn in *; try reflexivity; try discriminate.
  apply andb_prop in Hall as [Hreply Hall]. rewrite Hreply. cbn.
  f_equal. apply IH; [now injection Hlen | exact Hall].
Qed.

(** When every detail fetch returned, the items kept are all the items
    of all the pages. *)
Lemma items_kept_all (pages : list (ListOutput.t * list (Reply Detail.t))) :
  Forall (fun p => List.length (snd p) = List.length (page_items (fst p))) pages ->
  every_fetch_returned pages ->
  items_kept pages = flat_map page_items (map fst pages).
Proof.
  unfold every_fetch_returned, items_kept.
  induction 1 as [|p pages Hlen _ IH]; intros Hall; [reflexivity|].
  inversion Hall as [|? ? Hp Hrest]; subst.
  cbn [flat_map map]. rewrite IH by exact Hrest. f_equal.
  now apply kept_all_returned.
Qed.


(* ===================================================================== *)
(** ** Partial failure of the enrichment *)
(* ===================================================================== *)

Lemma all_kept_length make_finding (pages : list (ListOutput.t * list (Reply Detail.t))) :
  Forall (fun p => List.length (snd p) = List.length (page_items (fst p))) pages ->
  List.length (all_kept make_finding pages)
  = List.length (filter is_returned (flat_map snd pages)).
Proof.
  unfold all_kept.
  induction 1 as [|p pages Hlen _ IH]; [reflexivity|].
  cbn [flat_map]. rewrite filter_app, !length_app, IH. f_equal.
  apply kept_findings_length. now symmetry.
Qed.

(** C3: the enrichment loop never throws: whatever subset of the detail
    fetches throws, it returns one finding for each item whose fetch
    returned, in the order of the items, and nothing for the others.
    When the listing itself succeeds, the cost handler and the security
    handler then answer with the success envelope (no [responseState]),
    whose payload holds exactly those findings: as many as there were
    detail fetches that returned, in arrival order for the security
    provider, and sorted by savings for the cost provider. *)
Theorem enrichment_isolates_failures {W} (client : Client W) (now : jsstring)
  (stringify_checks : Checks.t -> jsstring) (fuel : nat) (event : Event.t) (w w' : W)
  (pages : list (ListOutput.t * list (Reply Detail.t))) :
  (forall make_finding items findings (st : State W) replies w1,
     detail_replies client items (world st) = (replies, w1) ->
     enrich client make_finding items findings st
     = (Ok (findings ++ kept_findings make_finding items replies),
        {| world := w1;
           calls := calls st
                    ++ map (fun item => GetRecommendationCommand (Summary.arn item)) items;
           sink := sink st |})
     /\ List.length (kept_findings make_finding items replies)
        = List.length (filter is_returned replies))
  /\ (RecommendationsServed client w first_cost_input pages LastPage w' ->
      Forall has_items (map fst pages) ->
      (List.length pages < fuel)%nat ->
      cost_handler client now stringify_checks fuel event (start w)
      = (Ok tt,
         {| world := w';
            calls := page_calls first_cost_input (map fst pages);
            sink := answered
                      (function_response event
                         (stringify_checks
                            (cost_checks now
                               (Array_sort by_savings (all_kept cost_finding pages))))) |})
      /\ Permutation (all_kept cost_finding pages)
                     (Array_sort by_savings (all_kept cost_finding pages))
      /\ List.length (all_kept cost_finding pages)
         = List.length (filter is_returned (flat_map snd pages)))
  /\ (RecommendationsServed client w first_security_input pages LastPage w' ->
      (List.length pages < fuel)%nat ->
      security_handler client now stringify_checks fuel event (start w)
      = (Ok tt,
         {| world := w';
            calls := page_calls first_security_input (map fst pages);
            sink := answered
                      (function_response event
                         (stringify_checks
                            (security_checks now (all_kept security_finding pages)))) |})
      /\ List.length (all_kept security_finding pages)
         = List.length (filter is_returned (flat_map snd pages)))
  /\ (forall response_body, responseState (function_response event response_body) = None).
Proof.
  split; [|split; [|split]].
  - intros make_finding items findings st replies w1 Hdet.
    split; [now apply enrich_spec|].
    apply kept_findings_length.
    pose proof (detail_replies_length client items (world st)) as Hlen.
    now rewrite Hdet in Hlen.
  - intros Hserved Hitems Hfuel.
    split; [|split].
    + rewrite (cost_handler_served client now stringify_checks w pages LastPage w')
        by assumption.
      cbn [failing_call answer_for]. now rewrite app_nil_r.
    + apply Array_sort_perm.
    + apply all_kept_length. eapply recommendations_served_replies; eauto.
  - intros Hserved Hfuel.
    split.
    + rewrite (security_handler_served client now stringify_checks w pages LastPage w')
        by assumption.
      cbn [failing_call answer_for]. now rewrite app_nil_r.
    + apply all_kept_length. eapply recommendations_served_replies; eauto.
  - reflexivity.
Qed.

Lemma enrichment_isolates_failures_witness :
  security_handler Scripted.client sample_now sample_stringify_checks 2
    plain_event (start detail_of_b_throttled)
  = (Ok tt,
     {| world := nothing_recorded;
        calls := page_calls first_security_input [page_abc];
        sink := answered
                  (function_response plain_event
                     (sample_stringify_checks
                        (security_checks sample_now
                           [security_finding item_a sample_detail;
                            security_finding item_c sample_detail]))) |})
  /\ cost_handler Scripted.client sample_now sample_stringify_checks 2
       plain_event (start detail_of_b_throttled)
     = (Ok tt,
        {| world := nothing_recorded;
           calls := page_calls first_cost_input [page_abc];
           sink := answered
                     (function_response plain_event
                        (sample_stringify_checks
                           (cost_checks sample_now
                              [cost_finding item_c sample_detail;
                               cost_finding item_a sample_detail]))) |})
  /\ enrich Scripted.client security_finding [item_a; item_b; item_c] []
       (start (lists_consumed_only detail_of_b_throttled))
     = (Ok [security_finding item_a sample_detail; security_finding item_c sample_detail],
        {| world := nothing_recorded;
           calls := [GetRecommendationCommand (Summary.arn item_a);
                     GetRecommendationCommand (Summary.arn item_b);
                     GetRecommendationCommand (Summary.arn item_c)];
           sink := [] |}).
Proof.
  pose proof (enrichment_isolates_failures Scripted.client sample_now sample_stringify_checks
                2 plain_event detail_of_b_throttled nothing_recorded
                [(page_abc, [Returns sample_detail; Fails throttled; Returns sample_detail])])
    as (Henrich & Hcost & Hsecurity & _).
  split; [|split].
  - apply Hsecurity; [|cbn; lia].
    eapply served_last; reflexivity.
  - apply Hcost; [| repeat constructor; discriminate | cbn; lia].
    eapply served_last; reflexivity.
  - apply (Henrich security_finding [item_a; item_b; item_c] []
             (start (lists_consumed_only detail_of_b_throttled))
             [Returns sample_detail; Fails throttled; Returns sample_detail]
             nothing_recorded).
    reflexivity.
Defined.

(** The same service seen by the cost handler: two findings, [c] (30)
    before [a] (10), in the success envelope. *)
Example cost_handler_drops_b :
  cost_handler Scripted.client sample_now sample_stringify_checks 2 plain_event
    (start detail_of_b_throttled)
  = (Ok tt,
     {| world := nothing_recorded;
        calls := [ListRecommendationsCommand first_cost_input;
                  GetRecommendationCommand (Summary.arn item_a);
                  GetRecommendationCommand (Summary.arn item_b);
                  GetRecommendationCommand (Summary.arn item_c)];
        sink := answered
                  (function_response plain_event
                     (sample_stringify_checks
                        (cost_checks sample_now
                           [cost_finding item_c sample_detail;
                            cost_finding item_a sample_detail]))) |}).
Proof. vm_compute. reflexivity. Qed.

(* ===================================================================== *)
(** ** What the paginators accumulate *)
(* ===================================================================== *)

(** C2, as it holds of the code: when the service serves a listing page
    by page, every page but the last with a token and the last without
    one (absent or empty), the paginator returns, having sent one list
    call per page, the first without a token and each later one with the
    token of the page before it.  The resource provider has accumulated,
    page after page and item after item in the order served, one record
    for each item, and the record copies the item's nine fields ([arn]
    under the name [taResourceArn]).  The cost provider, whose loop
    fetches each item's detail on the way, has accumulated in the order
    served one finding for each item whose detail fetch returned, with
    that item's [arn], [name], [id] and [status], and nothing for an item
    whose fetch threw; when every fetch returned these are all the items
    of all the pages. *)
Theorem pagination_complete {W} (client : Client W) (fuel : nat) (st : State W) (w' : W) :
  (forall (id : jsstring) (pages : list ResourcesOutput.t),
     ResourcesServed client (world st) (first_resources_input id) pages LastPage w' ->
     (List.length pages < fuel)%nat ->
     get_resource_list client fuel id st
     = (Ok (flat_map (fun page => map resource_record (page_resources page)) pages),
        {| world := w';
           calls := calls st
                    ++ map ListRecommendationResourcesCommand
                           (resource_requests (first_resources_input id) pages);
           sink := sink st |})
     /\ List.length (resource_requests (first_resources_input id) pages) = List.length pages
     /\ map ResourcesInput.nextToken (resource_requests (first_resources_input id) pages)
        = None :: map ResourcesOutput.nextToken (removelast pages))
  /\ (forall resource : ResourceSummary.t,
        ResourceRecord.id (resource_record resource) = ResourceSummary.id resource
        /\ ResourceRecord.taResourceArn (resource_record resource)
           = ResourceSummary.arn resource
        /\ ResourceRecord.awsResourceId (resource_record resource)
           = ResourceSummary.awsResourceId resource
        /\ ResourceRecord.regionCode (resource_record resource)
           = ResourceSummary.regionCode resource
        /\ ResourceRecord.status (resource_record resource) = ResourceSummary.status resource
        /\ ResourceRecord.metadata (resource_record resource)
           = ResourceSummary.metadata resource
        /\ ResourceRecord.lastUpdatedAt (resource_record resource)
           = ResourceSummary.lastUpdatedAt resource
        /\ ResourceRecord.exclusionStatus (resource_record resource)
           = ResourceSummary.exclusionStatus resource
        /\ ResourceRecord.recommendationArn (resource_record resource)
           = ResourceSummary.recommendationArn resource)
  /\ (forall (pages : list (ListOutput.t * list (Reply Detail.t))),
        RecommendationsServed client (world st) first_cost_input pages LastPage w' ->
        Forall has_items (map fst pages) ->
        (List.length pages < fuel)%nat ->
        cost_pages client fuel first_cost_input None [] st
        = (Ok (all_kept cost_finding pages),
           {| world := w';
              calls := calls st ++ page_calls first_cost_input (map fst pages);
              sink := sink st |})
        /\ map Finding.recommendationIdentifier (all_kept cost_finding pages)
           = map Summary.arn (items_kept pages)
        /\ map Finding.checkName (all_kept cost_finding pages)
           = map Summary.name (items_kept pages)
        /\ map Finding.checkId (all_kept cost_finding pages)
           = map Summary.id (items_kept pages)
        /\ map Finding.status (all_kept cost_finding pages)
           = map Summary.status (items_kept pages)
        /\ List.length (all_kept cost_finding pages)
           = List.length (filter is_returned (flat_map snd pages))
        /\ (every_fetch_returned pages ->
            items_kept pages = flat_map page_items (map fst pages))
        /\ list_commands (page_calls first_cost_input (map fst pages))
           = list_requests first_cost_input (map fst pages)
        /\ List.length (list_requests first_cost_input (map fst pages)) = List.length pages
        /\ map ListInput.nextToken (list_requests first_cost_input (map fst pages))
           = None :: map ListOutput.nextToken (removelast (map fst pages))).
Proof.
  split; [|split].
  - intros id pages Hserved Hfuel.
    split; [|split].
    + erewrite get_resource_list_served by eauto. cbn. now rewrite app_nil_r.
    + apply resource_requests_length.
    + apply resource_requests_tokens. eapply resources_served_nonempty; eauto.
  - intros resource. repeat split.
  - intros pages Hserved Hitems Hfuel.
    pose proof (recommendations_served_replies client _ _ _ _ _ Hserved) as Hlen.
    split; [|split; [|split; [|split; [|split; [|split; [|split; [|split; [|split]]]]]]]].
    + erewrite (cost_pages_spec client) by (try exact Hserved; try reflexivity; auto).
      cbn. fold (all_kept cost_finding pages).
      now rewrite app_nil_r.
    + now apply all_kept_fields.
    + now apply all_kept_fields.
    + now apply all_kept_fields.
    + now apply all_kept_fields.
    + now apply all_kept_length.
    + now apply items_kept_all.
    + apply list_commands_page_calls.
    + rewrite list_requests_length. apply length_map.
    + apply list_requests_tokens.
      apply recommendations_served_nonempty in Hserved.
      destruct pages; [now contradiction Hserved | discriminate].
Qed.

(** C2 as stated fails for the cost provider: the service serves one page
    with the items [a], [b], [c] and no token, and the detail fetch of
    [b] throws; the loop returns two findings, those of [a] and [c], and
    not one for each of the three items served. *)
Lemma cost_pages_skips_failed_item :
  RecommendationsServed Scripted.client detail_of_b_throttled first_cost_input
    [(page_abc, [Returns sample_detail; Fails throttled; Returns sample_detail])]
    LastPage nothing_recorded
  /\ page_items page_abc = [item_a; item_b; item_c]
  /\ ListOutput.nextToken page_abc = None
  /\ cost_pages Scripted.client 2 first_cost_input None [] (start detail_of_b_throttled)
     = (Ok [cost_finding item_a sample_detail; cost_finding item_c sample_detail],
        {| world := nothing_recorded;
           calls := [ListRecommendationsCommand first_cost_input;
                     GetRecommendationCommand (Summary.arn item_a);
                     GetRecommendationCommand (Summary.arn item_b);
                     GetRecommendationCommand (Summary.arn item_c)];
           sink := [] |})
  /\ map Finding.checkName [cost_finding item_a sample_detail;
                            cost_finding item_c sample_detail]
     = [Some (lit "a"); Some (lit "c")]
  /\ map Summary.name (page_items page_abc) = [Some (lit "a"); Some (lit "b"); Some (lit "c")]
  /\ List.length [cost_finding item_a sample_detail; cost_finding item_c sample_detail]
     <> List.length (page_items page_abc).
Proof.
  split; [eapply served_last; reflexivity|].
  split; [reflexivity|]. split; [reflexivity|]. split; [reflexivity|].
  split; [reflexivity|]. split; [reflexivity|].
  cbn. discriminate.
Qed.

Lemma pagination_complete_witness :
  get_resource_list Scripted.client 3 (lit "arn:rec/1") (start serves_all)
  = (Ok (map resource_record
           [sample_resource "r1"; sample_resource "r2"; sample_resource "r3"]),
     {| world := resources_consumed serves_all;
        calls := [ListRecommendationResourcesCommand
                    (first_resources_input (lit "arn:rec/1"));
                  ListRecommendationResourcesCommand
                    (ResourcesInput.with_nextToken (first_resources_input (lit "arn:rec/1"))
                       (Some (lit "t1")))];
        sink := [] |})
  /\ cost_pages Scripted.client 3 first_cost_input None [] (start serves_all)
     = (Ok [cost_finding item_a sample_detail; cost_finding item_b sample_detail;
            cost_finding item_c sample_detail; cost_finding item_d sample_detail],
        {| world := lists_consumed serves_all;
           calls := [ListRecommendationsCommand first_cost_input;
                     GetRecommendationCommand (Summary.arn item_a);
                     GetRecommendationCommand (Summary.arn item_b);
                     ListRecommendationsCommand
                       (ListInput.with_nextToken first_cost_input (Some (lit "t1")));
                     GetRecommendationCommand (Summary.arn item_c);
                     GetRecommendationCommand (Summary.arn item_d)];
           sink := [] |})
  /\ cost_pages Scripted.client 2 first_cost_input None [] (start detail_of_b_throttled)
     = (Ok [cost_finding item_a sample_detail; cost_finding item_c sample_detail],
        {| world := nothing_recorded;
           calls := [ListRecommendationsCommand first_cost_input;
                     GetRecommendationCommand (Summary.arn item_a);
                     GetRecommendationCommand (Summary.arn item_b);
                     GetRecommendationCommand (Summary.arn item_c)];
           sink := [] |}).
Proof.
  split; [|split].
  - apply (proj1 (pagination_complete Scripted.client 3 (start serves_all)
                    (resources_consumed serves_all))
             (lit "arn:rec/1") [resources_12; resources_3]).
    + eapply resources_next; [reflexivity | reflexivity |].
      eapply resources_last; reflexivity.
    + cbn. lia.
  - apply (proj2 (proj2 (pagination_complete Scripted.client 3 (start serves_all)
                           (lists_consumed serves_all)))
             [(page_ab, [Returns sample_detail; Returns sample_detail]);
              (page_cd, [Returns sample_detail; Returns sample_detail])]).
    + eapply served_next; [reflexivity | reflexivity | reflexivity |].
      eapply served_last; reflexivity.
    + repeat constructor; discriminate.
    + cbn. lia.
  - apply (proj2 (proj2 (pagination_complete Scripted.client 2 (start detail_of_b_throttled)
                           nothing_recorded))
             [(page_abc, [Returns sample_detail; Fails throttled; Returns sample_detail])]).
    + eapply served_last; reflexivity.
    + repeat constructor; discriminate.
    + cbn. lia.
Defined.

(* ===================================================================== *)
(** ** More on the chunked streamer *)
(* ===================================================================== *)

Lemma strlen_slice_exact (s : jsstring) (i : N) :
  i <= strlen s ->
  strlen (slice s i (i + CHUNK_SIZE)) = N.min CHUNK_SIZE (strlen s - i).
Proof.
  unfold slice, strlen. intros Hi.
  replace (i + CHUNK_SIZE - i) with CHUNK_SIZE by lia.
  rewrite length_firstn, length_skipn. lia.
Qed.

Lemma slices_shape (fuel : nat) (chunk : jsstring) :
  forall i : N,
    i < strlen chunk ->
    strlen chunk <= i + N.of_nat fuel * CHUNK_SIZE ->
    exists init last,
      slices (S fuel) chunk i = init ++ [last]
      /\ Forall (fun c => strlen c = CHUNK_SIZE) init
      /\ 0 < strlen last <= CHUNK_SIZE
      /\ strlen chunk = i + N.of_nat (List.length init) * CHUNK_SIZE + strlen last.
Proof.
  pose proof CHUNK_SIZE_pos as Hpos.
  induction fuel as [|fuel IH]; intros i Hlt Hfuel; [cbn in Hfuel; lia|].
  change (slices (S (S fuel)) chunk i) with
    (if i <? strlen chunk then
       slice chunk i (i + CHUNK_SIZE) :: slices (S fuel) chunk (i + CHUNK_SIZE)
     else []).
  destruct (N.ltb_spec i (strlen chunk)) as [_|Hge]; [|lia].
  pose proof (strlen_slice_exact chunk i ltac:(lia)) as Hslice.
  destruct (N.ltb_spec (i + CHUNK_SIZE) (strlen chunk)) as [Hmore|Hlast].
  - destruct (IH (i + CHUNK_SIZE) Hmore ltac:(lia)) as (init & last & Heq & Hinit & Hlast & Hlen).
    exists (slice chunk i (i + CHUNK_SIZE) :: init), last.
    rewrite Heq. repeat split; try tauto.
    + constructor; [lia | exact Hinit].
    + cbn [List.length]. lia.
  - exists [], (slice chunk i (i + CHUNK_SIZE)).
    replace (slices (S fuel) chunk (i + CHUNK_SIZE)) with (@nil jsstring).
    + repeat split; try constructor; cbn [List.length]; lia.
    + cbn [slices]. destruct (N.ltb_spec (i + CHUNK_SIZE) (strlen chunk)); [lia | reflexivity].
Qed.

Lemma JSON_stringify_nonempty (r : Envelope) : 0 < strlen (JSON_stringify r).
Proof. unfold JSON_stringify, json_object, strlen. cbn [List.length]. lia. Qed.

(** The chunks of a non-empty serialization: all of [CHUNK_SIZE] code
    units but the last, which is not empty. *)
Lemma chunks_of_shape (json : jsstring) :
  0 < strlen json ->
  exists init last,
    chunks_of json = init ++ [last]
    /\ Forall (fun c => strlen c = CHUNK_SIZE) init
    /\ 0 < strlen last <= CHUNK_SIZE
    /\ strlen json = N.of_nat (List.length init) * CHUNK_SIZE + strlen last.
Proof.
  pose proof CHUNK_SIZE_pos as Hpos. intros Hne. unfold chunks_of.
  destruct (N.ltb_spec CHUNK_SIZE (strlen json)) as [Hbig|Hsmall].
  - destruct (slices_shape (List.length json) json 0) as (init & last & Heq & Hinit & Hlast & Hlen);
      [lia | unfold strlen; nia |].
    exists init, last. repeat split; try tauto; lia.
  - exists [], json. repeat split; try constructor; cbn [List.length]; lia.
Qed.

(** The chunks written by [streamFunctionResponse] are cut at multiples
    of [CHUNK_SIZE]: every chunk but the last has exactly 25,600 code
    units, the last one is not empty, and so the number of chunks is the
    length of the serialization divided by 25,600, rounded up. *)
Theorem streamFunctionResponse_chunk_count {W} (function_response : Envelope) (st : State W) :
  exists init last,
    streamFunctionResponse function_response st
      = (Ok tt, written st (map Write (init ++ [last]) ++ [End_]))
    /\ Forall (fun c => strlen c = CHUNK_SIZE) init
    /\ 0 < strlen last <= CHUNK_SIZE
    /\ strlen (JSON_stringify function_response)
       = N.of_nat (List.length init) * CHUNK_SIZE + strlen last
    /\ N.of_nat (List.length (init ++ [last]))
       = (strlen (JSON_stringify function_response) + CHUNK_SIZE - 1) / CHUNK_SIZE.
Proof.
  pose proof CHUNK_SIZE_pos as Hpos.
  destruct (chunks_of_shape (JSON_stringify function_response)
              (JSON_stringify_nonempty function_response))
    as (init & last & Heq & Hinit & Hlast & Hlen).
  exists init, last.
  rewrite streamFunctionResponse_streamed. unfold streamed. rewrite Heq.
  repeat split; try tauto.
  rewrite length_app. cbn [List.length].
  apply N.div_unique with (r := strlen last - 1); lia.
Qed.

Lemma byteLength_le_3 (s : jsstring) : byteLength s <= 3 * strlen s.
Proof.
  unfold strlen.
  assert (H : forall n (t : jsstring), (List.length t <= n)%nat ->
                byteLength t <= 3 * N.of_nat (List.length t)).
  { induction n as [|n IH]; intros t Hn.
    - destruct t; cbn in *; lia.
    - destruct t as [|c r]; [cbn; lia|].
      cbn [List.length] in Hn.
      assert (Hr : byteLength r <= 3 * N.of_nat (List.length r)) by (apply IH; lia).
      cbn [byteLength List.length].
      destruct (c <? 128); [lia|].
      destruct (c <? 2048); [lia|].
      destruct (is_high_surrogate c); [|lia].
      destruct r as [|d r']; [cbn; lia|].
      destruct (is_low_surrogate d); [|lia].
      assert (byteLength r' <= 3 * N.of_nat (List.length r'))
        by (apply IH; cbn [List.length] in *; lia).
      cbn [List.length]. lia. }
  apply (H (List.length s)). lia.
Qed.

(** Whatever the text, a chunk written by [streamFunctionResponse] is at
    most 76,800 bytes of UTF-8 (three bytes for each of its at most
    25,600 code units), and at least as many bytes as it has code
    units. *)
Theorem streamFunctionResponse_chunk_bytes {W} (function_response : Envelope) (st : State W) :
  exists chunks,
    streamFunctionResponse function_response st
      = (Ok tt, written st (map Write chunks ++ [End_]))
    /\ Forall (fun c => strlen c <= byteLength c <= 76800) chunks.
Proof.
  destruct (chunks_of_shape (JSON_stringify function_response)
              (JSON_stringify_nonempty function_response))
    as (init & last & Heq & Hinit & Hlast & _).
  exists (init ++ [last]).
  rewrite streamFunctionResponse_streamed. unfold streamed. rewrite Heq.
  split; [reflexivity|].
  assert (HC : 3 * CHUNK_SIZE = 76800) by reflexivity.
  apply Forall_app. split.
  - rewrite Forall_forall in *. intros c Hc. specialize (Hinit c Hc).
    pose proof (byteLength_le_3 c). pose proof (strlen_le_byteLength c). lia.
  - constructor; [|constructor].
    pose proof (byteLength_le_3 last). pose proof (strlen_le_byteLength last). lia.
Qed.

(* ===================================================================== *)
(** ** The commands a handler sends, whatever the service does *)
(* ===================================================================== *)

Section CommandsSent.

Context {W : Type} (client : Client W).

Lemma send_calls {A} (cmd : Command) (call : W -> Reply A * W) (st : State W) :
  calls (snd (send cmd call st)) = calls st ++ [cmd].
Proof. unfold send. now destruct (call (world st)) as [[a|e] w']. Qed.

Lemma send_run {A} (cmd : Command) (call : W -> Reply A * W) (st : State W) :
  exists r st',
    send cmd call st = (r, st') /\ calls st' = calls st ++ [cmd] /\ r <> OutOfFuel.
Proof.
  pose proof (send_calls cmd call st) as Hcalls.
  destruct (send_any cmd call st) as (r & st' & Hsend & _ & Hr).
  rewrite Hsend in Hcalls. now exists r, st'.
Qed.

Lemma enrich_calls make_finding items findings (st : State W) :
  exists fs st',
    enrich client make_finding items findings st = (Ok fs, st')
    /\ calls st' = calls st
                   ++ map (fun item => GetRecommendationCommand (Summary.arn item)) items.
Proof.
  destruct (detail_replies client items (world st)) as [replies w'] eqn:Hd.
  eexists _, _. split; [apply enrich_spec; exact Hd | reflexivity].
Qed.

Lemma detail_commands pillar (items : list Summary.t) :
  Forall (recommendations_command pillar)
         (map (fun item => GetRecommendationCommand (Summary.arn item)) items).
Proof. induction items; cbn; constructor; cbn; auto. Qed.

Lemma cost_pages_calls fuel : forall input nextToken findings (st : State W),
  recommendations_command (lit "cost_optimizing") (ListRecommendationsCommand input) ->
  exists more,
    calls (snd (cost_pages client fuel input nextToken findings st)) = calls st ++ more
    /\ Forall (recommendations_command (lit "cost_optimizing")) more
    /\ starts_with
         (ListRecommendationsCommand
            (if truthy nextToken then ListInput.with_nextToken input nextToken else input))
         more.
Proof.
  induction fuel as [|fuel IH]; intros input nextToken findings st Hinput.
  - exists []. cbn. rewrite app_nil_r. repeat split; [constructor | now left].
  - cbn [cost_pages].
    set (input' := if truthy nextToken then ListInput.with_nextToken input nextToken else input).
    assert (Hinput' : recommendations_command (lit "cost_optimizing")
                        (ListRecommendationsCommand input')).
    { subst input'. now destruct (truthy nextToken). }
    destruct (send_run (ListRecommendationsCommand input') (listRecommendations client input') st)
      as (r & st1 & Hsend & Hcalls1 & Hfuel).
    assert (Hone : exists more,
               calls st1 = calls st ++ more
               /\ Forall (recommendations_command (lit "cost_optimizing")) more
               /\ starts_with (ListRecommendationsCommand input') more).
    { exists [ListRecommendationsCommand input']. repeat split; auto.
      right. now exists []. }
    destruct r as [response|e|]; [| |congruence].
    + erewrite bind_ok by exact Hsend.
      destruct (ListOutput.recommendationSummaries response) as [items|]; [|exact Hone].
      destruct (enrich_calls cost_finding items findings st1) as (fs & st2 & Hen & Hcalls2).
      unfold enrich_cost. erewrite bind_ok by exact Hen.
      destruct (truthy (ListOutput.nextToken response)).
      * destruct (IH input' (ListOutput.nextToken response) fs st2 Hinput')
          as (more & Hmore & Hall & _).
        eexists. rewrite Hmore, Hcalls2, Hcalls1, <- !app_assoc.
        split; [reflexivity|]. split.
        -- constructor; [exact Hinput'|]. apply Forall_app. split; [apply detail_commands | exact Hall].
        -- right. eexists. reflexivity.
      * eexists. cbn [snd ret]. rewrite Hcalls2, Hcalls1, <- !app_assoc.
        split; [reflexivity|]. split.
        -- constructor; [exact Hinput'|]. apply detail_commands.
        -- right. eexists. reflexivity.
    + erewrite bind_throw by exact Hsend. exact Hone.
Qed.

Lemma security_pages_calls fuel : forall nextToken findings (st : State W),
  exists more,
    calls (snd (security_pages client fuel nextToken findings st)) = calls st ++ more
    /\ Forall (recommendations_command (lit "security")) more
    /\ starts_with
         (ListRecommendationsCommand
            (if truthy nextToken
             then ListInput.with_nextToken first_security_input nextToken
             else first_security_input))
         more.
Proof.
  induction fuel as [|fuel IH]; intros nextToken findings st.
  - exists []. cbn. rewrite app_nil_r. repeat split; [constructor | now left].
  - cbn [security_pages]. rewrite security_input_eq.
    set (input' := if truthy nextToken
                   then ListInput.with_nextToken first_security_input nextToken
                   else first_security_input).
    assert (Hinput' : recommendations_command (lit "security")
                        (ListRecommendationsCommand input')).
    { subst input'. now destruct (truthy nextToken). }
    destruct (send_run (ListRecommendationsCommand input') (listRecommendations client input') st)
      as (r & st1 & Hsend & Hcalls1 & Hfuel).
    destruct r as [response|e|]; [| |congruence].
    + erewrite bind_ok by exact Hsend.
      match goal with |- context [enrich_security client ?items findings] =>
        destruct (enrich_calls security_finding items findings st1)
          as (fs & st2 & Hen & Hcalls2) end.
      unfold enrich_security. erewrite bind_ok by exact Hen.
      destruct (truthy (ListOutput.nextToken response)).
      * destruct (IH (ListOutput.nextToken response) fs st2) as (more & Hmore & Hall & _).
        eexists. rewrite Hmore, Hcalls2, Hcalls1, <- !app_assoc.
        split; [reflexivity|]. split.
        -- constructor; [exact Hinput'|]. apply Forall_app. split; [apply detail_commands | exact Hall].
        -- right. eexists. reflexivity.
      * eexists. cbn [snd ret]. rewrite Hcalls2, Hcalls1, <- !app_assoc.
        split; [reflexivity|]. split.
        -- constructor; [exact Hinput'|]. apply detail_commands.
        -- right. eexists. reflexivity.
    + erewrite bind_throw by exact Hsend.
      exists [ListRecommendationsCommand input']. repeat split; auto.
      right. now exists [].
Qed.

Lemma resource_pages_calls id fuel : forall input nextToken resources (st : State W),
  resources_command id (ListRecommendationResourcesCommand input) ->
  exists more,
    calls (snd (resource_pages client fuel input nextToken resources st)) = calls st ++ more
    /\ Forall (resources_command id) more
    /\ starts_with
         (ListRecommendationResourcesCommand
            (if truthy nextToken then ResourcesInput.with_nextToken input nextToken else input))
         more.
Proof.
  induction fuel as [|fuel IH]; intros input nextToken resources st Hinput.
  - exists []. cbn. rewrite app_nil_r. repeat split; [constructor | now left].
  - cbn [resource_pages].
    set (input' := if truthy nextToken then ResourcesInput.with_nextToken input nextToken
                   else input).
    assert (Hinput' : resources_command id (ListRecommendationResourcesCommand input')).
    { subst input'. now destruct (truthy nextToken). }
    destruct (send_run (ListRecommendationResourcesCommand input')
                (listRecommendationResources client input') st)
      as (r & st1 & Hsend & Hcalls1 & Hfuel).
    destruct r as [response|e|]; [| |congruence].
    + erewrite bind_ok by exact Hsend.
      destruct (truthy (ResourcesOutput.nextToken response)).
      * match goal with |- context [resource_pages client fuel input' ?t ?rs st1] =>
          destruct (IH input' t rs st1 Hinput') as (more & Hmore & Hall & _) end.
        eexists. rewrite Hmore, Hcalls1, <- !app_assoc.
        split; [reflexivity|]. split.
        -- constructor; [exact Hinput' | exact Hall].
        -- right. eexists. reflexivity.
      * exists [ListRecommendationResourcesCommand input']. repeat split; auto.
        right. now exists [].
    + erewrite bind_throw by exact Hsend.
      exists [ListRecommendationResourcesCommand input']. repeat split; auto.
      right. now exists [].
Qed.

End CommandsSent.

(** Whatever the remote service replies, and however long the listing
    goes on: the cost handler sends nothing but list requests for the
    pillar ["cost_optimizing"] (status ["warning"], at most 200 results)
    and detail fetches; the security handler the same for the pillar
    ["security"]; the resource handler nothing but list requests (at most
    200 results) for the value of the first parameter named
    [recommendationIdentifier].  Each starts with its list request
    without a token. *)
Theorem handlers_send_only_their_commands {W} (client : Client W) (now : jsstring)
  (stringify_checks : Checks.t -> jsstring)
  (stringify_resourcesData : ResourcesData.t -> jsstring)
  (fuel : nat) (event : Event.t) (w : W) :
  (Forall (recommendations_command (lit "cost_optimizing"))
          (calls (snd (cost_handler client now stringify_checks fuel event (start w))))
   /\ starts_with (ListRecommendationsCommand first_cost_input)
        (calls (snd (cost_handler client now stringify_checks fuel event (start w)))))
  /\ (Forall (recommendations_command (lit "security"))
             (calls (snd (security_handler client now stringify_checks fuel event (start w))))
      /\ starts_with (ListRecommendationsCommand first_security_input)
           (calls (snd (security_handler client now stringify_checks fuel event (start w)))))
  /\ (Forall (resources_command (or_empty (find_recommendationIdentifier event)))
             (calls (snd (resources_handler client now stringify_resourcesData fuel event
                            (start w))))
      /\ starts_with
           (ListRecommendationResourcesCommand
              (first_resources_input (or_empty (find_recommendationIdentifier event))))
           (calls (snd (resources_handler client now stringify_resourcesData fuel event
                          (start w))))).
Proof.
  set (st0 := written (start w) [SetContentType (lit "application/json")]).
  assert (Hanswered : forall A (out : Result A * State W) (f : A -> Envelope) (g : Error -> Envelope),
             calls (snd match out with
                        | (Ok x, st') => (Ok tt, written st' (streamed (f x)))
                        | (Throw e, st') => (Ok tt, written st' (streamed (g e)))
                        | (OutOfFuel, st') => (@OutOfFuel unit, st')
                        end) = calls (snd out)).
  { intros A [[x|e|] st'] f g; reflexivity. }
  split; [|split].
  - rewrite cost_handler_answers. fold st0.
    rewrite (Hanswered _ _ (fun findings => function_response event _)
               (fun e => error_function_response event e)).
    unfold get_trusted_advisor_findings. rewrite rethrow_id.
    destruct (cost_pages_calls client fuel first_cost_input None [] st0)
      as (more & Hcalls & Hall & Hstart); [cbn; auto|].
    assert (Heq : calls (snd (bind (cost_pages client fuel first_cost_input None [])
                                (fun findings => ret (Array_sort by_savings findings)) st0))
                  = more).
    { unfold bind.
      destruct (cost_pages client fuel first_cost_input None [] st0) as [[fs|e|] st'];
        exact Hcalls. }
    unfold first_cost_input in *. rewrite Heq. split; assumption.
  - rewrite security_handler_answers. fold st0.
    rewrite (Hanswered _ _ (fun findings => function_response event _)
               (fun e => error_function_response event e)).
    unfold get_security_findings.
    destruct (security_pages_calls client fuel None [] st0) as (more & Hcalls & Hall & Hstart).
    cbn [calls st0 written start app] in Hcalls. rewrite Hcalls. split; assumption.
  - rewrite resources_handler_answers. fold st0.
    destruct (truthy (find_recommendationIdentifier event)).
    + rewrite (Hanswered _ _ (fun resources => function_response event _)
                 (fun e => error_function_response event e)).
      unfold get_resource_list. rewrite rethrow_id.
      destruct (resource_pages_calls client (or_empty (find_recommendationIdentifier event))
                  fuel (first_resources_input (or_empty (find_recommendationIdentifier event)))
                  None [] st0)
        as (more & Hcalls & Hall & Hstart); [cbn; auto|].
      cbn [calls st0 written start app] in Hcalls.
      unfold first_resources_input in *. rewrite Hcalls. split; assumption.
    + cbn. split; [constructor | now left].
Qed.

(* ===================================================================== *)
(** ** A listing that never ends *)
(* ===================================================================== *)

Section EndlessListing.

Context {W : Type} (client : Client W).

Lemma list_commands_length_app (a b : list Command) :
  List.length (list_commands (a ++ b))
  = (List.length (list_commands a) + List.length (list_commands b))%nat.
Proof. now rewrite list_commands_app, length_app. Qed.

Lemma cost_pages_endless :
  recommendations_never_end client ->
  forall fuel input nextToken findings (st : State W),
    fst (cost_pages client fuel input nextToken findings st) = OutOfFuel
    /\ sink (snd (cost_pages client fuel input nextToken findings st)) = sink st
    /\ List.length (list_commands (calls (snd (cost_pages client fuel input nextToken
                                                 findings st))))
       = (List.length (list_commands (calls st)) + fuel)%nat.
Proof.
  intros Hendless. induction fuel as [|fuel IH]; intros input nextToken findings st.
  - cbn. auto.
  - cbn [cost_pages].
    set (input' := if truthy nextToken then ListInput.with_nextToken input nextToken else input).
    destruct (Hendless input' (world st)) as (page & w1 & Hlist & Hitems & Htok).
    sent Hlist. unfold has_items in Hitems.
    destruct (ListOutput.recommendationSummaries page) as [items|]; [|congruence].
    destruct (enrich_calls client cost_finding items findings
                {| world := w1; calls := calls st ++ [ListRecommendationsCommand input'];
                   sink := sink st |}) as (fs & st2 & Hen & Hcalls2).
    destruct (enrich_any client cost_finding items findings
                {| world := w1; calls := calls st ++ [ListRecommendationsCommand input'];
                   sink := sink st |}) as (more & st2' & Hen' & Hsink2 & _).
    rewrite Hen in Hen'. injection Hen' as _ <-.
    unfold enrich_cost. erewrite bind_ok by exact Hen.
    rewrite Htok.
    destruct (IH input' (ListOutput.nextToken page) fs st2) as (Hfst & Hsink & Hlen).
    split; [exact Hfst|]. split; [now rewrite Hsink, Hsink2|].
    rewrite Hlen, Hcalls2. cbn [calls].
    rewrite !list_commands_length_app, list_commands_details. cbn. lia.
Qed.

Lemma security_pages_endless :
  recommendations_never_end client ->
  forall fuel nextToken findings (st : State W),
    fst (security_pages client fuel nextToken findings st) = OutOfFuel
    /\ sink (snd (security_pages client fuel nextToken findings st)) = sink st
    /\ List.length (list_commands (calls (snd (security_pages client fuel nextToken
                                                 findings st))))
       = (List.length (list_commands (calls st)) + fuel)%nat.
Proof.
  intros Hendless. induction fuel as [|fuel IH]; intros nextToken findings st.
  - cbn. auto.
  - cbn [security_pages]. rewrite security_input_eq.
    set (input' := if truthy nextToken
                   then ListInput.with_nextToken first_security_input nextToken
                   else first_security_input).
    destruct (Hendless input' (world st)) as (page & w1 & Hlist & _ & Htok).
    sent Hlist. fold (page_items page).
    destruct (enrich_calls client security_finding (page_items page) findings
                {| world := w1; calls := calls st ++ [ListRecommendationsCommand input'];
                   sink := sink st |}) as (fs & st2 & Hen & Hcalls2).
    destruct (enrich_any client security_finding (page_items page) findings
                {| world := w1; calls := calls st ++ [ListRecommendationsCommand input'];
                   sink := sink st |}) as (more & st2' & Hen' & Hsink2 & _).
    rewrite Hen in Hen'. injection Hen' as _ <-.
    unfold enrich_security. erewrite bind_ok by exact Hen.
    rewrite Htok.
    destruct (IH (ListOutput.nextToken page) fs st2) as (Hfst & Hsink & Hlen).
    split; [exact Hfst|]. split; [now rewrite Hsink, Hsink2|].
    rewrite Hlen, Hcalls2. cbn [calls].
    rewrite !list_commands_length_app, list_commands_details. cbn. lia.
Qed.

Lemma resource_pages_endless :
  resources_never_end client ->
  forall fuel input nextToken resources (st : State W),
    fst (resource_pages client fuel input nextToken resources st) = OutOfFuel
    /\ sink (snd (resource_pages client fuel input nextToken resources st)) = sink st
    /\ List.length (calls (snd (resource_pages client fuel input nextToken resources st)))
       = (List.length (calls st) + fuel)%nat.
Proof.
  intros Hendless. induction fuel as [|fuel IH]; intros input nextToken resources st.
  - cbn. auto.
  - cbn [resource_pages].
    set (input' := if truthy nextToken then ResourcesInput.with_nextToken input nextToken
                   else input).
    destruct (Hendless input' (world st)) as (page & w1 & Hlist & Htok).
    sent Hlist. rewrite Htok.
    match goal with |- context [resource_pages client fuel input' ?t ?rs ?s] =>
      destruct (IH input' t rs s) as (Hfst & Hsink & Hlen) end.
    split; [exact Hfst|]. split; [exact Hsink|].
    rewrite Hlen. cbn [calls]. rewrite length_app. cbn. lia.
Qed.

End EndlessListing.

(** The pagination loops have no bound of their own: against a service
    that returns a token with every page, no number of rounds is enough.
    Within any bound the handler is still listing: it has sent as many
    list calls as there were rounds, and the stream has received the
    content type and nothing else, neither a chunk nor the end signal. *)
Theorem endless_listing_never_answers {W} (client : Client W) (now : jsstring)
  (stringify_checks : Checks.t -> jsstring)
  (stringify_resourcesData : ResourcesData.t -> jsstring)
  (fuel : nat) (event : Event.t) (w : W) :
  (recommendations_never_end client ->
   fst (cost_handler client now stringify_checks fuel event (start w)) = OutOfFuel
   /\ sink (snd (cost_handler client now stringify_checks fuel event (start w)))
      = [SetContentType (lit "application/json")]
   /\ List.length (list_commands
                     (calls (snd (cost_handler client now stringify_checks fuel event
                                    (start w))))) = fuel)
  /\ (recommendations_never_end client ->
      fst (security_handler client now stringify_checks fuel event (start w)) = OutOfFuel
      /\ sink (snd (security_handler client now stringify_checks fuel event (start w)))
         = [SetContentType (lit "application/json")]
      /\ List.length (list_commands
                        (calls (snd (security_handler client now stringify_checks fuel event
                                       (start w))))) = fuel)
  /\ (resources_never_end client ->
      truthy (find_recommendationIdentifier event) = true ->
      fst (resources_handler client now stringify_resourcesData fuel event (start w))
      = OutOfFuel
      /\ sink (snd (resources_handler client now stringify_resourcesData fuel event (start w)))
         = [SetContentType (lit "application/json")]
      /\ List.length (calls (snd (resources_handler client now stringify_resourcesData fuel
                                    event (start w)))) = fuel).
Proof.
  set (st0 := written (start w) [SetContentType (lit "application/json")]).
  split; [|split].
  - intros Hendless.
    destruct (cost_pages_endless client Hendless fuel first_cost_input None [] st0)
      as (Hfst & Hsink & Hlen).
    rewrite cost_handler_answers. fold st0.
    unfold get_trusted_advisor_findings. rewrite rethrow_id. unfold bind.
    fold first_cost_input.
    destruct (cost_pages client fuel first_cost_input None [] st0) as [r st'].
    cbn [fst snd] in *. subst r. cbn [fst snd]. auto.
  - intros Hendless.
    destruct (security_pages_endless client Hendless fuel None [] st0)
      as (Hfst & Hsink & Hlen).
    rewrite security_handler_answers. fold st0.
    unfold get_security_findings.
    destruct (security_pages client fuel None [] st0) as [r st'].
    cbn [fst snd] in *. subst r. cbn [fst snd]. auto.
  - intros Hendless Htruthy.
    rewrite resources_handler_answers, Htruthy. fold st0.
    unfold get_resource_list. rewrite rethrow_id.
    match goal with |- context [resource_pages client fuel ?i ?t ?rs st0] =>
      destruct (resource_pages_endless client Hendless fuel i t rs st0)
        as (Hfst & Hsink & Hlen);
      destruct (resource_pages client fuel i t rs st0) as [r st'] end.
    cbn [fst snd] in *. subst r. cbn [fst snd]. auto.
Qed.

Lemma endless_listing_never_answers_witness :
  fst (cost_handler endless_client sample_now sample_stringify_checks 5 plain_event
         (start tt)) = OutOfFuel
  /\ fst (security_handler endless_client sample_now sample_stringify_checks 5 plain_event
            (start tt)) = OutOfFuel
  /\ List.length (calls (snd (resources_handler endless_client sample_now
                                sample_stringify_resourcesData 5 event_with_identifier
                                (start tt)))) = 5%nat.
Proof.
  assert (Hrecs : recommendations_never_end endless_client).
  { intros input w. exists page_ab, w. repeat split. discriminate. }
  assert (Hres : resources_never_end endless_client).
  { intros input w. exists resources_12, w. repeat split. }
  pose proof (endless_listing_never_answers endless_client sample_now sample_stringify_checks
                sample_stringify_resourcesData 5 plain_event tt) as (Hcost & Hsecurity & _).
  pose proof (endless_listing_never_answers endless_client sample_now sample_stringify_checks
                sample_stringify_resourcesData 5 event_with_identifier tt) as (_ & _ & Hresources).
  split; [|split].
  - now destruct (Hcost Hrecs) as (Hrun & _).
  - now destruct (Hsecurity Hrecs) as (Hrun & _).
  - now destruct (Hresources Hres eq_refl) as (_ & _ & Hlen).
Defined.

(* ===================================================================== *)
(** ** A page without its item list *)
(* ===================================================================== *)

Section BarePage.

Context {W : Type} (client : Client W).

Lemma cost_pages_bare w input pages bare w' :
  ServedThenBare client w input pages bare w' ->
  Forall has_items (map fst pages) ->
  forall fuel input0 nextToken findings (st : State W),
    input = (if truthy nextToken then ListInput.with_nextToken input0 nextToken else input0) ->
    world st = w ->
    (List.length pages < fuel)%nat ->
    cost_pages client fuel input0 nextToken findings st
    = (Throw summaries_not_iterable,
       {| world := w';
          calls := calls st
                   ++ page_calls input (map fst pages)
                   ++ [ListRecommendationsCommand (request_after input (map fst pages))];
          sink := sink st |}).
Proof.
  induction 1 as [w input bare w1 Hlist Hbare
                 |w input page w1 replies w2 pages bare w3 Hlist Hdet Htok Hrest IH];
    intros Hitems fuel input0 nextToken findings st Hinput Hw Hfuel;
    (destruct fuel as [|fuel]; [cbn in Hfuel; lia|]);
    cbn [cost_pages]; rewrite <- Hinput; subst w.
  - sent Hlist. rewrite Hbare. reflexivity.
  - sent Hlist.
    inversion Hitems as [|? ? Hpage Hitems']; subst. cbn [fst] in Hpage.
    unfold has_items in Hpage. unfold page_items in Hdet.
    destruct (ListOutput.recommendationSummaries page) as [items|] eqn:Hsum; [|congruence].
    unfold enrich_cost. erewrite bind_ok by (apply enrich_spec; exact Hdet).
    rewrite Htok.
    erewrite IH; [| exact Hitems' | now rewrite Htok | reflexivity | cbn in Hfuel; cbn; lia].
    cbn. unfold page_items. rewrite ?Hsum. cbn.
    now rewrite <- ?app_assoc.
Qed.

(** Seen by the security provider, a page without its item list is a
    page with no items. *)
Lemma served_then_bare_security w input pages bare w' :
  ServedThenBare client w input pages bare w' ->
  truthy (ListOutput.nextToken bare) = false ->
  RecommendationsServed client w input (pages ++ [(bare, [])]) LastPage w'.
Proof.
  induction 1 as [w input bare w1 Hlist Hbare
                 |w input page w1 replies w2 pages bare w3 Hlist Hdet Htok Hrest IH];
    intros Hlast.
  - eapply served_last; eauto. unfold page_items. now rewrite Hbare.
  - cbn [app]. eapply served_next; eauto.
Qed.

Lemma served_then_bare_items w input pages bare w' :
  ServedThenBare client w input pages bare w' -> page_items bare = [].
Proof. induction 1; auto. unfold page_items. now rewrite H0. Qed.

End BarePage.

(** The two recommendation providers differ on a response that has no
    [recommendationSummaries].  The cost provider iterates the member as
    it is: the iteration throws, the findings of the pages before are
    given up, no further call is made, and the handler answers with the
    ["REPROMPT"] error envelope.  The security provider reads the member
    with [|| []]: when the page carries no token it ends the listing, and
    the handler answers with the success envelope holding the findings
    of the pages before. *)
Theorem missing_summaries_cost_throws_security_goes_on {W} (client : Client W)
  (now : jsstring) (stringify_checks : Checks.t -> jsstring)
  (fuel : nat) (event : Event.t) (w w' : W)
  (pages : list (ListOutput.t * list (Reply Detail.t))) (bare : ListOutput.t) :
  (ServedThenBare client w first_cost_input pages bare w' ->
   Forall has_items (map fst pages) ->
   (List.length pages < fuel)%nat ->
   cost_handler client now stringify_checks fuel event (start w)
   = (Ok tt,
      {| world := w';
         calls := page_calls first_cost_input (map fst pages)
                  ++ [ListRecommendationsCommand
                        (request_after first_cost_input (map fst pages))];
         sink := answered (error_function_response event summaries_not_iterable) |}))
  /\ (ServedThenBare client w first_security_input pages bare w' ->
      truthy (ListOutput.nextToken bare) = false ->
      (S (List.length pages) < fuel)%nat ->
      security_handler client now stringify_checks fuel event (start w)
      = (Ok tt,
         {| world := w';
            calls := page_calls first_security_input (map fst pages)
                     ++ [ListRecommendationsCommand
                           (request_after first_security_input (map fst pages))];
            sink := answered
                      (function_response event
                         (stringify_checks
                            (security_checks now (all_kept security_finding pages)))) |})).
Proof.
  split.
  - intros Hserved Hitems Hfuel.
    rewrite cost_handler_answers.
    unfold get_trusted_advisor_findings. rewrite rethrow_id. unfold bind.
    erewrite (cost_pages_bare client) by eauto.
    reflexivity.
  - intros Hserved Hlast Hfuel'.
    pose proof (served_then_bare_items client _ _ _ _ _ Hserved) as Hbare.
    apply (served_then_bare_security client) in Hserved; [|exact Hlast].
    rewrite (security_handler_served client now stringify_checks w _ LastPage w' fuel event
               Hserved)
      by (rewrite length_app; cbn; lia).
    cbn [failing_call answer_for]. rewrite app_nil_r.
    f_equal. f_equal.
    + rewrite map_app. cbn [map fst].
      clear - Hbare. generalize first_security_input as input.
      induction (map fst pages) as [|p ps IH]; intros input; cbn.
      * now rewrite Hbare.
      * f_equal. rewrite <- app_assoc. f_equal. apply IH.
    + replace (all_kept security_finding (pages ++ [(bare, [])]))
        with (all_kept security_finding pages); [reflexivity|].
      unfold all_kept. rewrite flat_map_app. cbn [flat_map fst snd].
      rewrite Hbare. cbn. now rewrite app_nil_r.
Qed.

Lemma missing_summaries_cost_throws_security_goes_on_witness :
  cost_handler Scripted.client sample_now sample_stringify_checks 3 plain_event
    (start bare_second_page)
  = (Ok tt,
     {| world := nothing_recorded;
        calls := page_calls first_cost_input [page_ab]
                 ++ [ListRecommendationsCommand (request_after first_cost_input [page_ab])];
        sink := answered (error_function_response plain_event summaries_not_iterable) |})
  /\ security_handler Scripted.client sample_now sample_stringify_checks 3 plain_event
       (start bare_second_page)
     = (Ok tt,
        {| world := nothing_recorded;
           calls := page_calls first_security_input [page_ab]
                    ++ [ListRecommendationsCommand
                          (request_after first_security_input [page_ab])];
           sink := answered
                     (function_response plain_event
                        (sample_stringify_checks
                           (security_checks sample_now
                              [security_finding item_a sample_detail;
                               security_finding item_b sample_detail]))) |}).
Proof.
  pose proof (missing_summaries_cost_throws_security_goes_on Scripted.client sample_now
                sample_stringify_checks 3 plain_event bare_second_page nothing_recorded
                [(page_ab, [Returns sample_detail; Returns sample_detail])] bare_page)
    as (Hcost & Hsecurity).
  split.
  - apply Hcost; [| repeat constructor; discriminate | cbn; lia].
    eapply bare_later; [reflexivity | reflexivity | reflexivity |].
    apply bare_now; reflexivity.
  - apply Hsecurity; [| reflexivity | cbn; lia].
    eapply bare_later; [reflexivity | reflexivity | reflexivity |].
    apply bare_now; reflexivity.
Defined.

(* ===================================================================== *)
(** ** Every run that finishes *)
(* ===================================================================== *)

Section FinishedRuns.

Context {W : Type} (client : Client W).

Lemma resource_pages_finished fuel :
  forall input0 nextToken resources (st : State W) r st',
    resource_pages client fuel input0 nextToken resources st = (r, st') ->
    r <> OutOfFuel ->
    exists pages ending,
      ResourcesServed client (world st)
        (if truthy nextToken then ResourcesInput.with_nextToken input0 nextToken else input0)
        pages ending (world st')
      /\ r = listing_result ending
               (resources ++ flat_map (fun page => map resource_record (page_resources page))
                                      pages)
      /\ (List.length pages <= fuel)%nat.
Proof.
  induction fuel as [|fuel IH]; intros input0 nextToken resources st r st' Hrun Hr.
  - cbn in Hrun. injection Hrun as <- _. congruence.
  - cbn [resource_pages] in Hrun.
    set (input := if truthy nextToken then ResourcesInput.with_nextToken input0 nextToken
                  else input0) in *.
    destruct (listRecommendationResources client input (world st)) as [[page|e] w1] eqn:Hlist.
    + erewrite bind_ok in Hrun by (apply send_returns; exact Hlist).
      destruct (truthy (ResourcesOutput.nextToken page)) eqn:Htok.
      * apply IH in Hrun as (pages & ending & Hserved & Hres & Hlen); [|exact Hr].
        rewrite Htok in Hserved. cbn [world] in Hserved.
        exists (page :: pages), ending. split; [|split].
        -- eapply resources_next; eauto.
        -- rewrite Hres. cbn [flat_map]. unfold page_resources at 2.
           destruct (ResourcesOutput.recommendationResourceSummaries page);
             now rewrite <- ?app_assoc, ?app_nil_r.
        -- cbn. lia.
      * injection Hrun as <- <-.
        exists [page], LastPage. split; [|split].
        -- now apply resources_last.
        -- cbn. unfold page_resources.
           destruct (ResourcesOutput.recommendationResourceSummaries page);
             now rewrite ?app_nil_r.
        -- cbn. lia.
    + erewrite bind_throw in Hrun by (apply send_fails; exact Hlist).
      injection Hrun as <- <-.
      exists [], (ListFails e). split; [|split].
      * now apply resources_fails.
      * reflexivity.
      * cbn. lia.
Qed.

Lemma security_pages_finished fuel :
  forall nextToken findings (st : State W) r st',
    security_pages client fuel nextToken findings st = (r, st') ->
    r <> OutOfFuel ->
    exists pages ending,
      RecommendationsServed client (world st)
        (if truthy nextToken then ListInput.with_nextToken first_security_input nextToken
         else first_security_input)
        pages ending (world st')
      /\ r = listing_result ending (findings ++ all_kept security_finding pages)
      /\ (List.length pages <= fuel)%nat.
Proof.
  induction fuel as [|fuel IH]; intros nextToken findings st r st' Hrun Hr.
  - cbn in Hrun. injection Hrun as <- _. congruence.
  - cbn [security_pages] in Hrun. rewrite security_input_eq in Hrun.
    set (input := if truthy nextToken
                  then ListInput.with_nextToken first_security_input nextToken
                  else first_security_input) in *.
    destruct (listRecommendations client input (world st)) as [[page|e] w1] eqn:Hlist.
    + erewrite bind_ok in Hrun by (apply send_returns; exact Hlist).
      fold (page_items page) in Hrun.
      destruct (detail_replies client (page_items page) w1) as [replies w2] eqn:Hdet.
      unfold enrich_security in Hrun.
      erewrite bind_ok in Hrun by (apply enrich_spec; exact Hdet).
      destruct (truthy (ListOutput.nextToken page)) eqn:Htok.
      * apply IH in Hrun as (pages & ending & Hserved & Hres & Hlen); [|exact Hr].
        rewrite Htok in Hserved. cbn [world] in Hserved.
        exists ((page, replies) :: pages), ending. split; [|split].
        -- eapply served_next; eauto.
           replace (ListInput.with_nextToken input (ListOutput.nextToken page))
             with (ListInput.with_nextToken first_security_input (ListOutput.nextToken page));
             [exact Hserved|].
           subst input. now destruct (truthy nextToken).
        -- rewrite Hres. unfold all_kept. cbn [flat_map fst snd]. now rewrite <- app_assoc.
        -- cbn. lia.
      * injection Hrun as <- <-.
        exists [(page, replies)], LastPage. split; [|split].
        -- eapply served_last; eauto.
        -- unfold all_kept. cbn. now rewrite ?app_nil_r.
        -- cbn. lia.
    + erewrite bind_throw in Hrun by (apply send_fails; exact Hlist).
      injection Hrun as <- <-.
      exists [], (ListFails e). split; [|split].
      * now apply served_fails.
      * unfold all_kept. cbn. now rewrite ?app_nil_r.
      * cbn. lia.
Qed.

Lemma cost_pages_finished fuel :
  forall input0 nextToken findings (st : State W) r st',
    cost_pages client fuel input0 nextToken findings st = (r, st') ->
    r <> OutOfFuel ->
    exists pages,
      Forall has_items (map fst pages)
      /\ (List.length pages <= fuel)%nat
      /\ ((exists ending,
             RecommendationsServed client (world st)
               (if truthy nextToken then ListInput.with_nextToken input0 nextToken else input0)
               pages ending (world st')
             /\ r = listing_result ending (findings ++ all_kept cost_finding pages))
          \/ (exists bare,
                ServedThenBare client (world st)
                  (if truthy nextToken then ListInput.with_nextToken input0 nextToken
                   else input0)
                  pages bare (world st')
                /\ r = Throw summaries_not_iterable)).
Proof.
  induction fuel as [|fuel IH]; intros input0 nextToken findings st r st' Hrun Hr.
  - cbn in Hrun. injection Hrun as <- _. congruence.
  - cbn [cost_pages] in Hrun.
    set (input := if truthy nextToken then ListInput.with_nextToken input0 nextToken
                  else input0) in *.
    destruct (listRecommendations client input (world st)) as [[page|e] w1] eqn:Hlist.
    + erewrite bind_ok in Hrun by (apply send_returns; exact Hlist).
      destruct (ListOutput.recommendationSummaries page) as [items|] eqn:Hsum.
      * assert (Hpage : has_items page) by (unfold has_items; congruence).
        assert (Hitems : page_items page = items) by (unfold page_items; now rewrite Hsum).
        destruct (detail_replies client items w1) as [replies w2] eqn:Hdet.
        unfold enrich_cost in Hrun.
        erewrite bind_ok in Hrun by (apply enrich_spec; exact Hdet).
        destruct (truthy (ListOutput.nextToken page)) eqn:Htok.
        -- apply IH in Hrun as (pages & Hall & Hlen & Hout); [|exact Hr].
           rewrite Htok in Hout. cbn [world] in Hout.
           exists ((page, replies) :: pages).
           split; [now constructor|]. split; [cbn; lia|].
           destruct Hout as [(ending & Hserved & Hres) | (bare & Hserved & Hres)].
           ++ left. exists ending. split.
              ** eapply served_next; eauto. now rewrite Hitems.
              ** rewrite Hres. unfold all_kept. cbn [flat_map fst snd].
                 now rewrite Hitems, <- app_assoc.
           ++ right. exists bare. split; [|exact Hres].
              eapply bare_later; eauto. now rewrite Hitems.
        -- injection Hrun as <- <-.
           exists [(page, replies)].
           split; [now repeat constructor|]. split; [cbn; lia|].
           left. exists LastPage. split.
           ++ eapply served_last; eauto. now rewrite Hitems.
           ++ unfold all_kept. cbn. now rewrite Hitems, ?app_nil_r.
      * injection Hrun as <- <-.
        exists []. split; [constructor|]. split; [cbn; lia|].
        right. exists page. split; [now apply bare_now | reflexivity].
    + erewrite bind_throw in Hrun by (apply send_fails; exact Hlist).
      injection Hrun as <- <-.
      exists []. split; [constructor|]. split; [cbn; lia|].
      left. exists (ListFails e). split; [now apply served_fails|].
      unfold all_kept. cbn. now rewrite ?app_nil_r.
Qed.

End FinishedRuns.

(** A run of the resource handler that finishes is one of three: the
    event has no usable [recommendationIdentifier], no command was sent
    and the answer is the validation error; or the listing was served up
    to a page without a token and the answer is the success envelope
    with the records of all resources of all pages, in order; or a list
    call threw and the answer is the error envelope for what it threw.
    Nothing else is ever answered: no partial list, no other error. *)
Theorem resources_handler_outcomes {W} (client : Client W) (now : jsstring)
  (stringify_resourcesData : ResourcesData.t -> jsstring)
  (fuel : nat) (event : Event.t) (w : W) :
  fst (resources_handler client now stringify_resourcesData fuel event (start w))
  <> OutOfFuel ->
  resources_outcome client now stringify_resourcesData event w
    (snd (resources_handler client now stringify_resourcesData fuel event (start w))).
Proof.
  unfold resources_outcome.
  rewrite resources_handler_answers.
  destruct (find_recommendationIdentifier event) as [id|] eqn:Hfind;
    [destruct id as [|c id'] eqn:Hid|]; cbn [truthy str_truthy].
  - intros _. left. repeat split.
  - rewrite <- Hid. rewrite or_empty_some.
    unfold get_resource_list. rewrite rethrow_id.
    destruct (resource_pages client fuel (first_resources_input id) None []
                (written (start w) [SetContentType (lit "application/json")]))
      as [r st1] eqn:Hrun.
    fold (first_resources_input id).
    rewrite Hrun. intros Hfinished.
    assert (Hr : r <> OutOfFuel) by (destruct r; cbn in *; congruence).
    destruct (resource_pages_finished client fuel _ _ _ _ _ _ Hrun Hr)
      as (pages & ending & Hserved & Hres & _).
    destruct (resource_pages_any client fuel (first_resources_input id) None []
                (written (start w) [SetContentType (lit "application/json")]))
      as (r' & st1' & Hrun' & Hsink).
    rewrite Hrun in Hrun'. injection Hrun' as <- <-.
    right. exists id, pages, ending.
    split; [reflexivity|]. split; [subst id; discriminate|].
    cbn [truthy world written start] in Hserved.
    subst r. destruct ending; cbn [listing_result snd world written answer_for app];
      (split; [exact Hserved|]); unfold written; cbn [sink]; rewrite Hsink; reflexivity.
  - intros _. left. repeat split.
Qed.

Lemma resources_handler_outcomes_witness :
  resources_outcome Scripted.client sample_now sample_stringify_resourcesData
    event_with_identifier serves_all
    (snd (resources_handler Scripted.client sample_now sample_stringify_resourcesData
            3 event_with_identifier (start serves_all))).
Proof.
  apply (resources_handler_outcomes Scripted.client sample_now sample_stringify_resourcesData
           3 event_with_identifier serves_all).
  vm_compute. discriminate.
Defined.

(** A run of the security handler that finishes is one of two: the
    listing was served up to a page without a token and the answer is
    the success envelope with one finding for each detail fetch that
    returned, in the order served; or a list call threw and the answer is
    the error envelope for what it threw. *)
Theorem security_handler_outcomes {W} (client : Client W) (now : jsstring)
  (stringify_checks : Checks.t -> jsstring)
  (fuel : nat) (event : Event.t) (w : W) :
  fst (security_handler client now stringify_checks fuel event (start w)) <> OutOfFuel ->
  security_outcome client now stringify_checks event w
    (snd (security_handler client now stringify_checks fuel event (start w))).
Proof.
  unfold security_outcome.
  rewrite security_handler_answers. unfold get_security_findings.
  destruct (security_pages client fuel None []
              (written (start w) [SetContentType (lit "application/json")]))
    as [r st1] eqn:Hrun.
  intros Hfinished.
  assert (Hr : r <> OutOfFuel) by (destruct r; cbn in *; congruence).
  destruct (security_pages_finished client fuel _ _ _ _ _ Hrun Hr)
    as (pages & ending & Hserved & Hres & _).
  destruct (security_pages_any client fuel None []
              (written (start w) [SetContentType (lit "application/json")]))
    as (r' & st1' & Hrun' & Hsink).
  rewrite Hrun in Hrun'. injection Hrun' as <- <-.
  exists pages, ending.
  cbn [truthy world written start] in Hserved.
  subst r. destruct ending; cbn [listing_result snd world written answer_for app];
    (split; [exact Hserved|]); unfold written; cbn [sink]; rewrite Hsink; reflexivity.
Qed.

Lemma security_handler_outcomes_witness :
  security_outcome Scripted.client sample_now sample_stringify_checks
    plain_event detail_of_b_throttled
    (snd (security_handler Scripted.client sample_now sample_stringify_checks
            2 plain_event (start detail_of_b_throttled))).
Proof.
  apply (security_handler_outcomes Scripted.client sample_now sample_stringify_checks
           2 plain_event detail_of_b_throttled).
  vm_compute. discriminate.
Defined.

(** A run of the cost handler that finishes is one of three: the listing
    was served up to a page without a token and the answer is the success
    envelope with the findings kept, sorted by savings; or a list call
    threw and the answer is the error envelope for what it threw; or a
    response came without [recommendationSummaries] and the answer is the
    error envelope for the iteration that threw on it.  In each case all
    pages before had their item lists. *)
Theorem cost_handler_outcomes {W} (client : Client W) (now : jsstring)
  (stringify_checks : Checks.t -> jsstring)
  (fuel : nat) (event : Event.t) (w : W) :
  fst (cost_handler client now stringify_checks fuel event (start w)) <> OutOfFuel ->
  cost_outcome client now stringify_checks event w
    (snd (cost_handler client now stringify_checks fuel event (start w))).
Proof.
  unfold cost_outcome.
  rewrite cost_handler_answers.
  unfold get_trusted_advisor_findings. rewrite rethrow_id. unfold bind.
  fold first_cost_input.
  destruct (cost_pages client fuel first_cost_input None []
              (written (start w) [SetContentType (lit "application/json")]))
    as [r st1] eqn:Hrun.
  intros Hfinished.
  assert (Hr : r <> OutOfFuel) by (destruct r; cbn in *; congruence).
  destruct (cost_pages_finished client fuel _ _ _ _ _ _ Hrun Hr)
    as (pages & Hitems & _ & Hout).
  destruct (cost_pages_any client fuel first_cost_input None []
              (written (start w) [SetContentType (lit "application/json")]))
    as (r' & st1' & Hrun' & Hsink & _).
  rewrite Hrun in Hrun'. injection Hrun' as <- <-.
  exists pages. split; [exact Hitems|].
  cbn [truthy world written start] in Hout.
  destruct Hout as [(ending & Hserved & ->) | (bare & Hserved & ->)].
  - left. exists ending.
    destruct ending; cbn [listing_result ret snd world written answer_for app];
      (split; [exact Hserved|]); unfold written; cbn [sink]; rewrite Hsink; reflexivity.
  - right. exists bare. cbn [snd world written].
    split; [exact Hserved|]. unfold written; cbn [sink]. rewrite Hsink. reflexivity.
Qed.

Lemma cost_handler_outcomes_witness :
  cost_outcome Scripted.client sample_now sample_stringify_checks
    plain_event bare_second_page
    (snd (cost_handler Scripted.client sample_now sample_stringify_checks
            3 plain_event (start bare_second_page))).
Proof.
  apply (cost_handler_outcomes Scripted.client sample_now sample_stringify_checks
           3 plain_event bare_second_page).
  vm_compute. discriminate.
Defined.

(* ===================================================================== *)
(** ** The security listing and the resource answer *)
(* ===================================================================== *)

(** The security provider's [do ... while (nextToken)] loop: when the
    service serves a listing page by page up to a page without a token
    (absent or empty), the provider returns one finding for each item
    whose detail fetch returned, page after page in the order served; a
    page without its item list counts as a page with no items; and one
    list call was sent per page, the first without a token and each
    later one with the token of the page before it. *)
Theorem security_pagination_complete {W} (client : Client W) (fuel : nat) (st : State W)
  (w' : W) (pages : list (ListOutput.t * list (Reply Detail.t))) :
  RecommendationsServed client (world st) first_security_input pages LastPage w' ->
  (List.length pages < fuel)%nat ->
  get_security_findings client fuel st
  = (Ok (all_kept security_finding pages),
     {| world := w';
        calls := calls st ++ page_calls first_security_input (map fst pages);
        sink := sink st |})
  /\ list_commands (page_calls first_security_input (map fst pages))
     = list_requests first_security_input (map fst pages)
  /\ List.length (list_requests first_security_input (map fst pages)) = List.length pages
  /\ map ListInput.nextToken (list_requests first_security_input (map fst pages))
     = None :: map ListOutput.nextToken (removelast (map fst pages)).
Proof.
  intros Hserved Hfuel. split; [|split; [|split]].
  - erewrite get_security_findings_served by eauto.
    cbn [listing_result failing_call]. now rewrite app_nil_r.
  - apply list_commands_page_calls.
  - rewrite list_requests_length. apply length_map.
  - apply list_requests_tokens.
    apply recommendations_served_nonempty in Hserved.
    destruct pages; [now contradiction Hserved | discriminate].
Qed.

Lemma security_pagination_complete_witness :
  get_security_findings Scripted.client 3 (start serves_all)
  = (Ok [security_finding item_a sample_detail; security_finding item_b sample_detail;
         security_finding item_c sample_detail; security_finding item_d sample_detail],
     {| world := lists_consumed serves_all;
        calls := [ListRecommendationsCommand first_security_input;
                  GetRecommendationCommand (Summary.arn item_a);
                  GetRecommendationCommand (Summary.arn item_b);
                  ListRecommendationsCommand
                    (ListInput.with_nextToken first_security_input (Some (lit "t1")));
                  GetRecommendationCommand (Summary.arn item_c);
                  GetRecommendationCommand (Summary.arn item_d)];
        sink := [] |}).
Proof.
  apply (security_pagination_complete Scripted.client 3 (start serves_all)
           (lists_consumed serves_all)
           [(page_ab, [Returns sample_detail; Returns sample_detail]);
            (page_cd, [Returns sample_detail; Returns sample_detail])]).
  - eapply served_next; [reflexivity | reflexivity | reflexivity |].
    eapply served_last; reflexivity.
  - cbn. lia.
Defined.

Lemma flat_map_length_records (pages : list ResourcesOutput.t) :
  List.length (flat_map (fun page => map resource_record (page_resources page)) pages)
  = List.length (flat_map page_resources pages).
Proof.
  induction pages as [|p pages IH]; [reflexivity|].
  cbn [flat_map]. now rewrite !length_app, length_map, IH.
Qed.

(** The resource handler on a request it accepts: the identifier is the
    value of the first parameter named [recommendationIdentifier],
    whatever parameters come before or after it; when the listing for it
    is served up to a page without a token, the handler has sent one list
    request per page, all for that identifier, and answers with the
    success envelope whose payload holds the records of all resources of
    all pages, in the order served, and their number as
    [totalResources]. *)
Theorem resources_handler_lists_all {W} (client : Client W) (now : jsstring)
  (stringify_resourcesData : ResourcesData.t -> jsstring)
  (fuel : nat) (event : Event.t) (w w' : W)
  (before after : list Param.t) (param : Param.t) (id : jsstring)
  (pages : list ResourcesOutput.t) :
  Event.parameters event = Some (before ++ param :: after) ->
  Forall (fun p => ~ named_recommendationIdentifier p) before ->
  named_recommendationIdentifier param ->
  Param.value param = Some id ->
  id <> [] ->
  ResourcesServed client w (first_resources_input id) pages LastPage w' ->
  (List.length pages < fuel)%nat ->
  resources_handler client now stringify_resourcesData fuel event (start w)
  = (Ok tt,
     {| world := w';
        calls := map ListRecommendationResourcesCommand
                     (resource_requests (first_resources_input id) pages);
        sink := answered
                  (function_response event
                     (stringify_resourcesData
                        (resources_data now
                           (flat_map (fun page => map resource_record (page_resources page))
                                     pages)))) |})
  /\ ResourcesData.totalResources
       (resources_data now
          (flat_map (fun page => map resource_record (page_resources page)) pages))
     = N.of_nat (List.length (flat_map page_resources pages))
  /\ Forall (fun input => ResourcesInput.recommendationIdentifier input = id)
            (resource_requests (first_resources_input id) pages).
Proof.
  intros Hparams Hbefore Hnamed Hvalue Hid Hserved Hfuel.
  assert (Hfind : find_recommendationIdentifier event = Some id).
  { unfold find_recommendationIdentifier. rewrite Hparams.
    rewrite find_first_named by assumption. exact Hvalue. }
  split; [|split].
  - rewrite (resources_handler_served client now stringify_resourcesData id w pages
               LastPage w' fuel event Hfind Hid Hserved Hfuel).
    cbn [failing_call answer_for]. now rewrite app_nil_r.
  - unfold resources_data. cbn [ResourcesData.totalResources].
    now rewrite flat_map_length_records.
  - clear. assert (H : forall input,
               ResourcesInput.recommendationIdentifier input = id ->
               Forall (fun i => ResourcesInput.recommendationIdentifier i = id)
                      (resource_requests input pages)).
    { induction pages as [|p pages IH]; intros input Hinput; cbn; constructor; auto. }
    now apply H.
Qed.

Lemma resources_handler_lists_all_witness :
  resources_handler Scripted.client sample_now sample_stringify_resourcesData 3
    event_with_two_identifiers (start serves_all)
  = (Ok tt,
     {| world := resources_consumed serves_all;
        calls := [ListRecommendationResourcesCommand
                    (first_resources_input (lit "arn:rec/1"));
                  ListRecommendationResourcesCommand
                    (ResourcesInput.with_nextToken (first_resources_input (lit "arn:rec/1"))
                       (Some (lit "t1")))];
        sink := answered
                  (function_response event_with_two_identifiers
                     (sample_stringify_resourcesData
                        (resources_data sample_now
                           (map resource_record
                              [sample_resource "r1"; sample_resource "r2";
                               sample_resource "r3"])))) |}).
Proof.
  apply (resources_handler_lists_all Scripted.client sample_now
           sample_stringify_resourcesData 3 event_with_two_identifiers serves_all
           (resources_consumed serves_all)
           [ {| Param.name := Some (lit "region"); Param.value := Some (lit "eu-west-1") |} ]
           [ {| Param.name := Some (lit "recommendationIdentifier");
                Param.value := Some (lit "arn:rec/2") |} ]
           {| Param.name := Some (lit "recommendationIdentifier");
              Param.value := Some (lit "arn:rec/1") |}
           (lit "arn:rec/1") [resources_12; resources_3]).
  - reflexivity.
  - constructor; [|constructor]. unfold named_recommendationIdentifier. cbn. discriminate.
  - reflexivity.
  - reflexivity.
  - discriminate.
  - eapply resources_next; [reflexivity | reflexivity |].
    eapply resources_last; reflexivity.
  - cbn. lia.
Defined.

(* ===================================================================== *)
(** ** Sorting what is sorted *)
(* ===================================================================== *)

Lemma num_le_not_pos (a b : number) :
  is_nan a = false -> is_nan b = false ->
  num_le b a -> num_pos (num_sub b a) = false.
Proof.
  intros Ha Hb Hle. destruct (num_pos (num_sub b a)) eqn:Hpos; [|reflexivity].
  apply num_pos_sub_true in Hpos as [_ Hn]; auto. contradiction.
Qed.

Lemma Array_sort_sorted_id (l : list Finding.t) :
  StronglySorted saves_at_least l -> Array_sort by_savings l = l.
Proof.
  induction 1 as [|x r Hsorted IH Hall]; [reflexivity|].
  cbn [Array_sort]. rewrite IH.
  destruct r as [|y r']; [reflexivity|].
  cbn [sort_insert].
  inversion Hall as [|? ? Hxy _]; subst.
  unfold by_savings. fold (savings_key x) (savings_key y).
  rewrite num_le_not_pos; [reflexivity | apply or_zero_not_nan | apply or_zero_not_nan | exact Hxy].
Qed.

(** Findings that already come in non-increasing order of savings are
    returned by the cost provider's sort exactly as they came, and so
    sorting a second time changes nothing. *)
Theorem sorted_findings_stay (findings : list Finding.t) :
  (StronglySorted saves_at_least findings -> Array_sort by_savings findings = findings)
  /\ Array_sort by_savings (Array_sort by_savings findings) = Array_sort by_savings findings.
Proof.
  split; [apply Array_sort_sorted_id|].
  apply Array_sort_sorted_id, Array_sort_sorted.
Qed.

Lemma sorted_findings_stay_witness :
  Array_sort by_savings
    [cost_finding item_b sample_detail; cost_finding item_c sample_detail;
     cost_finding item_a sample_detail; cost_finding item_d sample_detail]
  = [cost_finding item_b sample_detail; cost_finding item_c sample_detail;
     cost_finding item_a sample_detail; cost_finding item_d sample_detail].
Proof.
  apply (proj1 (sorted_findings_stay _)).
  repeat constructor; unfold saves_at_least; cbn; discriminate.
Defined.

(* ===================================================================== *)
(** ** ASCII envelopes *)
(* ===================================================================== *)

Lemma is_ascii_cons (c : code_unit) (s : jsstring) :
  is_ascii (c :: s) = (c <? 128) && is_ascii s.
Proof. reflexivity. Qed.

Lemma hex_digit_ascii (n : N) : n < 16 -> (hex_digit n <? 128) = true.
Proof.
  intros Hn. unfold hex_digit. apply N.ltb_lt.
  destruct (N.ltb_spec n 10); lia.
Qed.

Lemma unicode_escape_ascii (c : code_unit) : is_ascii (unicode_escape c) = true.
Proof.
  unfold unicode_escape. rewrite !is_ascii_cons.
  rewrite !hex_digit_ascii by (apply N.mod_lt; discriminate).
  reflexivity.
Qed.

(** Escaping adds only ASCII characters. *)
Lemma json_escape_ascii (s : jsstring) : is_ascii s = true -> is_ascii (json_escape s) = true.
Proof.
  assert (H : forall n (t : jsstring), (List.length t <= n)%nat ->
                is_ascii t = true -> is_ascii (json_escape t) = true).
  { induction n as [|n IH]; intros t Hn Ht.
    - destruct t; [reflexivity | cbn in Hn; lia].
    - destruct t as [|c r]; [reflexivity|].
      cbn [List.length] in Hn. rewrite is_ascii_cons in Ht.
      apply andb_true_iff in Ht as [Hc Hr].
      assert (IHr : is_ascii (json_escape r) = true) by (apply IH; [lia | exact Hr]).
      assert (Hhigh : is_high_surrogate c = false).
      { apply N.ltb_lt in Hc. unfold is_high_surrogate. apply andb_false_iff. left.
        apply N.leb_gt. lia. }
      assert (Hlow : is_low_surrogate c = false).
      { apply N.ltb_lt in Hc. unfold is_low_surrogate. apply andb_false_iff. left.
        apply N.leb_gt. lia. }
      cbn [json_escape]. rewrite Hhigh, Hlow.
      repeat match goal with
             | |- context [if ?b then _ else _] => destruct b
             end;
        rewrite ?is_ascii_app, ?unicode_escape_ascii, ?is_ascii_cons, ?IHr, ?Hc;
        reflexivity. }
  apply (H (List.length s)). lia.
Qed.

Lemma json_string_ascii (s : jsstring) : is_ascii s = true -> is_ascii (json_string s) = true.
Proof.
  intros Hs. unfold json_string.
  now rewrite is_ascii_cons, is_ascii_app, json_escape_ascii.
Qed.

Lemma JSON_stringify_ascii (r : Envelope) :
  ascii_envelope r = true -> is_ascii (JSON_stringify r) = true.
Proof.
  unfold ascii_envelope. intros H.
  apply andb_true_iff in H as [H Hbody].
  apply andb_true_iff in H as [H Hstate].
  apply andb_true_iff in H as [H Hfunction].
  apply andb_true_iff in H as [Hversion Hgroup].
  apply json_string_ascii in Hversion, Hgroup, Hbody.
  unfold JSON_stringify, json_object, json_member, json_opt_member.
  destruct (function r) as [f|]; destruct (responseState r) as [s|];
    try apply json_string_ascii in Hfunction; try apply json_string_ascii in Hstate;
    cbn [json_join app]; unfold json_member;
    repeat (rewrite ?is_ascii_app, ?is_ascii_cons, ?Hversion, ?Hgroup, ?Hbody,
              ?Hfunction, ?Hstate);
    reflexivity.
Qed.

(** When the strings of the envelope (version, action group, function,
    response state and body) are ASCII, so is its serialization, and then
    the chunks are cut by bytes: each chunk written is at most 25,600
    bytes. *)
Theorem ascii_envelope_chunks_in_bytes {W} (function_response : Envelope) (st : State W) :
  ascii_envelope function_response = true ->
  exists chunks,
    streamFunctionResponse function_response st
      = (Ok tt, written st (map Write chunks ++ [End_]))
    /\ Forall (fun c => byteLength c = strlen c /\ byteLength c <= 25600) chunks
    /\ byteLength (JSON_stringify function_response)
       = strlen (JSON_stringify function_response).
Proof.
  intros Hascii. apply JSON_stringify_ascii in Hascii.
  exists (chunks_of (JSON_stringify function_response)).
  split; [apply streamFunctionResponse_streamed|].
  split; [|now apply byteLength_ascii].
  assert (HC : CHUNK_SIZE = 25600) by reflexivity.
  pose proof CHUNK_SIZE_pos as Hpos.
  unfold chunks_of.
  set (json := JSON_stringify function_response) in *. clearbody json.
  destruct (N.ltb_spec CHUNK_SIZE (strlen json)) as [Hbig|Hsmall].
  - destruct (slices_spec (List.length json) json 0) as (_ & Hlen & Hasc).
    { unfold strlen. nia. }
    specialize (Hasc Hascii).
    rewrite Forall_forall in *. intros c Hc.
    rewrite (byteLength_ascii c) by auto. specialize (Hlen c Hc). lia.
  - constructor; [|constructor]. rewrite (byteLength_ascii json) by exact Hascii. lia.
Qed.

Lemma ascii_envelope_chunks_in_bytes_witness :
  chunk_sizes (sink (snd (streamFunctionResponse
                            (error_function_response plain_event sixty_thousand_error)
                            (start tt))))
  = [(25600, 25600); (25600, 25600); (8800, 8800)]
  /\ exists chunks,
       streamFunctionResponse (error_function_response plain_event sixty_thousand_error)
         (start tt)
       = (Ok tt, written (start tt) (map Write chunks ++ [End_]))
       /\ Forall (fun c => byteLength c = strlen c /\ byteLength c <= 25600) chunks
       /\ byteLength (JSON_stringify (error_function_response plain_event
                                        sixty_thousand_error))
          = strlen (JSON_stringify (error_function_response plain_event
                                      sixty_thousand_error)).
Proof.
  split; [vm_compute; reflexivity|].
  apply (ascii_envelope_chunks_in_bytes
           (error_function_response plain_event sixty_thousand_error) (start tt)).
  vm_compute. reflexivity.
Defined.
